(** * A shallow embedding of the DBN data generator

    The development follows the Python package [dbn_simulator]:

    - [dbn.py]: the network container ([DBN]), its running [max_lag] and the
      zero-lag topological ordering, which the source delegates to
      [networkx.topological_sort];
    - [node.py]: regular and temporal nodes;
    - [evaluator/cpds/linear_gaussian.py]: the linear-Gaussian distribution;
    - [samplers/sequential.py]: the sequential sampler [Sampler.generate].

    Python floats are IEEE binary64 numbers and are modelled by Rocq's
    primitive floats; Python integers are modelled by [Z]; a Python [dict]
    is an insertion-ordered association list with unique keys. *)

From Stdlib Require Import ZArith List String Bool Floats Lia Relations Permutation.
Import ListNotations.
Open Scope string_scope.
Open Scope Z_scope.
Open Scope list_scope.


(** ** Results and exceptions *)

Inductive result (E A : Type) : Type :=
| Ok (a : A)
| Err (e : E).
Arguments Ok {E A} a.
Arguments Err {E A} e.

Definition rbind {E A B} (r : result E A) (k : A -> result E B) : result E B :=
  match r with
  | Ok a => k a
  | Err e => Err e
  end.

Definition map_err {E F A} (f : E -> F) (r : result E A) : result F A :=
  match r with
  | Ok a => Ok a
  | Err e => Err (f e)
  end.

Declare Scope result_scope.
Delimit Scope result_scope with result.
Notation "x <- c ;; k" := (rbind c (fun x => k))
  (at level 61, c at next level, right associativity) : result_scope.

(** Exceptions raised by code the sampler only calls: an evaluable supplied by
    the user, numpy's Gaussian draw, the date-range helper, pandas. *)
Inductive lib_exn : Type :=
| ScaleNegative          (* numpy: ValueError("scale < 0") *)
| UnsupportedOperand     (* TypeError of an arithmetic operator *)
| IntTooLarge            (* OverflowError: int too large to convert to float *)
| DivisionByZero         (* ZeroDivisionError *)
| NoSuchAttribute        (* AttributeError inside an evaluable *)
| ArraysLengthMismatch   (* pandas: ValueError("All arrays must be of the same length") *)
| InvalidSliceBound      (* pandas: a list used as the bound of a label slice *)
| OtherException (tag : string).

(** The messages of the [ValueError]s that the package raises itself. *)
Inductive message : Type :=
| StartTimeWithoutFrequency
| FrequencyWithoutStartTime
| CycleDetected
| NodesNotProvided (missing : list string)
| UnexpectedLength (expected : Z) (node : string) (found : Z).

Inductive exn : Type :=
| ValueError (msg : message)
| KeyError (key : string)
| IndexError
| NoneHasNoAttribute     (* AttributeError: 'NoneType' object has no attribute 'evaluate' *)
| RuntimeError           (* networkx: "Graph changed during iteration" *)
| OutOfFuel              (* artefact of the bounded loop of the model, never returned *)
| Raised (e : lib_exn).

(** The two argument errors of step 1 and the two of step 2 of [generate]. *)
Definition is_argument_error (e : exn) : bool :=
  match e with
  | ValueError StartTimeWithoutFrequency
  | ValueError FrequencyWithoutStartTime
  | ValueError (NodesNotProvided _)
  | ValueError (UnexpectedLength _ _ _) => true
  | _ => false
  end.


Definition is_initial_values_error (e : exn) : bool :=
  match e with
  | ValueError (NodesNotProvided _)
  | ValueError (UnexpectedLength _ _ _) => true
  | _ => false
  end.

(** ** Keys with a boolean equality *)

Class EqKey (K : Type) : Type := { keyb : K -> K -> bool }.

#[export] Instance string_EqKey : EqKey string := {| keyb := String.eqb |}.

#[export] Instance Z_EqKey : EqKey Z := {| keyb := Z.eqb |}.

#[export] Instance pair_EqKey {A B} `{EqKey A} `{EqKey B} : EqKey (A * B) :=
  {| keyb := fun a b => (keyb (fst a) (fst b) && keyb (snd a) (snd b))%bool |}.

Definition memb {K} `{EqKey K} (k : K) (l : list K) : bool :=
  existsb (keyb k) l.

(** ** Python dictionaries: insertion-ordered, unique keys *)

Module Dict.
Section Dict.
Context {K V : Type} `{EqKey K}.

Definition t := list (K * V).

Definition keys (d : t) : list K := map fst d.
Definition values (d : t) : list V := map snd d.

Fixpoint get (k : K) (d : t) : option V :=
  match d with
  | [] => None
  | (k', v) :: d' => if keyb k k' then Some v else get k d'
  end.

(** [d[k] = v]: an existing key keeps its position, a new one goes last. *)
Fixpoint set (k : K) (v : V) (d : t) : t :=
  match d with
  | [] => [(k, v)]
  | (k', v') :: d' => if keyb k k' then (k', v) :: d' else (k', v') :: set k v d'
  end.

(** [del d[k]] *)
Fixpoint del (k : K) (d : t) : t :=
  match d with
  | [] => []
  | (k', v') :: d' => if keyb k k' then d' else (k', v') :: del k d'
  end.

Definition mem (k : K) (d : t) : bool := memb k (keys d).
End Dict.
Arguments t : clear implicits.
End Dict.

(** ** Values stored in a table *)

Inductive value : Type :=
| VFloat (f : float)
| VInt (z : Z)
| VTimestamp (ns : Z).

(** The placeholder [0.0] of a fresh column, also the default replacement of
    a parent value that lies before the start of the series. *)
Definition zero_point_zero : value := VFloat 0%float.

(** ** Evaluables ([evaluator/]) *)

(** [CPD.evaluate(parent_values)].  The second argument is the standard
    normal variate that the call obtains from its random source; a
    deterministic distribution ignores it. *)
Definition parent_key : Type := string * Z.

Record CPD : Type := {
  cpd_evaluate : Dict.t parent_key value -> float -> result lib_exn value
}.

(** [TimeFeature.evaluate(time)] *)
Record TimeFeature : Type := {
  tf_evaluate : value -> result lib_exn value
}.

(** ** Nodes ([node.py]) *)

Inductive Node : Type :=
| RegularNode (name : string) (parents : list (string * Z)) (cpd : option CPD)
| TemporalNode (name : string) (time_feature : option TimeFeature).

Definition node_name (n : Node) : string :=
  match n with
  | RegularNode name _ _ => name
  | TemporalNode name _ => name
  end.

(** A temporal node carries the empty parent list. *)
Definition node_parents (n : Node) : list (string * Z) :=
  match n with
  | RegularNode _ parents _ => parents
  | TemporalNode _ _ => []
  end.

Definition is_temporal (n : Node) : bool :=
  match n with
  | RegularNode _ _ _ => false
  | TemporalNode _ _ => true
  end.

(** [Node(name)], [add_parent], [set_cpd], [TemporalNode(name)],
    [set_time_feature] *)
Definition new_node (name : string) : Node := RegularNode name [] None.

Definition add_parent (parent_name : string) (lag : Z) (n : Node) : Node :=
  match n with
  | RegularNode name parents cpd => RegularNode name (parents ++ [(parent_name, lag)]) cpd
  | TemporalNode name tf => TemporalNode name tf
  end.

Definition set_cpd (c : CPD) (n : Node) : Node :=
  match n with
  | RegularNode name parents _ => RegularNode name parents (Some c)
  | TemporalNode name tf => TemporalNode name tf
  end.

Definition new_temporal_node (name : string) : Node := TemporalNode name None.

Definition set_time_feature (f : TimeFeature) (n : Node) : Node :=
  match n with
  | RegularNode name parents cpd => RegularNode name parents cpd
  | TemporalNode name _ => TemporalNode name (Some f)
  end.

(** ** The network ([dbn.py]) *)

Record DBN : Type := {
  nodes : Dict.t string Node;
  max_lag : Z
}.

(** [DBN()] *)
Definition empty_dbn : DBN := {| nodes := []; max_lag := 0 |}.

(** The loop [for _, lag in node.parents: if lag > self.max_lag: ...] *)
Definition update_max_lag (m : Z) (parents : list (string * Z)) : Z :=
  fold_left (fun acc pl => if acc <? snd pl then snd pl else acc) parents m.

(** [DBN.add_node] *)
Definition add_node (n : Node) (d : DBN) : DBN :=
  {| nodes := Dict.set (node_name n) n (nodes d);
     max_lag := update_max_lag (max_lag d) (node_parents n) |}.

(** [DBN.get_node] *)
Definition get_node (name : string) (d : DBN) : option Node :=
  Dict.get name (nodes d).

(** [DBN.validate_structure]: the body is [pass]. *)
Definition validate_structure (d : DBN) : result exn unit := Ok tt.

(** [DBN.compute_max_lag]: the body is [pass]. *)
Definition compute_max_lag (d : DBN) : result exn unit := Ok tt.

(** The network built by a sequence of [add_node] calls, first call first. *)
Definition dbn_of (l : list Node) : DBN :=
  fold_left (fun d n => add_node n d) l empty_dbn.

(** ** Directed graphs as [networkx.DiGraph] keeps them

    [vertices] is the insertion order of the node dictionary; [edges] lists
    each edge once, in the order of its first insertion, so that the
    successors of a vertex come out in the order of its adjacency
    dictionary. *)

Module nx.

Record DiGraph : Type := {
  vertices : list string;
  edges : list (string * string)
}.

Definition empty : DiGraph := {| vertices := []; edges := [] |}.

(** [G.add_node(n)] *)
Definition add_node (n : string) (G : DiGraph) : DiGraph :=
  if memb n (vertices G) then G
  else {| vertices := vertices G ++ [n]; edges := edges G |}.

(** [G.add_edge(u, v)]: both endpoints are created on demand. *)
Definition add_edge (u v : string) (G : DiGraph) : DiGraph :=
  let G1 := add_node v (add_node u G) in
  if memb (u, v) (edges G1) then G1
  else {| vertices := vertices G1; edges := edges G1 ++ [(u, v)] |}.

(** [G.neighbors(u)]: the successors of [u]. *)
Definition neighbors (G : DiGraph) (u : string) : list string :=
  map snd (filter (fun e => keyb (fst e) u) (edges G)).

Definition in_degree (G : DiGraph) (v : string) : Z :=
  Z.of_nat (List.length (filter (fun e => keyb (snd e) v) (edges G))).

(** The body of [for child in G.neighbors(node)] in
    [topological_generations]: decrement the child's entry; when it
    reaches zero, queue the child and delete the entry. *)
Definition relax (st : Dict.t string Z * list string) (child : string)
  : result exn (Dict.t string Z * list string) :=
  let '(indegree_map, zero_indegree) := st in
  match Dict.get child indegree_map with
  | None => Err RuntimeError
  | Some d =>
      let d' := d - 1 in
      if d' =? 0
      then Ok (Dict.del child indegree_map, zero_indegree ++ [child])
      else Ok (Dict.set child d' indegree_map, zero_indegree)
  end.

Fixpoint relax_all (st : Dict.t string Z * list string) (children : list string)
  : result exn (Dict.t string Z * list string) :=
  match children with
  | [] => Ok st
  | c :: cs => (st' <- relax st c ;; relax_all st' cs)%result
  end.

(** [for node in this_generation: ...] *)
Fixpoint process_generation (G : DiGraph) (st : Dict.t string Z * list string)
  (this_generation : list string) : result exn (Dict.t string Z * list string) :=
  match this_generation with
  | [] => Ok st
  | u :: rest =>
      (st' <- relax_all st (neighbors G u) ;; process_generation G st' rest)%result
  end.

(** [while zero_indegree: ...] followed by the final check of
    [indegree_map].  Every round but the last removes an entry of
    [indegree_map], which bounds the number of rounds. *)
Fixpoint generations (fuel : nat) (G : DiGraph) (indegree_map : Dict.t string Z)
  (zero_indegree : list string) : result exn (list (list string)) :=
  match zero_indegree with
  | [] =>
      match indegree_map with
      | [] => Ok []
      | _ :: _ => Err (Raised (OtherException "NetworkXUnfeasible"))
      end
  | _ :: _ =>
      match fuel with
      | O => Err OutOfFuel
      | S fuel' =>
          (st <- process_generation G (indegree_map, []) zero_indegree ;;
           rest <- generations fuel' G (fst st) (snd st) ;;
           Ok (zero_indegree :: rest))%result
      end
  end.

(** [topological_generations(G)] *)
Definition topological_generations (G : DiGraph) : result exn (list (list string)) :=
  let degrees := map (fun v => (v, in_degree G v)) (vertices G) in
  let indegree_map := filter (fun vd => 0 <? snd vd) degrees in
  let zero_indegree := map fst (filter (fun vd => snd vd =? 0) degrees) in
  generations (S (List.length indegree_map)) G indegree_map zero_indegree.

(** [list(topological_sort(G))] *)
Definition topological_sort (G : DiGraph) : result exn (list string) :=
  (gens <- topological_generations G ;; Ok (List.concat gens))%result.

End nx.

(** ** [DBN.get_topological_order] *)

(** [for node_name in self.nodes: G.add_node(node_name)] *)
Definition add_all_nodes (d : DBN) (G : nx.DiGraph) : nx.DiGraph :=
  fold_left (fun G name => nx.add_node name G) (Dict.keys (nodes d)) G.

(** The inner loop over [node.parents], keeping the lag-0 pairs. *)
Definition add_zero_lag_edges_of (n : Node) (G : nx.DiGraph) : nx.DiGraph :=
  fold_left
    (fun G pl => if snd pl =? 0 then nx.add_edge (fst pl) (node_name n) G else G)
    (node_parents n) G.

Definition add_zero_lag_edges (d : DBN) (G : nx.DiGraph) : nx.DiGraph :=
  fold_left (fun G n => add_zero_lag_edges_of n G) (Dict.values (nodes d)) G.

Definition zero_lag_graph (d : DBN) : nx.DiGraph :=
  add_zero_lag_edges d (add_all_nodes d nx.empty).

(** [self.nodes[name]] *)
Definition node_at (d : DBN) (name : string) : result exn Node :=
  match Dict.get name (nodes d) with
  | Some n => Ok n
  | None => Err (KeyError name)
  end.

Fixpoint nodes_at (d : DBN) (names : list string) : result exn (list Node) :=
  match names with
  | [] => Ok []
  | name :: rest =>
      (n <- node_at d name ;; ns <- nodes_at d rest ;; Ok (n :: ns))%result
  end.

Definition is_unfeasible (e : exn) : bool :=
  match e with
  | Raised (OtherException tag) => String.eqb tag "NetworkXUnfeasible"
  | _ => false
  end.

Definition get_topological_order (d : DBN) : result exn (list Node) :=
  match nx.topological_sort (zero_lag_graph d) with
  | Ok ordered_names => nodes_at d ordered_names
  | Err e => if is_unfeasible e then Err (ValueError CycleDetected) else Err e
  end.

(** ** The linear-Gaussian distribution ([linear_gaussian.py]) *)

(** Conversion of a Python integer operand of a float operator: correctly
    rounded, with an [OverflowError] outside the range of a double. *)
Definition float_of_int (z : Z) : result lib_exn float :=
  let f := SF2Prim (binary_normalize prec emax z 0 false) in
  if is_infinity f then Err IntTooLarge else Ok f.

(** [numpy.random.Generator.normal(loc, scale)]: the location-scale
    transform [loc + scale * z] of a standard normal variate [z]; a scale
    with the sign bit set that is not a NaN is rejected. *)
Definition normal (loc scale z : float) : result lib_exn float :=
  if (negb (is_nan scale) && get_sign scale)%bool then Err ScaleNegative
  else Ok (loc + scale * z)%float.

(** The builtin [sum] of a list of floats: it starts from the integer 0 and
    adds the items from left to right. *)
Definition py_sum (l : list float) : float := fold_left PrimFloat.add l 0%float.

Record LinearGaussianCPD : Type := {
  parent_weights : Dict.t parent_key float;
  intrinsic_mean : float;
  noise_std : float
}.

(** [LinearGaussianCPD.__init__]: three assignments, nothing is checked. *)
Definition new_linear_gaussian (weights : Dict.t parent_key float)
  (mean std : float) : result exn LinearGaussianCPD :=
  Ok {| parent_weights := weights; intrinsic_mean := mean; noise_std := std |}.

(** [self.parent_weights.get(key, 0.0)] *)
Definition weight_of (c : LinearGaussianCPD) (key : parent_key) : float :=
  match Dict.get key (parent_weights c) with
  | Some w => w
  | None => 0%float
  end.

(** [self.parent_weights.get(key, 0.0) * val] *)
Definition weighted_term (c : LinearGaussianCPD) (item : parent_key * value)
  : result lib_exn float :=
  match snd item with
  | VFloat x => Ok (weight_of c (fst item) * x)%float
  | VInt z => (x <- float_of_int z ;; Ok (weight_of c (fst item) * x)%float)%result
  | VTimestamp _ => Err UnsupportedOperand
  end.

Fixpoint weighted_terms (c : LinearGaussianCPD) (items : Dict.t parent_key value)
  : result lib_exn (list float) :=
  match items with
  | [] => Ok []
  | item :: rest =>
      (x <- weighted_term c item ;; xs <- weighted_terms c rest ;; Ok (x :: xs))%result
  end.

(** [LinearGaussianCPD.evaluate] *)
Definition evaluate (c : LinearGaussianCPD) (parent_values : Dict.t parent_key value)
  (z : float) : result lib_exn value :=
  (terms <- weighted_terms c parent_values ;;
   let linear_sum := py_sum (intrinsic_mean c :: terms) in
   r <- normal linear_sum (noise_std c) z ;;
   Ok (VFloat r))%result.

Definition as_cpd (c : LinearGaussianCPD) : CPD := {| cpd_evaluate := evaluate c |}.

(** ** Time features ([time_features.py]) *)

(** [PointOfPeriodicCycle.evaluate], on the integer timesteps of its
    annotation. *)
Definition PointOfPeriodicCycle (periodic_cycle_length : Z) : TimeFeature :=
  {| tf_evaluate := fun timestep =>
       match timestep with
       | VInt t =>
           if periodic_cycle_length =? 0 then Err DivisionByZero
           else Ok (VInt (t mod periodic_cycle_length + 1))
       | _ => Err UnsupportedOperand
       end |}.

(** ** Lists as Python indexes and slices them *)

Definition norm_index (i : Z) (len : nat) : option nat :=
  let j := if i <? 0 then i + Z.of_nat len else i in
  if ((0 <=? j) && (j <? Z.of_nat len))%bool then Some (Z.to_nat j) else None.

(** [l[i]] *)
Definition py_getitem {A} (l : list A) (i : Z) : result exn A :=
  match norm_index i (List.length l) with
  | Some j =>
      match nth_error l j with
      | Some v => Ok v
      | None => Err IndexError
      end
  | None => Err IndexError
  end.

(** [l[i] = v] *)
Definition py_setitem {A} (l : list A) (i : Z) (v : A) : result exn (list A) :=
  match norm_index i (List.length l) with
  | Some j => Ok (firstn j l ++ v :: skipn (S j) l)
  | None => Err IndexError
  end.

Definition slice_bound (k : Z) (len : nat) : nat :=
  Z.to_nat (if k <? 0 then Z.max 0 (k + Z.of_nat len) else Z.min k (Z.of_nat len)).

(** [l[:k]], [l[k:]] and [l[:k] = v] *)
Definition py_slice_to {A} (l : list A) (k : Z) : list A :=
  firstn (slice_bound k (List.length l)) l.

Definition py_slice_from {A} (l : list A) (k : Z) : list A :=
  skipn (slice_bound k (List.length l)) l.

Definition py_slice_assign_to {A} (l : list A) (k : Z) (v : list A) : list A :=
  v ++ skipn (slice_bound k (List.length l)) l.

(** [range(a, b)] *)
Definition py_range (a b : Z) : list Z :=
  map (fun i => a + Z.of_nat i) (seq 0 (Z.to_nat (b - a))).

(** [d[k]] on a dictionary with string keys *)
Definition dict_getitem {V} (k : string) (d : Dict.t string V) : result exn V :=
  match Dict.get k d with
  | Some v => Ok v
  | None => Err (KeyError k)
  end.

(** ** The sequential sampler ([samplers/sequential.py]) *)

(** What a run takes from its surroundings: the Gaussian variates drawn by
    the successive [evaluate] calls, the order in which a set of names is
    iterated (by increasing rank), and pandas' date parsing and
    [date_range] behind [generate_datetime_series]. *)
Record Env : Type := {
  omega : nat -> float;
  set_rank : string -> nat;
  pd_date_range : string -> option string -> Z -> string -> result lib_exn (list Z)
}.

(** [utils.utilities.generate_datetime_series] *)
Definition generate_datetime_series (env : Env) (length_of_series : Z)
  (start_time frequency : string) (start_time_format : option string)
  : result lib_exn (list value) :=
  (stamps <- pd_date_range env start_time start_time_format length_of_series frequency ;;
   Ok (map VTimestamp stamps))%result.

Fixpoint dedup (l : list string) : list string :=
  match l with
  | [] => []
  | x :: r => if memb x r then dedup r else x :: dedup r
  end.

Fixpoint insert_by_rank (rank : string -> nat) (x : string) (l : list string) : list string :=
  match l with
  | [] => [x]
  | y :: l' => if (rank x <=? rank y)%nat then x :: l else y :: insert_by_rank rank x l'
  end.

(** Iteration over [set(l)] *)
Definition set_iter (env : Env) (l : list string) : list string :=
  fold_right (insert_by_rank (set_rank env)) [] (dedup l).

(** [set(a) != set(b)] and [set(a) - set(b)] *)
Definition subsetb (a b : list string) : bool := forallb (fun x => memb x b) a.
Definition same_set (a b : list string) : bool := (subsetb a b && subsetb b a)%bool.
Definition set_minus (a b : list string) : list string :=
  filter (fun x => negb (memb x b)) a.

Record Args : Type := {
  n_steps : Z;
  initial_values : option (Dict.t string (list value));
  replacement_value_for_non_existing_parents : value;
  time_column_name : string;
  start_time : option string;
  frequency : option string;
  start_time_format : option string;
  exclude_temporal_nodes_from_output : bool
}.

(** The defaults of the keyword arguments of [generate]. *)
Definition default_args (n : Z) : Args :=
  {| n_steps := n;
     initial_values := None;
     replacement_value_for_non_existing_parents := VFloat 0%float;
     time_column_name := "Time";
     start_time := None;
     frequency := None;
     start_time_format := None;
     exclude_temporal_nodes_from_output := false |}.

(** The table under construction: column name to column. *)
Definition Table : Type := Dict.t string (list value).

(** [pandas.DataFrame(data=timeseries)] on the default index *)
Record DataFrame : Type := {
  df_columns : Table;
  df_rows : nat
}.

(** The values of a column once pandas has given the list one dtype.
    The inference reads the list from the left.  It converts every integer
    to a double on the way, which fails on an integer too large for one,
    and it stops at the first entry that makes the column one of Python
    objects: a timestamp (a list of timestamps only becomes a datetime
    column afterwards, with the same values), an integer outside the 64-bit
    ranges, or an integer that brings a negative one and one above the int64
    range together.  Of the lists read to the end, one that mixes floats and
    integers becomes a float64 column, each integer converted to the nearest
    double; one of integers only or of floats only keeps its values. *)
Definition is_float (v : value) : bool :=
  match v with VFloat _ => true | _ => false end.

Definition is_int (v : value) : bool :=
  match v with VInt _ => true | _ => false end.

(** The C conversion of an integer to a double: to the nearest, ties to
    even. *)
Definition float64_of_int (z : Z) : float :=
  SF2Prim (binary_normalize prec emax z 0 false).

Definition to_float64 (v : value) : value :=
  match v with
  | VInt z => VFloat (float64_of_int z)
  | _ => v
  end.

(** Whether the list becomes a column of objects; [seen_uint] and
    [seen_sint] record the integers read so far. *)
Fixpoint object_column (col : list value) (seen_uint seen_sint : bool)
  : result lib_exn bool :=
  match col with
  | [] => Ok false
  | VFloat _ :: rest => object_column rest seen_uint seen_sint
  | VInt z :: rest =>
      if is_infinity (float64_of_int z) then Err IntTooLarge
      else
        let seen_uint := (seen_uint || ((2 ^ 63 - 1 <? z) && (z <=? 2 ^ 64 - 1)))%bool in
        let seen_sint := (seen_sint || ((- 2 ^ 63 <=? z) && (z <? 0)))%bool in
        if ((seen_uint && seen_sint) || (2 ^ 64 - 1 <? z) || (z <? - 2 ^ 63))%bool
        then Ok true
        else object_column rest seen_uint seen_sint
  | VTimestamp _ :: _ => Ok true
  end.

Definition column_values (col : list value) : result lib_exn (list value) :=
  (objects <- object_column col false false ;;
   Ok (if (negb objects && existsb is_float col && existsb is_int col)%bool
       then map to_float64 col
       else col))%result.

Fixpoint frame_columns (data : Table) : result lib_exn Table :=
  match data with
  | [] => Ok []
  | (name, col) :: rest =>
      (col' <- column_values col ;;
       rest' <- frame_columns rest ;;
       Ok ((name, col') :: rest'))%result
  end.

(** The lengths are compared before the columns are made. *)
Definition make_dataframe (data : Table) : result lib_exn DataFrame :=
  match data with
  | [] => Ok {| df_columns := []; df_rows := 0 |}
  | (_, col) :: rest =>
      if forallb (fun kc => (List.length (snd kc) =? List.length col)%nat) rest
      then (columns <- frame_columns data ;;
            Ok {| df_columns := columns; df_rows := List.length col |})%result
      else Err ArraysLengthMismatch
  end.

(** [df.loc[: bound]] where [bound] is a list: a label slice of the rows
    whose upper bound is not a label; pandas rejects it. *)
Definition loc_rows_upto (df : DataFrame) (bound : list string) : result lib_exn DataFrame :=
  Err InvalidSliceBound.

(** *** The record of a run

    A run is followed through the list of the samples it has stored, oldest
    first: which node, at which timestep, from which input, with which
    value. *)

Inductive eval_input : Type :=
| FromParents (parent_values : Dict.t parent_key value)
| FromTime (time : value).

Record sample : Type := {
  at_node : string;
  at_timestep : Z;
  input : eval_input;
  output : value
}.

Definition M (A : Type) : Type := list sample -> result exn A * list sample.

Definition ret {A} (a : A) : M A := fun log => (Ok a, log).

Definition bind {A B} (m : M A) (k : A -> M B) : M B :=
  fun log =>
    match m log with
    | (Ok a, log') => k a log'
    | (Err e, log') => (Err e, log')
    end.

Definition lift {A} (r : result exn A) : M A := fun log => (r, log).

Definition store_sample (s : sample) : M unit := fun log => (Ok tt, log ++ [s]).

(** The variate of the next [evaluate] call. *)
Definition draw (env : Env) : M float :=
  fun log => (Ok (omega env (List.length log)), log).

Declare Scope sampler_scope.
Delimit Scope sampler_scope with sampler.
Notation "x <~ c ;; k" := (bind c (fun x => k))
  (at level 61, c at next level, right associativity) : sampler_scope.

(** *** Steps 1 to 3: time axis and initial window *)

Definition fresh_table (d : DBN) (n : Z) : Table :=
  map (fun name => (name, repeat zero_point_zero (Z.to_nat n))) (Dict.keys (nodes d)).

Definition time_axis (env : Env) (a : Args) : result exn (list value) :=
  match start_time a, frequency a with
  | Some _, None => Err (ValueError StartTimeWithoutFrequency)
  | None, Some _ => Err (ValueError FrequencyWithoutStartTime)
  | Some s, Some f =>
      map_err Raised (generate_datetime_series env (n_steps a) s f (start_time_format a))
  | None, None => Ok (map VInt (py_range 0 (n_steps a)))
  end.


(** [node.time_feature.evaluate(time)] *)
Definition call_time_feature (tf : option TimeFeature) (time : value) : result exn value :=
  match tf with
  | None => Err NoneHasNoAttribute
  | Some f => map_err Raised (tf_evaluate f time)
  end.

Fixpoint time_feature_window (tf : option TimeFeature) (times : list value)
  : result exn (list value) :=
  match times with
  | [] => Ok []
  | time :: rest =>
      (v <- call_time_feature tf time ;;
       vs <- time_feature_window tf rest ;;
       Ok (v :: vs))%result
  end.

(** The first loop of the [if initial_values:] block: temporal nodes get
    their window from the first [max_lag] entries of the time column. *)
Fixpoint backfill_temporal (lag : Z) (time_column : string) (ts : Table)
  (all : list Node) (iv : Dict.t string (list value))
  : result exn (Dict.t string (list value)) :=
  match all with
  | [] => Ok iv
  | RegularNode _ _ _ :: rest => backfill_temporal lag time_column ts rest iv
  | TemporalNode name tf :: rest =>
      (col <- dict_getitem time_column ts ;;
       window <- time_feature_window tf (py_slice_to col lag) ;;
       backfill_temporal lag time_column ts rest (Dict.set name window iv))%result
  end.

(** The last loop of the block: check each length, seed the table. *)
Fixpoint seed_table (lag : Z) (iv : Dict.t string (list value))
  (names : list string) (ts : Table) : result exn Table :=
  match names with
  | [] => Ok ts
  | name :: rest =>
      (entry <- dict_getitem name iv ;;
       if negb (Z.of_nat (List.length entry) =? lag)
       then Err (ValueError (UnexpectedLength lag name (Z.of_nat (List.length entry))))
       else
         col <- dict_getitem name ts ;;
         seed_table lag iv rest (Dict.set name (py_slice_assign_to col lag entry) ts))%result
  end.

Definition use_initial_values (env : Env) (d : DBN) (a : Args)
  (iv : Dict.t string (list value)) (ts : Table) : result exn Table :=
  (iv' <- backfill_temporal (max_lag d) (time_column_name a) ts (Dict.values (nodes d)) iv ;;
   let set_of_nodes_in_initial_values := Dict.keys iv' in
   let all_nodes := Dict.keys (nodes d) in
   if negb (same_set all_nodes set_of_nodes_in_initial_values)
   then Err (ValueError (NodesNotProvided
               (set_iter env (set_minus all_nodes set_of_nodes_in_initial_values))))
   else seed_table (max_lag d) iv' (set_iter env all_nodes) ts)%result.

(** *** Step 4: the generation loop *)

Definition lookup_parent (ts : Table) (current_timestep : Z) (replacement : value)
  (pk : parent_key) : result exn value :=
  let lagged_timestep := current_timestep - snd pk in
  if 0 <=? lagged_timestep
  then (col <- dict_getitem (fst pk) ts ;; py_getitem col lagged_timestep)%result
  else Ok replacement.

Fixpoint parentwise_values (ts : Table) (current_timestep : Z) (replacement : value)
  (parents : list parent_key) (acc : Dict.t parent_key value)
  : result exn (Dict.t parent_key value) :=
  match parents with
  | [] => Ok acc
  | pk :: rest =>
      (v <- lookup_parent ts current_timestep replacement pk ;;
       parentwise_values ts current_timestep replacement rest (Dict.set pk v acc))%result
  end.

(** [current_node.cpd.evaluate(parent_values = parentwise_values)] *)
Definition call_cpd (cpd : option CPD) (pv : Dict.t parent_key value) (z : float)
  : result exn value :=
  match cpd with
  | None => Err NoneHasNoAttribute
  | Some c => map_err Raised (cpd_evaluate c pv z)
  end.

(** [timeseries[name][current_timestep] = v] *)
Definition store (ts : Table) (name : string) (current_timestep : Z) (v : value)
  : result exn Table :=
  (col <- dict_getitem name ts ;;
   col' <- py_setitem col current_timestep v ;;
   Ok (Dict.set name col' ts))%result.

(** The body of [for current_node in nodes_in_topological_order] *)
Definition sample_node (env : Env) (replacement : value) (current_time : value)
  (current_timestep : Z) (ts : Table) (n : Node) : M Table :=
  match n with
  | RegularNode name parents cpd =>
      (pv <~ lift (parentwise_values ts current_timestep replacement parents []) ;;
       z <~ draw env ;;
       v <~ lift (call_cpd cpd pv z) ;;
       ts' <~ lift (store ts name current_timestep v) ;;
       _ <~ store_sample {| at_node := name; at_timestep := current_timestep;
                            input := FromParents pv; output := v |} ;;
       ret ts')%sampler
  | TemporalNode name tf =>
      (v <~ lift (call_time_feature tf current_time) ;;
       ts' <~ lift (store ts name current_timestep v) ;;
       _ <~ store_sample {| at_node := name; at_timestep := current_timestep;
                            input := FromTime current_time; output := v |} ;;
       ret ts')%sampler
  end.

Fixpoint sample_timestep (env : Env) (replacement : value) (current_time : value)
  (current_timestep : Z) (order : list Node) (ts : Table) : M Table :=
  match order with
  | [] => ret ts
  | n :: rest =>
      (ts' <~ sample_node env replacement current_time current_timestep ts n ;;
       sample_timestep env replacement current_time current_timestep rest ts')%sampler
  end.

(** The loop over [zip(timeseries[time_column_name][start:], range(start, n_steps))] *)
Fixpoint sample_steps (env : Env) (replacement : value) (order : list Node)
  (steps : list (value * Z)) (ts : Table) : M Table :=
  match steps with
  | [] => ret ts
  | (current_time, current_timestep) :: rest =>
      (ts' <~ sample_timestep env replacement current_time current_timestep order ts ;;
       sample_steps env replacement order rest ts')%sampler
  end.

(** [0 if initial_values is None else self.dbn.max_lag] *)
Definition starting_timestep_for_evaluation (d : DBN) (a : Args) : Z :=
  match initial_values a with
  | None => 0
  | Some _ => max_lag d
  end.

(** *** [Sampler.generate] *)

(** Everything up to the generation loop: the fresh table, the time column,
    the node order, the initial window.  No sample is stored here. *)
Definition prepare (env : Env) (d : DBN) (a : Args) : result exn (list Node * Table) :=
  (let ts0 := fresh_table d (n_steps a) in
   axis <- time_axis env a ;;
   let ts1 := Dict.set (time_column_name a) axis ts0 in
   nodes_in_topological_order <- get_topological_order d ;;
   ts2 <- match initial_values a with
          | Some (item :: items) => use_initial_values env d a (item :: items) ts1
          | _ => Ok ts1
          end ;;
   Ok (nodes_in_topological_order, ts2))%result.

(** The columns kept when temporal nodes are excluded. *)
Definition nodes_in_output_dataframe (order : list Node) : list string :=
  map node_name (filter (fun n => negb (is_temporal n)) order).

Definition generate (env : Env) (d : DBN) (a : Args) : M DataFrame :=
  (prepared <~ lift (prepare env d a) ;;
   let nodes_in_topological_order := fst prepared in
   let start := starting_timestep_for_evaluation d a in
   time_col <~ lift (dict_getitem (time_column_name a) (snd prepared)) ;;
   ts3 <~ sample_steps env (replacement_value_for_non_existing_parents a)
            nodes_in_topological_order
            (combine (py_slice_from time_col start) (py_range start (n_steps a)))
            (snd prepared) ;;
   timeseries_dataset <~ lift (map_err Raised (make_dataframe ts3)) ;;
   if exclude_temporal_nodes_from_output a
   then
     lift (map_err Raised
             (loc_rows_upto timeseries_dataset
                (nodes_in_output_dataframe nodes_in_topological_order
                   ++ [time_column_name a])))
   else ret timeseries_dataset)%sampler.

(** A call of [generate]: the outcome and the samples stored on the way. *)
Definition run_generate (env : Env) (d : DBN) (a : Args)
  : result exn DataFrame * list sample :=
  generate env d a [].

(** The table after the samples of a run have been stored in it, used to
    say which value a cell held when a later sample was computed. *)
Definition apply_sample (ts : Table) (s : sample) : Table :=
  match store ts (at_node s) (at_timestep s) (output s) with
  | Ok ts' => ts'
  | Err _ => ts
  end.

Definition table_after (ts : Table) (log : list sample) : Table :=
  fold_left apply_sample log ts.

(** ** What the specification asks of the network

    The largest lag over the parent pairs of the nodes now in the network,
    0 when there is none. *)
Definition lags_present (d : DBN) : list Z :=
  map snd (flat_map node_parents (Dict.values (nodes d))).

Definition largest_lag_present (d : DBN) : Z := fold_left Z.max (lags_present d) 0.

(** A zero-lag edge of the network: [p] is a lag-0 parent of the node [c]. *)
Definition zero_lag_edge (d : DBN) (p c : string) : Prop :=
  exists n, In n (Dict.values (nodes d)) /\ node_name n = c /\ In (p, 0) (node_parents n).

Definition has_zero_lag_cycle (d : DBN) : Prop :=
  exists v, clos_trans string (zero_lag_edge d) v v.

Definition zero_lag_acyclic (d : DBN) : Prop :=
  forall v, ~ clos_trans string (zero_lag_edge d) v v.

(** [p] comes strictly before [c] in [l]. *)
Definition precedes (l : list string) (p c : string) : Prop :=
  exists l1 l2 l3, l = l1 ++ p :: l2 ++ c :: l3.

(** The representation invariant of [self.nodes]: keys are unique and each
    node is stored under its own name. *)
Definition dbn_wf (d : DBN) : Prop :=
  NoDup (Dict.keys (nodes d)) /\
  forall k n, In (k, n) (nodes d) -> node_name n = k.

(** The names and zero-lag parents of the nodes: all that the ordering reads. *)
Definition zero_lag_view (d : DBN) : list (string * list string) :=
  map (fun n => (node_name n,
                 map fst (filter (fun pl => snd pl =? 0) (node_parents n))))
      (Dict.values (nodes d)).

Definition ordered_names (r : result exn (list Node)) : result exn (list string) :=
  match r with
  | Ok order => Ok (map node_name order)
  | Err e => Err e
  end.

(** ** Predicates used in the statements and proofs *)

(** Errors that are none of the four argument errors. *)
Definition plain (e : exn) : Prop := is_argument_error e = false.

Definition raises_only {A} (P : exn -> Prop) (r : result exn A) : Prop :=
  forall e, r = Err e -> P e.

Definition mraises_only {A} (P : exn -> Prop) (m : M A) : Prop :=
  forall log e log', m log = (Err e, log') -> P e.

(** What networkx raises in the model. *)
Definition nx_exn (e : exn) : Prop :=
  e = RuntimeError \/ e = OutOfFuel \/
  e = Raised (OtherException "NetworkXUnfeasible").


(** Two floats that Python's [==] cannot tell apart, or the same NaN: equal,
    or both zeros (of either sign). *)
Definition same_number (x y : float) : Prop :=
  x = y \/ (is_zero x = true /\ is_zero y = true).

Definition sf_same (M X : spec_float) : Prop :=
  X = M \/ exists s s', M = S754_zero s /\ X = S754_zero s'.

(** The float that the product of a weight and [v] is computed on: [v]
    itself, or the conversion of an integer, which Python refuses when the
    integer is too large. *)
Definition as_float (v : value) : result lib_exn float :=
  match v with
  | VFloat x => Ok x
  | VInt z => float_of_int z
  | VTimestamp _ => Err UnsupportedOperand
  end.

(** A finite float, or an integer that converts to one. *)
Definition finite_number (v : value) : Prop :=
  exists x, as_float v = Ok x /\ is_finite x = true.

(** [s] is the sample that node [n] yields at timestep [t] (time-axis entry
    [time]) from the table [ts], as the [k]-th sample of the run. *)
Definition yields (env : Env) (replacement : value) (ts : Table) (k : nat)
  (time : value) (t : Z) (n : Node) (s : sample) : Prop :=
  at_node s = node_name n /\ at_timestep s = t /\
  (exists ts', store ts (node_name n) t (output s) = Ok ts') /\
  match n with
  | RegularNode _ parents cpd =>
      exists pv, input s = FromParents pv /\
                 parentwise_values ts t replacement parents [] = Ok pv /\
                 call_cpd cpd pv (omega env k) = Ok (output s)
  | TemporalNode _ tf =>
      input s = FromTime time /\ call_time_feature tf time = Ok (output s)
  end.

(** Every element of a list satisfies [P] relative to the elements before it. *)
Definition each_after {A} (P : list A -> A -> Prop) (l : list A) : Prop :=
  forall l1 s l2, l = l1 ++ s :: l2 -> P l1 s.

(** The rows below [k] of the columns of [ts] are found unchanged in [ts']. *)
Definition rows_kept (k : Z) (ts ts' : Table) : Prop :=
  forall name col, Dict.get name ts = Some col ->
    exists col', Dict.get name ts' = Some col' /\
                 forall i, Z.of_nat i < k -> nth_error col' i = nth_error col i.

(** The steps of the loop of [generate] from the prepared table. *)
Definition loop_steps (d : DBN) (a : Args) (time_col : list value) : list (value * Z) :=
  combine (py_slice_from time_col (starting_timestep_for_evaluation d a))
          (py_range (starting_timestep_for_evaluation d a) (n_steps a)).

(** *** The invariant of the topological sort

    [D] lists the edges relaxed so far, [out] the vertices whose in-degree has
    reached zero, in the order in which they will come out. *)

(** The edges into [v] that have not been relaxed. *)
Definition remaining (E D : list (string * string)) (v : string) : list (string * string) :=
  filter (fun e => keyb (snd e) v && negb (memb e D))%bool E.

(** Every vertex of [out] comes after the sources of its incoming edges. *)
Definition ordered_by (E : list (string * string)) (out : list string) : Prop :=
  forall l1 v l2, out = l1 ++ v :: l2 -> forall u, In (u, v) E -> In u l1.

Record graph_wf (G : nx.DiGraph) : Prop := {
  wf_vertices : NoDup (nx.vertices G);
  wf_edges : NoDup (nx.edges G);
  wf_endpoints : forall u v, In (u, v) (nx.edges G) ->
                             In u (nx.vertices G) /\ In v (nx.vertices G)
}.

Record kahn_inv (G : nx.DiGraph) (D : list (string * string)) (out : list string)
  (m : Dict.t string Z) : Prop := {
  inv_Z_nodup : NoDup out;
  inv_m_nodup : NoDup (Dict.keys m);
  inv_cover : forall v, In v (nx.vertices G) <-> In v out \/ In v (Dict.keys m);
  inv_disjoint : forall v, In v out -> ~ In v (Dict.keys m);
  inv_relaxed : incl D (nx.edges G);
  inv_degree : forall v dg, Dict.get v m = Some dg ->
                 dg = Z.of_nat (List.length (remaining (nx.edges G) D v)) /\ 0 < dg;
  inv_done : forall v, In v out -> remaining (nx.edges G) D v = [];
  inv_sources : forall u v, In (u, v) D -> In u out;
  inv_order : ordered_by (nx.edges G) out
}.

Arguments inv_Z_nodup {G D out m} _.
Arguments inv_m_nodup {G D out m} _.
Arguments inv_cover {G D out m} _ v.
Arguments inv_disjoint {G D out m} _ v _ _.
Arguments inv_relaxed {G D out m} _.
Arguments inv_degree {G D out m} _ v dg _.
Arguments inv_done {G D out m} _ v _.
Arguments inv_sources {G D out m} _ u v _.
Arguments inv_order {G D out m} _.
Arguments wf_vertices {G} _.
Arguments wf_edges {G} _.
Arguments wf_endpoints {G} _ u v _.

(** [P] lists the vertices already processed: exactly their outgoing edges
    have been relaxed; [Q] is the queue. *)
Record kahn_outer (G : nx.DiGraph) (P Q : list string) (D : list (string * string))
  (m : Dict.t string Z) : Prop := {
  out_inv : kahn_inv G D (P ++ Q) m;
  out_sources : forall u v, In (u, v) D -> In u P;
  out_processed : forall u v, In (u, v) (nx.edges G) -> In u P -> In (u, v) D
}.

Arguments out_inv {G P Q D m} _.
Arguments out_sources {G P Q D m} _ u v _.
Arguments out_processed {G P Q D m} _ u v _ _.

(** A non-empty set of vertices in which every vertex has a predecessor. *)
Definition stuck (E : list (string * string)) (S : list string) : Prop :=
  S <> [] /\ forall v, In v S -> exists u, In u S /\ In (u, v) E.

Definition unfeasible : exn := Raised (OtherException "NetworkXUnfeasible").

(** The graph that the ordering builds, from the view of the network. *)
Definition view_graph (view : list (string * list string)) : nx.DiGraph :=
  fold_left
    (fun G item => fold_left (fun G p => nx.add_edge p (fst item) G) (snd item) G)
    view
    (fold_left (fun G name => nx.add_node name G) (map fst view) nx.empty).

(** The outcome of looking up [names] among the [known] ones, in order. *)
Fixpoint check_known (known names : list string) : result exn (list string) :=
  match names with
  | [] => Ok []
  | x :: r =>
      if memb x known
      then (rest <- check_known known r ;; Ok (x :: rest))%result
      else Err (KeyError x)
  end.

(** The names that the ordering returns, computed from the view alone. *)
Definition order_of_view (view : list (string * list string)) : result exn (list string) :=
  match nx.topological_sort (view_graph view) with
  | Ok names => check_known (map fst view) names
  | Err e => if is_unfeasible e then Err (ValueError CycleDetected) else Err e
  end.

(** *** The schedule of the generation loop *)

Definition key_of (s : sample) : string * Z := (at_node s, at_timestep s).

(** The cells in the order in which the loop fills them. *)
Definition schedule (order : list Node) (steps : list (value * Z)) : list (string * Z) :=
  flat_map (fun st => map (fun n => (node_name n, snd st)) order) steps.

(** [ts] counts up from [start]. *)
Fixpoint from_start (start : Z) (ts : list Z) : Prop :=
  match ts with
  | [] => True
  | t :: r => t = start /\ from_start (start + 1) r
  end.

(** The entry of the table at a column and a non-negative row. *)
Definition cell (ts : Table) (name : string) (t : Z) : option value :=
  match Dict.get name ts with
  | Some col => nth_error col (Z.to_nat t)
  | None => None
  end.


(** ** Concrete distributions, networks and calls *)

Module Ex.

(** An environment: every variate is 0.5, names iterate by length, and the
    date range of [n] periods is the stamps 0 .. n-1. *)
Definition env : Env :=
  {| omega := fun _ => 0.5%float;
     set_rank := fun name => String.length name;
     pd_date_range := fun _ _ n _ => Ok (py_range 0 n) |}.

(** Empty weights, intercept 5, no noise. *)
Definition intercept_only : LinearGaussianCPD :=
  {| parent_weights := []; intrinsic_mean := 5%float; noise_std := 0%float |}.

(** The same with noise standard deviation -1. *)
Definition negative_noise : LinearGaussianCPD :=
  {| parent_weights := []; intrinsic_mean := 5%float; noise_std := (-1)%float |}.

Definition half_of_x : LinearGaussianCPD :=
  {| parent_weights := [(("X", 0), 0.5%float)];
     intrinsic_mean := 1%float; noise_std := 0%float |}.

(** Root [A] (intercept 5) and [B] = 1 + 0.5 * A at lag 1, no noise. *)
Definition node_a : Node := RegularNode "A" [] (Some (as_cpd intercept_only)).

Definition node_b : Node :=
  RegularNode "B" [("A", 1)]
    (Some (as_cpd {| parent_weights := [(("A", 1), 0.5%float)];
                     intrinsic_mean := 1%float; noise_std := 0%float |})).

Definition chain : DBN := dbn_of [node_a; node_b].

(** [A] added with a lag-5 parent, then a node of the same name without
    parents. *)
Definition lagged_a : Node := add_parent "X" 5 (new_node "A").
Definition bare_a : Node := new_node "A".
Definition overwritten : DBN := dbn_of [lagged_a; bare_a].

(** [B] names a zero-lag parent that was never added. *)
Definition dangling : DBN := dbn_of [add_parent "A" 0 (new_node "B")].

(** [A] and [B] are zero-lag parents of each other, and [B] also names the
    absent [C]. *)
Definition broken : DBN :=
  dbn_of [add_parent "B" 0 (new_node "A");
          add_parent "C" 0 (add_parent "A" 0 (new_node "B"))].

(** A temporal node [T] (position in a cycle of 7) feeding [Z] at lag 0. *)
Definition node_t : Node := TemporalNode "T" (Some (PointOfPeriodicCycle 7)).

Definition node_z : Node :=
  RegularNode "Z" [("T", 0)]
    (Some (as_cpd {| parent_weights := [(("T", 0), 0.5%float)];
                     intrinsic_mean := 0%float; noise_std := 0%float |})).

Definition seasonal : DBN := dbn_of [node_z; node_t].

(** A node named like the default time column, with itself as lag-2 parent. *)
Definition node_time : Node :=
  RegularNode "Time" [("Time", 2)] (Some (as_cpd intercept_only)).

Definition clash : DBN := dbn_of [node_time].

Definition with_initial_values (iv : Dict.t string (list value)) (a : Args) : Args :=
  {| n_steps := n_steps a;
     initial_values := Some iv;
     replacement_value_for_non_existing_parents := replacement_value_for_non_existing_parents a;
     time_column_name := time_column_name a;
     start_time := start_time a;
     frequency := frequency a;
     start_time_format := start_time_format a;
     exclude_temporal_nodes_from_output := exclude_temporal_nodes_from_output a |}.



Definition excluding_temporal_nodes (a : Args) : Args :=
  {| n_steps := n_steps a;
     initial_values := initial_values a;
     replacement_value_for_non_existing_parents := replacement_value_for_non_existing_parents a;
     time_column_name := time_column_name a;
     start_time := start_time a;
     frequency := frequency a;
     start_time_format := start_time_format a;
     exclude_temporal_nodes_from_output := true |}.

End Ex.

Module ExRuns.

(** The run of three steps of [Ex.chain] without initial values, and its
    fourth sample: [B] at timestep 1, computed from [A] at timestep 0. *)
Definition chain_run : result exn DataFrame * list sample :=
  run_generate Ex.env Ex.chain (default_args 3).

Definition b_at_1 : sample :=
  {| at_node := "B"; at_timestep := 1;
     input := FromParents [(("A", 1), VFloat 5%float)];
     output := VFloat 3.5%float |}.

(** Three steps of [Ex.chain] and of [Ex.clash] with the empty mapping as
    initial values. *)
Definition empty_initial_values (n : Z) : Args :=
  Ex.with_initial_values [] (default_args n).

End ExRuns.

Module ExWindow.

(** [Z] reads the temporal node [T] at lag 0 and itself at lag 1. *)
Definition node_z : Node :=
  RegularNode "Z" [("T", 0); ("Z", 1)]
    (Some (as_cpd {| parent_weights := [(("T", 0), 0.5%float); (("Z", 1), 0.5%float)];
                     intrinsic_mean := 0%float; noise_std := 0%float |})).

Definition net : DBN := dbn_of [node_z; Ex.node_t].

(** An entry of two values for [Z], where [max_lag] is 1. *)
Definition too_long : Args :=
  Ex.with_initial_values [("Z", [VFloat 1%float; VFloat 2%float])] (default_args 3).

(** A good entry for [Z], and three values supplied for the temporal [T]. *)
Definition temporal_supplied : Args :=
  Ex.with_initial_values
    [("Z", [VFloat 1%float]); ("T", [VFloat 9%float; VFloat 9%float; VFloat 9%float])]
    (default_args 3).

(** On [Ex.chain] ([max_lag] 1): two values for [A], nothing for [B]. *)
Definition long_a_without_b : Args :=
  Ex.with_initial_values [("A", [VFloat 1%float; VFloat 2%float])] (default_args 3).

(** An entry for an unknown name only. *)
Definition without_z : Args :=
  Ex.with_initial_values [("Q", [VFloat 1%float])] (default_args 3).

End ExWindow.

Module ExSpec.

(** The scenario of the specification: root [A] (intercept 5, no noise) and
    [B] with parent [A] at lag 1, weight 0.8 (the double nearest to it),
    intercept 1, no noise; three steps from [A = 10.0], [B = 5.0]. *)
Definition node_b : Node :=
  RegularNode "B" [("A", 1)]
    (Some (as_cpd {| parent_weights := [(("A", 1), 0x1.999999999999ap-1%float)];
                     intrinsic_mean := 1%float; noise_std := 0%float |})).

Definition net : DBN := dbn_of [Ex.node_a; node_b].

Definition seeded : Args :=
  Ex.with_initial_values [("A", [VFloat 10%float]); ("B", [VFloat 5%float])]
    (default_args 3).

(** [C] reads [A] two steps back. *)
Definition node_c : Node :=
  RegularNode "C" [("A", 2)]
    (Some (as_cpd {| parent_weights := [(("A", 2), 1%float)];
                     intrinsic_mean := 0%float; noise_std := 0%float |})).

Definition two_back : DBN := dbn_of [Ex.node_a; node_c].

End ExSpec.

(** ** Further code of the package *)

(** *** The calendar features ([evaluator/time_features.py])

    [DayOfWeek], [DayOfMonth] and [MonthOfYear] return [time.isoweekday()],
    [time.day] and [time.month]: fields that a timestamp has and that the
    integers of the default time axis, and floats, have not.  The calendar
    is the library's and is left open here. *)
Record Calendar : Type := {
  isoweekday : Z -> Z;
  day : Z -> Z;
  month : Z -> Z
}.

Definition datetime_field (field : Z -> Z) : TimeFeature :=
  {| tf_evaluate := fun time =>
       match time with
       | VTimestamp ns => Ok (VInt (field ns))
       | VInt _ => Err NoSuchAttribute
       | VFloat _ => Err NoSuchAttribute
       end |}.

Definition DayOfWeek (cal : Calendar) : TimeFeature := datetime_field (isoweekday cal).
Definition DayOfMonth (cal : Calendar) : TimeFeature := datetime_field (day cal).
Definition MonthOfYear (cal : Calendar) : TimeFeature := datetime_field (month cal).

(** *** The curvature of an edge in [DBN.plot_network] *)





(** *** The layout of [DBN.plot_network] *)

From Stdlib Require DecimalString.

(** [f"{name}({time})"] *)
Definition node_copy (name : string) (time : Z) : string :=
  name ++ "(" ++ DecimalString.NilZero.string_of_int (Z.to_int time) ++ ")".

(** The inner loop over [self.nodes.values()] for one time slice: the copy
    of the node at position [index] of the dictionary goes to
    [(time, index)]. *)
Fixpoint place_slice (time index : Z) (row : list Node)
  (node_positions : Dict.t string (Z * Z)) : Dict.t string (Z * Z) :=
  match row with
  | [] => node_positions
  | node :: rest =>
      place_slice time (index + 1) rest
        (Dict.set (node_copy (node_name node) time) (time, index) node_positions)
  end.

(** [for time in range(self.max_lag + 1): ...] *)
Definition node_positions (d : DBN) : Dict.t string (Z * Z) :=
  fold_left (fun pos time => place_slice time 0 (Dict.values (nodes d)) pos)
            (py_range 0 (max_lag d + 1)) [].

(** The edges of one (parent, lag) pair of the node [child], one per time
    slice in which the parent copy is not before slice 0. *)
Definition edges_of_pair (d : DBN) (child : string) (pl : string * Z)
  : list (string * string) :=
  flat_map
    (fun time =>
       if 0 <=? time - snd pl
       then [(node_copy (fst pl) (time - snd pl), node_copy child time)]
       else [])
    (py_range 0 (max_lag d + 1)).

Definition plot_edges (d : DBN) : list (string * string) :=
  flat_map (fun node => flat_map (edges_of_pair d (node_name node)) (node_parents node))
           (Dict.values (nodes d)).

(** The lookups [node_positions[u]], [node_positions[v]] of the loop that
    draws the edges. *)
Fixpoint edge_coordinates (pos : Dict.t string (Z * Z)) (edges : list (string * string))
  : result exn (list ((Z * Z) * (Z * Z))) :=
  match edges with
  | [] => Ok []
  | (u, v) :: rest =>
      (from <- dict_getitem u pos ;;
       to <- dict_getitem v pos ;;
       others <- edge_coordinates pos rest ;;
       Ok ((from, to) :: others))%result
  end.

(** *** A parent added to a node that is already in the network

    [add_node] stores the node object itself, so that [node.add_parent]
    called afterwards on the node stored under [name] shows in the
    network; [add_node] is not run again and [max_lag] stays as it was. *)
Definition add_parent_in_place (name parent_name : string) (lag : Z) (d : DBN) : DBN :=
  match Dict.get name (nodes d) with
  | Some n =>
      {| nodes := Dict.set name (add_parent parent_name lag n) (nodes d);
         max_lag := max_lag d |}
  | None => d
  end.

(** *** The stacked plots ([plotting/timeseries_plots.py]) *)

Inductive plot_exn : Type :=
| TimeColumnNotFound (time_column : string)  (* the ValueError of the function *)
| NoSubplotRows.                             (* matplotlib: the number of rows must be positive *)

(** What a subplot shows: its label and the two series drawn. *)
Record panel : Type := {
  ylabel : string;
  xdata : list value;
  ydata : list value
}.

Definition variable_columns (df : DataFrame) (time_column : string) : list string :=
  filter (fun col => negb (String.eqb col time_column)) (Dict.keys (df_columns df)).

(** [df[var]] for a column that is there. *)
Definition column (df : DataFrame) (var : string) : list value :=
  match Dict.get var (df_columns df) with
  | Some col => col
  | None => []
  end.

(** [plot_timeseries_stacked], as the panels of the figure it returns. *)
Definition plot_timeseries_stacked (df : DataFrame) (time_column : string)
  : result plot_exn (list panel) :=
  if negb (Dict.mem time_column (df_columns df))
  then Err (TimeColumnNotFound time_column)
  else
    match variable_columns df time_column with
    | [] => Err NoSubplotRows
    | var :: vars =>
        Ok (map (fun v => {| ylabel := v;
                             xdata := column df time_column;
                             ydata := column df v |})
                (var :: vars))
    end.

(** *** Concrete inputs *)

Module ExMore.

(** [Ex.half_of_x] with a weight for a parent that is never supplied. *)
Definition half_of_x_and_more : LinearGaussianCPD :=
  {| parent_weights := [(("X", 0), 0.5%float); (("Y", 1), 2%float)];
     intrinsic_mean := 1%float; noise_std := 0%float |}.

Definition x_is_two : Dict.t parent_key value := [(("X", 0), VFloat 2%float)].

(** The table and the record of the run [ExRuns.chain_run]. *)
Definition chain_frame : DataFrame :=
  Eval vm_compute in
    match fst ExRuns.chain_run with
    | Ok df => df
    | Err _ => {| df_columns := []; df_rows := 0 |}
    end.

Definition chain_log : list sample := Eval vm_compute in snd ExRuns.chain_run.

(** The run of [ExSpec.net] seeded with [A = 10.0] and [B = 5.0]. *)
Definition seeded_frame : DataFrame :=
  Eval vm_compute in
    match fst (run_generate Ex.env ExSpec.net ExSpec.seeded) with
    | Ok df => df
    | Err _ => {| df_columns := []; df_rows := 0 |}
    end.

Definition seeded_log : list sample :=
  Eval vm_compute in snd (run_generate Ex.env ExSpec.net ExSpec.seeded).




(** [Ex.chain] with the empty mapping as initial values and -1.5 in
    place of values before the start of the series. *)
Definition unseeded : Args :=
  {| n_steps := 3;
     initial_values := Some [];
     replacement_value_for_non_existing_parents := VFloat (-1.5)%float;
     time_column_name := "Time";
     start_time := None;
     frequency := None;
     start_time_format := None;
     exclude_temporal_nodes_from_output := false |}.

Definition unseeded_log : list sample :=
  Eval vm_compute in snd (run_generate Ex.env Ex.chain unseeded).

(** [B] at timestep 1 of that run, computed from row 0 of [A]. *)
Definition unseeded_b_at_1 : sample :=
  {| at_node := "B"; at_timestep := 1;
     input := FromParents [(("A", 1), VFloat 0%float)];
     output := VFloat 1%float |}.

(** [B] at timesteps 1 and 2 of the run of [seeded_log]: the first reads
    the initial value of [A], the second the sample of [A] at timestep 1. *)
Definition seeded_b_at_1 : sample :=
  {| at_node := "B"; at_timestep := 1;
     input := FromParents [(("A", 1), VFloat 10%float)];
     output := VFloat 9%float |}.

Definition seeded_b_at_2 : sample :=
  {| at_node := "B"; at_timestep := 2;
     input := FromParents [(("A", 1), VFloat 5%float)];
     output := VFloat 5%float |}.


(** The record of three steps of [Ex.seasonal], and its first sample. *)
Definition seasonal_log : list sample :=
  Eval vm_compute in snd (run_generate Ex.env Ex.seasonal (default_args 3)).

Definition t_at_0 : sample :=
  {| at_node := "T"; at_timestep := 0; input := FromTime (VInt 0); output := VInt 1 |}.

(** A node whose distribution was never set. *)
Definition unset : DBN := dbn_of [new_node "A"].

(** A calendar that knows the weekday only (the epoch was a Thursday), and
    a temporal node that reads it. *)
Definition weekdays : Calendar :=
  {| isoweekday := fun ns => (ns / 86400000000000 + 3) mod 7 + 1;
     day := fun _ => 1;
     month := fun _ => 1 |}.

Definition by_weekday : DBN :=
  dbn_of [TemporalNode "D" (Some (DayOfWeek weekdays))].

(** A node that reads its own value one step ahead. *)
Definition ahead : DBN :=
  dbn_of [RegularNode "A" [("A", -1)] (Some (as_cpd Ex.intercept_only))].

(** [n] steps of [Ex.chain], whose [max_lag] is 1, from initial values. *)
Definition seeded_chain (n : Z) : Args :=
  Ex.with_initial_values [("A", [VFloat 1%float]); ("B", [VFloat 2%float])]
    (default_args n).

(** [Ex.env] with another iteration order of sets, in which [A] comes
    last. *)
Definition other_set_order : Env :=
  {| omega := omega Ex.env;
     set_rank := fun name => if String.eqb name "A" then 1%nat else 0%nat;
     pd_date_range := pd_date_range Ex.env |}.

(** A table with the column [A], and a parent list that names the pair
    [("A", 1)] twice. *)
Definition column_a : Table := [("A", [VFloat 1%float; VFloat 2%float])].

Definition twice_a : list parent_key := [("A", 1); ("A", 1)].

(** [Ex.node_a] is added as it is and is given the parent [("B", 4)]
    afterwards. *)
Definition late_parent : DBN := add_parent_in_place "A" "B" 4 Ex.chain.

End ExMore.

(** *** The cells that a run fills *)

(** The cells (column, row) in the order of the generation loop: timestep
    by timestep, within a timestep the nodes in their order. *)
Definition cells (order : list Node) (timesteps : list Z) : list (string * Z) :=
  flat_map (fun t => map (fun n => (node_name n, t)) order) timesteps.

(** The time axis has one entry per step: the integer axis has, and so has
    [pandas.date_range] called with [periods = n_steps]. *)
Definition axis_has_n_steps (env : Env) (a : Args) : Prop :=
  forall axis, time_axis env a = Ok axis -> List.length axis = Z.to_nat (n_steps a).

(** * Properties *)

(** ** Keys, membership, dictionaries *)

Class EqKeyLaw (K : Type) `{EqKey K} : Prop := {
  keyb_eq : forall a b : K, keyb a b = true <-> a = b
}.


#[export] Instance string_EqKeyLaw : EqKeyLaw string.
Proof. constructor. exact String.eqb_eq. Qed.

#[export] Instance Z_EqKeyLaw : EqKeyLaw Z.
Proof. constructor. exact Z.eqb_eq. Qed.

#[export] Instance pair_EqKeyLaw {A B} `{EqKeyLaw A} `{EqKeyLaw B} : EqKeyLaw (A * B).
Proof.
  constructor. intros [a1 a2] [b1 b2]. simpl.
  rewrite andb_true_iff, !keyb_eq. split.
  - intros [-> ->]; reflexivity.
  - intros [= -> ->]; auto.
Qed.

Section KeyFacts.
Context {K : Type} `{EqKeyLaw K}.

Lemma keyb_refl (a : K) : keyb a a = true.
Proof. apply keyb_eq; reflexivity. Qed.

Lemma keyb_neq (a b : K) : keyb a b = false <-> a <> b.
Proof.
  split.
  - intros E ->. rewrite keyb_refl in E. discriminate.
  - intros N. destruct (keyb a b) eqn:E; [|reflexivity].
    apply keyb_eq in E. contradiction.
Qed.

Lemma keyb_sym (a b : K) : keyb a b = keyb b a.
Proof.
  destruct (keyb a b) eqn:E.
  - apply keyb_eq in E. subst. symmetry. apply keyb_refl.
  - symmetry. apply keyb_neq. apply keyb_neq in E. congruence.
Qed.

Lemma key_eq_dec (a b : K) : {a = b} + {a <> b}.
Proof.
  destruct (keyb a b) eqn:E.
  - left. apply keyb_eq. exact E.
  - right. apply keyb_neq. exact E.
Qed.

Lemma memb_In (k : K) l : memb k l = true <-> In k l.
Proof.
  unfold memb. rewrite existsb_exists. split.
  - intros [x [Hx E]]. apply keyb_eq in E. subst. exact Hx.
  - intros Hk. exists k. split; [exact Hk | apply keyb_refl].
Qed.

Lemma memb_not_In (k : K) l : memb k l = false <-> ~ In k l.
Proof.
  rewrite <- memb_In. destruct (memb k l); split; intros; congruence.
Qed.

Context {V : Type}.
Implicit Types d : Dict.t K V.

Lemma get_In d k v : Dict.get k d = Some v -> In (k, v) d.
Proof.
  induction d as [|[k' v'] d IH]; simpl; [discriminate|].
  destruct (keyb k k') eqn:E.
  - intros [= ->]. apply keyb_eq in E. subst. left; reflexivity.
  - intros Hg. right. auto.
Qed.

Lemma get_Some_keys d k v : Dict.get k d = Some v -> In k (Dict.keys d).
Proof.
  intros Hg. apply get_In in Hg. apply (in_map fst) in Hg. exact Hg.
Qed.

Lemma get_None_keys d k : Dict.get k d = None <-> ~ In k (Dict.keys d).
Proof.
  induction d as [|[k' v'] d IH]; simpl.
  - tauto.
  - destruct (keyb k k') eqn:E.
    + apply keyb_eq in E. subst. split; [discriminate | intros N; exfalso; auto].
    + apply keyb_neq in E. rewrite IH. split; [intros N [C|C]; auto | tauto].
Qed.

Lemma keys_get d k : In k (Dict.keys d) -> exists v, Dict.get k d = Some v.
Proof.
  intros Hk. destruct (Dict.get k d) eqn:E; [eauto|].
  apply get_None_keys in E. contradiction.
Qed.

Lemma In_get_nodup d k v :
  NoDup (Dict.keys d) -> In (k, v) d -> Dict.get k d = Some v.
Proof.
  induction d as [|[k' v'] d IH]; simpl; [tauto|].
  intros ND [E|Hin].
  - inversion E; subst. rewrite keyb_refl. reflexivity.
  - inversion ND as [|? ? Hn ND']; subst.
    destruct (keyb k k') eqn:E.
    + apply keyb_eq in E. subst. exfalso. apply Hn.
      apply (in_map fst) in Hin. exact Hin.
    + auto.
Qed.

Lemma get_set_same d k v : Dict.get k (Dict.set k v d) = Some v.
Proof.
  induction d as [|[k' v'] d IH]; simpl.
  - rewrite keyb_refl. reflexivity.
  - destruct (keyb k k') eqn:E; simpl; rewrite E; auto.
Qed.

Lemma get_set_other d k k' v : k' <> k -> Dict.get k' (Dict.set k v d) = Dict.get k' d.
Proof.
  intros N. induction d as [|[k0 v0] d IH]; simpl.
  - apply keyb_neq in N. rewrite N. reflexivity.
  - destruct (keyb k k0) eqn:E; simpl.
    + apply keyb_eq in E. subst. apply keyb_neq in N. rewrite N. reflexivity.
    + destruct (keyb k' k0); auto.
Qed.

Lemma keys_set_In d k v k' :
  In k' (Dict.keys (Dict.set k v d)) <-> k' = k \/ In k' (Dict.keys d).
Proof.
  induction d as [|[k0 v0] d IH]; simpl.
  - intuition congruence.
  - destruct (keyb k k0) eqn:E; simpl.
    + apply keyb_eq in E. subst. intuition congruence.
    + rewrite IH. intuition congruence.
Qed.

Lemma keys_set_present d k v :
  In k (Dict.keys d) -> Dict.keys (Dict.set k v d) = Dict.keys d.
Proof.
  induction d as [|[k0 v0] d IH]; simpl; [tauto|].
  intros Hk. destruct (keyb k k0) eqn:E; simpl; [reflexivity|].
  f_equal. apply IH. destruct Hk as [<-|Hk]; [|exact Hk].
  rewrite keyb_refl in E. discriminate.
Qed.

Lemma keys_set_absent d k v :
  ~ In k (Dict.keys d) -> Dict.keys (Dict.set k v d) = Dict.keys d ++ [k].
Proof.
  induction d as [|[k0 v0] d IH]; simpl; [reflexivity|].
  intros Hk. destruct (keyb k k0) eqn:E; simpl.
  - apply keyb_eq in E. subst. exfalso; auto.
  - f_equal. apply IH. auto.
Qed.

Lemma keys_set_nodup d k v : NoDup (Dict.keys d) -> NoDup (Dict.keys (Dict.set k v d)).
Proof.
  intros ND. destruct (in_dec key_eq_dec k (Dict.keys d)) as [Hk|Hk].
  - rewrite keys_set_present by exact Hk. exact ND.
  - rewrite keys_set_absent by exact Hk.
    apply NoDup_app; [exact ND | repeat constructor; simpl; tauto |].
    intros x Hx [<-|[]]. contradiction.
Qed.

Lemma keys_del_In d k k' :
  NoDup (Dict.keys d) ->
  (In k' (Dict.keys (Dict.del k d)) <-> k' <> k /\ In k' (Dict.keys d)).
Proof.
  induction d as [|[k0 v0] d IH]; simpl; [tauto|].
  intros ND. inversion ND as [|? ? Hn ND']; subst.
  destruct (keyb k k0) eqn:E; simpl.
  - apply keyb_eq in E. subst. split.
    + intros Hin. split; [intros ->; contradiction | auto].
    + intros [N [C|C]]; [congruence | exact C].
  - apply keyb_neq in E. rewrite IH by exact ND'. split.
    + intros [<-|[N Hin]]; [split; auto | split; auto].
    + intros [N [C|C]]; auto.
Qed.

Lemma keys_del_nodup d k : NoDup (Dict.keys d) -> NoDup (Dict.keys (Dict.del k d)).
Proof.
  induction d as [|[k0 v0] d IH]; simpl; [auto|].
  intros ND. inversion ND as [|? ? Hn ND']; subst.
  destruct (keyb k k0) eqn:E; simpl; [exact ND'|].
  constructor; [|auto].
  intros C. apply keys_del_In in C; [|exact ND']. tauto.
Qed.

Lemma get_del_other d k k' : k' <> k -> Dict.get k' (Dict.del k d) = Dict.get k' d.
Proof.
  intros N. induction d as [|[k0 v0] d IH]; simpl; [reflexivity|].
  destruct (keyb k k0) eqn:E; simpl.
  - apply keyb_eq in E. subst. apply keyb_neq in N. rewrite N. reflexivity.
  - destruct (keyb k' k0); auto.
Qed.

Lemma length_del d k :
  In k (Dict.keys d) -> S (List.length (Dict.del k d)) = List.length d.
Proof.
  induction d as [|[k0 v0] d IH]; simpl; [tauto|].
  intros Hk. destruct (keyb k k0) eqn:E; simpl; [reflexivity|].
  f_equal. apply IH. destruct Hk as [<-|Hk]; [|exact Hk].
  rewrite keyb_refl in E. discriminate.
Qed.

Lemma length_set_present d k v :
  In k (Dict.keys d) -> List.length (Dict.set k v d) = List.length d.
Proof.
  intros Hk. pose proof (keys_set_present d k v Hk) as E.
  apply (f_equal (@List.length K)) in E.
  unfold Dict.keys in E. rewrite !length_map in E. exact E.
Qed.
End KeyFacts.

(** ** Results and the sampler monad *)

Lemma rbind_Ok {E A B} (r : result E A) (k : A -> result E B) b :
  rbind r k = Ok b -> exists a, r = Ok a /\ k a = Ok b.
Proof. destruct r; simpl; [eauto | discriminate]. Qed.

Lemma rbind_Err {E A B} (r : result E A) (k : A -> result E B) e :
  rbind r k = Err e -> r = Err e \/ exists a, r = Ok a /\ k a = Err e.
Proof. destruct r; simpl; [eauto | intros [= ->]; auto]. Qed.

Lemma bind_inv {A B} (m : M A) (k : A -> M B) log r log' :
  bind m k log = (r, log') ->
  (exists a log1, m log = (Ok a, log1) /\ k a log1 = (r, log')) \/
  (exists e, m log = (Err e, log') /\ r = Err e).
Proof.
  unfold bind. destruct (m log) as [[a|e] log1]; intros Hb.
  - left. eauto.
  - right. inversion Hb; subst. eauto.
Qed.

Lemma lift_inv {A} (r r' : result exn A) log log' :
  lift r log = (r', log') -> r' = r /\ log' = log.
Proof. unfold lift. intros [= <- <-]. auto. Qed.

Lemma raises_only_bind {A B} P (r : result exn A) (k : A -> result exn B) :
  raises_only P r -> (forall a, r = Ok a -> raises_only P (k a)) ->
  raises_only P (rbind r k).
Proof.
  intros Hr Hk e He. apply rbind_Err in He as [He|[a [Ha He]]].
  - apply Hr; exact He.
  - apply (Hk a Ha); exact He.
Qed.

Lemma mraises_only_bind {A B} P (m : M A) (k : A -> M B) :
  mraises_only P m -> (forall a, mraises_only P (k a)) -> mraises_only P (bind m k).
Proof.
  intros Hm Hk log e log' Hb. apply bind_inv in Hb as [[a [log1 [Ha Hb]]]|[e' [He E]]].
  - exact (Hk a _ _ _ Hb).
  - inversion E; subst. exact (Hm _ _ _ He).
Qed.

Lemma mraises_only_lift {A} P (r : result exn A) :
  raises_only P r -> mraises_only P (lift r).
Proof. intros Hr log e log' Hl. apply lift_inv in Hl as [<- _]. apply Hr. reflexivity. Qed.

Lemma mraises_only_ret {A} P (a : A) : mraises_only P (ret a).
Proof. intros log e log' [=]. Qed.

Lemma raises_only_map_err_Raised {A} (r : result lib_exn A) :
  raises_only plain (map_err Raised r).
Proof. intros e. destruct r; simpl; [discriminate | intros [= <-]; reflexivity]. Qed.

Lemma dict_getitem_plain {V} k (d : Dict.t string V) : raises_only plain (dict_getitem k d).
Proof.
  intros e. unfold dict_getitem. destruct (Dict.get k d); [discriminate|].
  intros [= <-]. reflexivity.
Qed.

Lemma py_getitem_plain {A} (l : list A) i : raises_only plain (py_getitem l i).
Proof.
  intros e. unfold py_getitem. destruct (norm_index i (List.length l)).
  - destruct (nth_error l n); [discriminate | intros [= <-]; reflexivity].
  - intros [= <-]; reflexivity.
Qed.

Lemma py_setitem_plain {A} (l : list A) i v : raises_only plain (py_setitem l i v).
Proof.
  intros e. unfold py_setitem. destruct (norm_index i (List.length l)).
  - discriminate.
  - intros [= <-]; reflexivity.
Qed.

Lemma lookup_parent_plain ts t r pk : raises_only plain (lookup_parent ts t r pk).
Proof.
  unfold lookup_parent. destruct (0 <=? t - snd pk).
  - apply raises_only_bind; [apply dict_getitem_plain|]. intros; apply py_getitem_plain.
  - intros e [=].
Qed.

Lemma parentwise_values_plain ts t r parents acc :
  raises_only plain (parentwise_values ts t r parents acc).
Proof.
  revert acc. induction parents as [|pk rest IH]; intros acc; simpl.
  - intros e [=].
  - apply raises_only_bind; [apply lookup_parent_plain|]. intros; apply IH.
Qed.

Lemma call_cpd_plain cpd pv z : raises_only plain (call_cpd cpd pv z).
Proof.
  destruct cpd; simpl; [apply raises_only_map_err_Raised|].
  intros e [= <-]; reflexivity.
Qed.

Lemma call_time_feature_plain tf time : raises_only plain (call_time_feature tf time).
Proof.
  destruct tf; simpl; [apply raises_only_map_err_Raised|].
  intros e [= <-]; reflexivity.
Qed.

Lemma store_plain ts name t v : raises_only plain (store ts name t v).
Proof.
  unfold store. apply raises_only_bind; [apply dict_getitem_plain|]. intros col _.
  apply raises_only_bind; [apply py_setitem_plain|]. intros col' _ e [=].
Qed.

Lemma sample_node_plain env r time t ts n : mraises_only plain (sample_node env r time t ts n).
Proof.
  destruct n as [name parents cpd|name tf]; simpl.
  - apply mraises_only_bind; [apply mraises_only_lift, parentwise_values_plain|]. intros pv.
    apply mraises_only_bind; [intros log e log' [=]|]. intros z.
    apply mraises_only_bind; [apply mraises_only_lift, call_cpd_plain|]. intros v.
    apply mraises_only_bind; [apply mraises_only_lift, store_plain|]. intros ts'.
    apply mraises_only_bind; [intros log e log' [=]|]. intros _.
    apply mraises_only_ret.
  - apply mraises_only_bind; [apply mraises_only_lift, call_time_feature_plain|]. intros v.
    apply mraises_only_bind; [apply mraises_only_lift, store_plain|]. intros ts'.
    apply mraises_only_bind; [intros log e log' [=]|]. intros _.
    apply mraises_only_ret.
Qed.

Lemma sample_timestep_plain env r time t order ts :
  mraises_only plain (sample_timestep env r time t order ts).
Proof.
  revert ts. induction order as [|n rest IH]; intros ts; simpl.
  - apply mraises_only_ret.
  - apply mraises_only_bind; [apply sample_node_plain | intros; apply IH].
Qed.

Lemma sample_steps_plain env r order steps ts :
  mraises_only plain (sample_steps env r order steps ts).
Proof.
  revert ts. induction steps as [|[time t] rest IH]; intros ts; simpl.
  - apply mraises_only_ret.
  - apply mraises_only_bind; [apply sample_timestep_plain | intros; apply IH].
Qed.

(** ** Where the errors of [generate] come from *)

Lemma relax_nx st c : raises_only nx_exn (nx.relax st c).
Proof.
  intros e. destruct st as [m z]. unfold nx.relax.
  destruct (Dict.get c m) as [dg|].
  - destruct (dg - 1 =? 0); discriminate.
  - intros [= <-]. left; reflexivity.
Qed.

Lemma relax_all_nx cs : forall st, raises_only nx_exn (nx.relax_all st cs).
Proof.
  induction cs as [|c cs IH]; intros st; simpl.
  - intros e [=].
  - apply raises_only_bind; [apply relax_nx | intros; apply IH].
Qed.

Lemma process_generation_nx G gen : forall st, raises_only nx_exn (nx.process_generation G st gen).
Proof.
  induction gen as [|u gen IH]; intros st; simpl.
  - intros e [=].
  - apply raises_only_bind; [apply relax_all_nx | intros; apply IH].
Qed.

Lemma generations_nx fuel G : forall m z, raises_only nx_exn (nx.generations fuel G m z).
Proof.
  induction fuel as [|fuel IH]; intros m z; destruct z as [|u z]; simpl.
  - destruct m; intros e [=]. subst. right; right; reflexivity.
  - intros e [= <-]. right; left; reflexivity.
  - destruct m; intros e [=]. subst. right; right; reflexivity.
  - apply raises_only_bind; [exact (process_generation_nx G (u :: z) (m, []))|].
    intros st _.
    apply raises_only_bind; [apply IH|]. intros rest _ e [=].
Qed.

Lemma topological_sort_nx G : raises_only nx_exn (nx.topological_sort G).
Proof.
  unfold nx.topological_sort. apply raises_only_bind.
  - apply generations_nx.
  - intros gens _ e [=].
Qed.

Lemma nodes_at_raises d names e :
  nodes_at d names = Err e -> exists k, e = KeyError k /\ In k names /\ Dict.get k (nodes d) = None.
Proof.
  induction names as [|name rest IH]; simpl; [discriminate|].
  unfold node_at. destruct (Dict.get name (nodes d)) eqn:E; simpl.
  - destruct (nodes_at d rest); simpl; [discriminate|].
    intros [= <-]. destruct (IH eq_refl) as [k [-> [Hin Hk]]]. eauto.
  - intros [= <-]. eauto.
Qed.

Lemma get_topological_order_plain d : raises_only plain (get_topological_order d).
Proof.
  intros e. unfold get_topological_order.
  destruct (nx.topological_sort (zero_lag_graph d)) as [names|e0] eqn:E.
  - intros He. apply nodes_at_raises in He as [k [-> _]]. reflexivity.
  - apply topological_sort_nx in E.
    destruct E as [-> | [-> | ->]]; simpl; intros [= <-]; reflexivity.
Qed.

Lemma time_axis_raises env a e :
  time_axis env a = Err e ->
  (start_time a <> None /\ frequency a = None /\ e = ValueError StartTimeWithoutFrequency) \/
  (start_time a = None /\ frequency a <> None /\ e = ValueError FrequencyWithoutStartTime) \/
  (start_time a <> None /\ frequency a <> None /\ exists x, e = Raised x).
Proof.
  unfold time_axis. destruct (start_time a) as [s|], (frequency a) as [f|].
  - destruct (generate_datetime_series env (n_steps a) s f (start_time_format a)); simpl;
      [discriminate|]. intros [= <-]. right; right. repeat split; try discriminate. eauto.
  - intros [= <-]. left. repeat split; discriminate.
  - intros [= <-]. right; left. repeat split; discriminate.
  - discriminate.
Qed.







(** A failure of the preparation comes from the time axis, from the
    ordering, or from the block on the initial values. *)
Lemma prepare_Err env d a e :
  prepare env d a = Err e ->
  time_axis env a = Err e \/
  (exists axis, time_axis env a = Ok axis /\ get_topological_order d = Err e) \/
  (exists axis order item items,
     time_axis env a = Ok axis /\ get_topological_order d = Ok order /\
     initial_values a = Some (item :: items) /\
     use_initial_values env d a (item :: items)
       (Dict.set (time_column_name a) axis (fresh_table d (n_steps a))) = Err e).
Proof.
  unfold prepare. intros He.
  apply rbind_Err in He as [He|[axis [Hax He]]]; [auto|].
  apply rbind_Err in He as [He|[order [Hord He]]]; [right; left; eauto|].
  apply rbind_Err in He as [He|[ts2 [_ He]]]; [|discriminate].
  right; right. destruct (initial_values a) as [[|item items]|]; try discriminate.
  exists axis, order, item, items. auto.
Qed.


(** The part of [generate] after the preparation raises plain errors only,
    and a failure of the preparation leaves the record of samples as it was. *)
Lemma generate_inv env d a log r log' :
  generate env d a log = (r, log') ->
  (exists e, prepare env d a = Err e /\ r = Err e /\ log' = log) \/
  (exists p, prepare env d a = Ok p /\ forall e, r = Err e -> plain e).
Proof.
  unfold generate. intros Hg.
  apply bind_inv in Hg as [[p [log1 [Hp Hg]]]|[e [Hp ->]]].
  - apply lift_inv in Hp as [Hp ->]. right. exists p. split; [auto|].
    intros e ->. revert Hg.
    match goal with |- ?m log = _ -> _ => assert (H : mraises_only plain m) end.
    { apply mraises_only_bind; [apply mraises_only_lift, dict_getitem_plain|]. intros tc.
      apply mraises_only_bind; [apply sample_steps_plain|]. intros ts3.
      apply mraises_only_bind; [apply mraises_only_lift, raises_only_map_err_Raised|].
      intros df. destruct (exclude_temporal_nodes_from_output a).
      - apply mraises_only_lift, raises_only_map_err_Raised.
      - apply mraises_only_ret. }
    intros Hg. exact (H _ _ _ Hg).
  - apply lift_inv in Hp as [Hp ->]. left. exists e. auto.
Qed.

(** ** IEEE facts used by the linear-Gaussian distribution *)

Lemma Prim2SF_zero : Prim2SF 0%float = S754_zero false.
Proof. reflexivity. Qed.

Lemma SFeqb_refl_not_nan x : x <> S754_nan -> SFeqb x x = true.
Proof.
  unfold SFeqb, SFcompare. destruct x as [s|s| |s m e]; intros N; try congruence.
  - destruct s; reflexivity.
  - rewrite Z.compare_refl, Pos.compare_cont_refl. destruct s; reflexivity.
Qed.

Lemma is_nan_spec x : is_nan x = true <-> Prim2SF x = S754_nan.
Proof.
  unfold is_nan. rewrite eqb_spec. split.
  - intros Hn. destruct (Prim2SF x) as [s|s| |s m e] eqn:E; try reflexivity;
      rewrite SFeqb_refl_not_nan in Hn by discriminate; discriminate.
  - intros ->. reflexivity.
Qed.

Lemma finite_cases x :
  is_finite x = true ->
  (exists s, Prim2SF x = S754_zero s) \/ (exists s m e, Prim2SF x = S754_finite s m e).
Proof.
  unfold is_finite. intros Hf. apply negb_true_iff, orb_false_iff in Hf as [Hn Hi].
  unfold is_infinity in Hi. rewrite eqb_spec, abs_spec in Hi.
  destruct (Prim2SF x) as [s|s| |s m e] eqn:E.
  - left; eauto.
  - destruct s; discriminate.
  - assert (is_nan x = true) by (apply is_nan_spec; exact E). congruence.
  - right; eauto.
Qed.

Lemma zero_times_finite w x :
  (exists s, Prim2SF w = S754_zero s) -> is_finite x = true ->
  exists s, Prim2SF (w * x)%float = S754_zero s.
Proof.
  intros [sw Hw] Hx. rewrite mul_spec, Hw. unfold SF64mul.
  destruct (finite_cases x Hx) as [[s ->]|[s [m [e ->]]]]; simpl; eauto.
Qed.

Lemma sf_same_refl M : sf_same M M.
Proof. left; reflexivity. Qed.

Lemma sf_same_add_zero M X s :
  sf_same M X -> sf_same M (SF64add X (S754_zero s)).
Proof.
  intros [->|[sm [sx [-> ->]]]].
  - destruct M as [sm|sm| |sm m e]; simpl.
    + right. destruct sm, s; simpl; eauto.
    + left; reflexivity.
    + left; reflexivity.
    + left; reflexivity.
  - right. destruct sx, s; simpl; eauto.
Qed.

Lemma sf_same_zero_add M : sf_same M (SF64add (S754_zero false) M).
Proof.
  destruct M as [sm|sm| |sm m e]; simpl.
  - right. destruct sm; eauto.
  - left; reflexivity.
  - left; reflexivity.
  - left; reflexivity.
Qed.

Lemma sf_same_number m r : sf_same (Prim2SF m) (Prim2SF r) -> same_number r m.
Proof.
  intros [E|[s [s' [Hm Hr]]]].
  - left. apply Prim2SF_inj. exact E.
  - right. unfold is_zero. rewrite !eqb_spec, Hm, Hr. split; reflexivity.
Qed.

Lemma same_number_eqb r m : same_number r m -> is_nan m = false -> (r =? m)%float = true.
Proof.
  intros [->|[Hr Hm]] Hn.
  - unfold is_nan in Hn. apply negb_false_iff in Hn. exact Hn.
  - unfold is_zero in *. rewrite eqb_spec in *.
    destruct (Prim2SF r) as [s|s| |s m0 e], (Prim2SF m) as [s'|s'| |s' m1 e'];
      simpl in *; try discriminate; try reflexivity;
      destruct s; try discriminate; destruct s'; discriminate.
Qed.

(** A negative scale is one that numpy rejects. *)
Lemma negative_scale_rejected s :
  (s <? 0)%float = true -> (negb (is_nan s) && get_sign s)%bool = true.
Proof.
  intros Hlt. pose proof Hlt as Hlt'. rewrite ltb_spec, Prim2SF_zero in Hlt'.
  assert (Hn : is_nan s = false).
  { destruct (is_nan s) eqn:E; [|reflexivity]. apply is_nan_spec in E.
    rewrite E in Hlt'. discriminate. }
  assert (Hz : is_zero s = false).
  { unfold is_zero. rewrite eqb_spec. change (Prim2SF zero) with (S754_zero false).
    destruct (Prim2SF s) as [sg|sg| |sg m e]; try discriminate; try reflexivity;
      destruct sg; try discriminate; reflexivity. }
  rewrite Hn. simpl. unfold get_sign. rewrite Hz. exact Hlt.
Qed.

(** ** The linear-Gaussian distribution *)

Lemma weight_of_set_zero c key k :
  Dict.get key (parent_weights c) = None ->
  weight_of {| parent_weights := Dict.set key 0%float (parent_weights c);
               intrinsic_mean := intrinsic_mean c;
               noise_std := noise_std c |} k = weight_of c k.
Proof.
  intros Hnone. unfold weight_of. simpl.
  destruct (key_eq_dec k key) as [->|N].
  - rewrite get_set_same, Hnone. reflexivity.
  - rewrite get_set_other by exact N. reflexivity.
Qed.

Lemma weighted_terms_ext c c' pv :
  (forall k, weight_of c' k = weight_of c k) ->
  weighted_terms c' pv = weighted_terms c pv.
Proof.
  intros Hw. induction pv as [|item rest IH]; simpl; [reflexivity|].
  rewrite IH. unfold weighted_term. rewrite Hw. reflexivity.
Qed.

Lemma weighted_term_as_float c item :
  weighted_term c item
  = (x <- as_float (snd item) ;; Ok (weight_of c (fst item) * x)%float)%result.
Proof. unfold weighted_term, as_float. destruct (snd item); reflexivity. Qed.

(** With no weights, every term of a mapping of finite numbers is a zero. *)
Lemma weighted_terms_zero c pv :
  parent_weights c = [] ->
  (forall k v, In (k, v) pv -> finite_number v) ->
  exists terms, weighted_terms c pv = Ok terms /\
                Forall (fun t => exists s, Prim2SF t = S754_zero s) terms.
Proof.
  intros Hw. induction pv as [|[k v] rest IH]; intros Hpv; simpl.
  - exists []. split; [reflexivity | constructor].
  - destruct (Hpv k v (or_introl eq_refl)) as [x [Hv Hx]].
    destruct IH as [terms [-> Hterms]]; [intros; eapply Hpv; right; eauto|].
    rewrite weighted_term_as_float. simpl. rewrite Hv. simpl.
    eexists. split; [reflexivity|].
    constructor; [|exact Hterms].
    apply zero_times_finite; [|exact Hx].
    unfold weight_of. rewrite Hw. simpl. exists false. reflexivity.
Qed.

Lemma fold_add_zeros M terms : forall acc,
  sf_same M (Prim2SF acc) ->
  Forall (fun t => exists s, Prim2SF t = S754_zero s) terms ->
  sf_same M (Prim2SF (fold_left PrimFloat.add terms acc)).
Proof.
  induction terms as [|t terms IH]; intros acc Hacc Hz; simpl; [exact Hacc|].
  inversion Hz as [|? ? [s Ht] Hz']; subst.
  apply IH; [|exact Hz'].
  rewrite add_spec, Ht. apply sf_same_add_zero. exact Hacc.
Qed.

(** A float that is not finite is an infinity or NaN; a zero times either
    is NaN, and NaN is absorbing in a sum. *)
Lemma not_finite_cases x :
  is_finite x = false ->
  Prim2SF x = S754_nan \/ exists s, Prim2SF x = S754_infinity s.
Proof.
  intros Hf. destruct (Prim2SF x) as [s|s| |s m e] eqn:E; [|right; eauto|left; reflexivity|].
  - assert (Hn : is_nan x = false).
    { destruct (is_nan x) eqn:En; [|reflexivity]. apply is_nan_spec in En. congruence. }
    unfold is_finite in Hf. rewrite Hn in Hf. unfold is_infinity in Hf.
    rewrite eqb_spec, abs_spec, E in Hf. discriminate.
  - assert (Hn : is_nan x = false).
    { destruct (is_nan x) eqn:En; [|reflexivity]. apply is_nan_spec in En. congruence. }
    unfold is_finite in Hf. rewrite Hn in Hf. unfold is_infinity in Hf.
    rewrite eqb_spec, abs_spec, E in Hf. discriminate.
Qed.

Lemma zero_times_not_finite w x :
  (exists s, Prim2SF w = S754_zero s) -> is_finite x = false ->
  Prim2SF (w * x)%float = S754_nan.
Proof.
  intros [sw Hw] Hx. rewrite mul_spec, Hw.
  destruct (not_finite_cases x Hx) as [->|[s ->]]; reflexivity.
Qed.

Lemma add_nan_l x y : Prim2SF x = S754_nan -> Prim2SF (x + y)%float = S754_nan.
Proof. intros Hx. rewrite add_spec, Hx. reflexivity. Qed.

Lemma add_nan_r x y : Prim2SF y = S754_nan -> Prim2SF (x + y)%float = S754_nan.
Proof.
  intros Hy. rewrite add_spec, Hy. destruct (Prim2SF x); reflexivity.
Qed.

Lemma fold_add_nan_acc terms : forall acc,
  Prim2SF acc = S754_nan -> Prim2SF (fold_left PrimFloat.add terms acc) = S754_nan.
Proof.
  induction terms as [|t terms IH]; intros acc Hacc; simpl; [exact Hacc|].
  apply IH, add_nan_l, Hacc.
Qed.

Lemma fold_add_nan terms : forall acc,
  Exists (fun t => Prim2SF t = S754_nan) terms ->
  Prim2SF (fold_left PrimFloat.add terms acc) = S754_nan.
Proof.
  induction terms as [|t terms IH]; intros acc Hex; inversion Hex; subst; simpl.
  - apply fold_add_nan_acc, add_nan_r. assumption.
  - apply IH. assumption.
Qed.

(** With no weights, a float that is not finite among numbers gives a NaN
    term. *)
Lemma weighted_terms_nan c pv :
  parent_weights c = [] ->
  (forall k v, In (k, v) pv -> exists x, as_float v = Ok x) ->
  (exists k x, In (k, VFloat x) pv /\ is_finite x = false) ->
  exists terms, weighted_terms c pv = Ok terms /\
                Exists (fun t => Prim2SF t = S754_nan) terms.
Proof.
  intros Hw. induction pv as [|[k v] rest IH]; intros Hpv [k0 [x0 [Hin Hx0]]].
  - destruct Hin.
  - destruct (Hpv k v (or_introl eq_refl)) as [x Hv].
    assert (Hrest : exists terms, weighted_terms c rest = Ok terms).
    { clear IH Hin. induction rest as [|[k' v'] rest IH']; [simpl; eauto|].
      destruct (Hpv k' v' (or_intror (or_introl eq_refl))) as [x' Hv'].
      destruct IH' as [terms Ht].
      - intros k1 v1 [E|Hin1]; [apply (Hpv k1 v1); left; exact E|].
        apply (Hpv k1 v1). right. right. exact Hin1.
      - simpl. rewrite weighted_term_as_float. simpl. rewrite Hv'. simpl.
        rewrite Ht. simpl. eauto. }
    destruct Hrest as [terms Hterms].
    simpl. rewrite weighted_term_as_float. simpl. rewrite Hv. simpl.
    rewrite Hterms. simpl. eexists. split; [reflexivity|].
    destruct Hin as [E|Hin].
    + injection E as _ ->. simpl in Hv. injection Hv as <-.
      apply Exists_cons_hd. apply zero_times_not_finite; [|exact Hx0].
      unfold weight_of. rewrite Hw. simpl. exists false. reflexivity.
    + apply Exists_cons_tl.
      destruct IH as [terms' [Ht' Hex]].
      * intros k1 v1 Hin1. apply (Hpv k1 v1). right. exact Hin1.
      * eauto.
      * rewrite Hterms in Ht'. injection Ht' as <-. exact Hex.
Qed.

(** A value that is no number, or an integer too large for a float, makes
    the terms fail. *)
Lemma weighted_terms_fail c pv :
  (exists k v e, In (k, v) pv /\ as_float v = Err e) ->
  exists e, weighted_terms c pv = Err e.
Proof.
  induction pv as [|[k v] rest IH]; intros [k0 [v0 [e0 [Hin He0]]]]; [destruct Hin|].
  simpl. rewrite weighted_term_as_float. simpl.
  destruct (as_float v) as [x|e] eqn:Ev; simpl; [|eauto].
  destruct Hin as [E|Hin]; [injection E as _ ->; congruence|].
  destruct IH as [e ->]; [eauto|]. simpl. eauto.
Qed.

(** C4, as amended: with an empty weight mapping and noise standard deviation
    +0.0, [evaluate] returns the intercept (a zero intercept may come back
    with the other sign) for every mapping of finite numbers (finite floats,
    integers that convert to a finite float) and every finite variate.  When
    the values are floats or convertible integers and one of them is an
    infinite or NaN float, the result is NaN; when one of them is no number
    or an integer too large to convert, the call raises.  With noise
    standard deviation -0.0, which equals 0, no call returns.  A key absent
    from the weights behaves as a key of weight 0, the lookup never
    failing. *)
Theorem evaluate_intercept_only :
  (forall m pv z,
      (forall k v, In (k, v) pv -> finite_number v) ->
      is_finite z = true ->
      exists r,
        evaluate {| parent_weights := []; intrinsic_mean := m; noise_std := 0%float |} pv z
        = Ok (VFloat r) /\ same_number r m)
  /\ (forall m pv z,
      (forall k v, In (k, v) pv -> exists x, as_float v = Ok x) ->
      (exists k x, In (k, VFloat x) pv /\ is_finite x = false) ->
      exists r,
        evaluate {| parent_weights := []; intrinsic_mean := m; noise_std := 0%float |} pv z
        = Ok (VFloat r) /\ is_nan r = true)
  /\ (forall c pv z,
      (exists k v e, In (k, v) pv /\ as_float v = Err e) ->
      exists e, evaluate c pv z = Err e)
  /\ ((-0 =? 0)%float = true /\
      forall m pv z v,
        evaluate {| parent_weights := []; intrinsic_mean := m; noise_std := (-0)%float |} pv z
        <> Ok v)
  /\ (forall c key pv z,
      Dict.get key (parent_weights c) = None ->
      weight_of c key = 0%float /\
      evaluate {| parent_weights := Dict.set key 0%float (parent_weights c);
                  intrinsic_mean := intrinsic_mean c;
                  noise_std := noise_std c |} pv z
      = evaluate c pv z).
Proof.
  split; [|split; [|split; [|split]]].
  - intros m pv z Hpv Hz. unfold evaluate.
    destruct (weighted_terms_zero
                {| parent_weights := []; intrinsic_mean := m; noise_std := 0%float |}
                pv eq_refl Hpv) as [terms [-> Hterms]].
    simpl. unfold normal.
    replace (negb (is_nan 0) && get_sign 0)%bool with false by reflexivity.
    simpl. eexists. split; [reflexivity|].
    apply sf_same_number. rewrite add_spec.
    destruct (zero_times_finite 0 z (ex_intro _ false Prim2SF_zero) Hz) as [s ->].
    apply sf_same_add_zero. unfold py_sum. simpl.
    apply fold_add_zeros; [|exact Hterms].
    rewrite add_spec, Prim2SF_zero. apply sf_same_zero_add.
  - intros m pv z Hpv Hbad. unfold evaluate.
    destruct (weighted_terms_nan
                {| parent_weights := []; intrinsic_mean := m; noise_std := 0%float |}
                pv eq_refl Hpv Hbad) as [terms [-> Hterms]].
    simpl. unfold normal.
    replace (negb (is_nan 0) && get_sign 0)%bool with false by reflexivity.
    simpl. eexists. split; [reflexivity|].
    apply is_nan_spec, add_nan_l. unfold py_sum. simpl.
    apply fold_add_nan. exact Hterms.
  - intros c pv z Hbad. unfold evaluate.
    destruct (weighted_terms_fail c pv Hbad) as [e ->]. simpl. eauto.
  - split; [reflexivity|].
    intros m pv z v. unfold evaluate. simpl.
    destruct (weighted_terms _ pv); simpl; [|discriminate].
    unfold normal.
    replace (negb (is_nan (-0)) && get_sign (-0))%bool with true by reflexivity.
    simpl. discriminate.
  - intros c key pv z Hnone. split.
    + unfold weight_of. rewrite Hnone. reflexivity.
    + unfold evaluate. simpl.
      rewrite (weighted_terms_ext c _ pv (fun k => weight_of_set_zero c key k Hnone)).
      reflexivity.
Qed.

Lemma evaluate_intercept_only_witness :
  (exists r, evaluate Ex.intercept_only
               [(("X", 0), VFloat 3%float); (("Y", 1), VInt 7)] 0.5%float = Ok (VFloat r)
             /\ same_number r 5%float)
  /\ (exists r, evaluate Ex.intercept_only
                  [(("X", 0), VInt 3); (("Y", 1), VFloat nan)] 0.5%float = Ok (VFloat r)
                /\ is_nan r = true)
  /\ evaluate {| parent_weights := Dict.set ("Y", 1) 0%float (parent_weights Ex.half_of_x);
                 intrinsic_mean := intrinsic_mean Ex.half_of_x;
                 noise_std := noise_std Ex.half_of_x |}
        [(("X", 0), VFloat 3%float); (("Y", 1), VFloat 7%float)] 0.5%float
     = evaluate Ex.half_of_x
        [(("X", 0), VFloat 3%float); (("Y", 1), VFloat 7%float)] 0.5%float.
Proof.
  split; [|split].
  - apply (proj1 evaluate_intercept_only 5%float
             [(("X", 0), VFloat 3%float); (("Y", 1), VInt 7)] 0.5%float).
    + intros k v [[= <- <-]|[[= <- <-]|[]]].
      * exists 3%float. split; reflexivity.
      * exists 7%float. split; reflexivity.
    + reflexivity.
  - apply (proj1 (proj2 evaluate_intercept_only) 5%float
             [(("X", 0), VInt 3); (("Y", 1), VFloat nan)] 0.5%float).
    + intros k v [[= <- <-]|[[= <- <-]|[]]].
      * exists 3%float. reflexivity.
      * exists nan. reflexivity.
    + exists ("Y", 1), nan. split; [right; left; reflexivity | reflexivity].
  - apply (proj2 (proj2 (proj2 (proj2 evaluate_intercept_only))) Ex.half_of_x ("Y", 1)).
    reflexivity.
Defined.

(** C4 as stated fails: an infinite parent value, although its weight is
    absent, turns the result into NaN instead of the intercept 5. *)
Lemma evaluate_intercept_only_infinite_input :
  evaluate Ex.intercept_only [(("X", 0), VFloat infinity)] 0.5%float = Ok (VFloat nan)
  /\ (nan =? 5)%float = false.
Proof. split; reflexivity. Qed.

(** C9, as amended: the constructor accepts every noise standard deviation
    and stores it unchanged; with a negative one, each call of [evaluate]
    fails, on the Gaussian draw ("scale < 0") when the parent values are
    floats. *)
Theorem negative_noise_std_fails_in_evaluate w m s :
  new_linear_gaussian w m s
  = Ok {| parent_weights := w; intrinsic_mean := m; noise_std := s |}
  /\ ((s <? 0)%float = true ->
      forall c, new_linear_gaussian w m s = Ok c ->
      forall pv z,
        (forall v, evaluate c pv z <> Ok v) /\
        ((forall k v, In (k, v) pv -> exists x, v = VFloat x) ->
         evaluate c pv z = Err ScaleNegative)).
Proof.
  split; [reflexivity|].
  intros Hs c [= <-] pv z. apply negative_scale_rejected in Hs.
  unfold evaluate. simpl. split.
  - intros v. destruct (weighted_terms _ pv); simpl; [|discriminate].
    unfold normal. rewrite Hs. simpl. discriminate.
  - intros Hpv.
    assert (Hterms : exists terms,
               weighted_terms {| parent_weights := w; intrinsic_mean := m; noise_std := s |} pv
               = Ok terms).
    { induction pv as [|[k v] rest IH]; simpl; [eauto|].
      destruct (Hpv k v (or_introl eq_refl)) as [x ->].
      destruct IH as [terms ->]; [intros; eapply Hpv; right; eauto|].
      unfold weighted_term. simpl. eauto. }
    destruct Hterms as [terms ->]. simpl. unfold normal. rewrite Hs. reflexivity.
Qed.

Lemma negative_noise_std_fails_in_evaluate_witness :
  new_linear_gaussian [] 5%float (-1)%float = Ok Ex.negative_noise
  /\ evaluate Ex.negative_noise [(("X", 0), VFloat 3%float)] 0.5%float = Err ScaleNegative.
Proof.
  destruct (negative_noise_std_fails_in_evaluate [] 5%float (-1)%float) as [Hc He].
  split; [exact Hc|].
  apply (He eq_refl Ex.negative_noise Hc).
  intros k v [[= <- <-]|[]]. eauto.
Defined.

(** C9 as stated fails: a standard deviation of -1 is accepted by the
    constructor, and it is [evaluate] that raises. *)
Lemma negative_noise_std_constructed :
  new_linear_gaussian [] 5%float (-1)%float = Ok Ex.negative_noise
  /\ (noise_std Ex.negative_noise <? 0)%float = true
  /\ evaluate Ex.negative_noise [] 0.5%float = Err ScaleNegative.
Proof. repeat split. Qed.

(** ** The network container *)

Lemma update_max_lag_fold m parents :
  update_max_lag m parents = fold_left Z.max (map snd parents) m.
Proof.
  unfold update_max_lag. revert m.
  induction parents as [|pl rest IH]; intros m; simpl; [reflexivity|].
  rewrite IH. f_equal. destruct (Z.ltb_spec m (snd pl)); lia.
Qed.

Lemma fold_max_app l1 l2 m :
  fold_left Z.max (l1 ++ l2) m = fold_left Z.max l2 (fold_left Z.max l1 m).
Proof. apply fold_left_app. Qed.

(** [add_node] keeps a running maximum: after any sequence of calls,
    [max_lag] is the largest of 0 and the lags of all nodes ever passed. *)
Lemma max_lag_running l :
  max_lag (dbn_of l) = fold_left Z.max (map snd (flat_map node_parents l)) 0.
Proof.
  unfold dbn_of.
  assert (G : forall d,
             max_lag (fold_left (fun d n => add_node n d) l d)
             = fold_left Z.max (map snd (flat_map node_parents l)) (max_lag d)).
  { induction l as [|n l IH]; intros d; simpl; [reflexivity|].
    rewrite IH. simpl. rewrite update_max_lag_fold, map_app, fold_max_app. reflexivity. }
  apply G.
Qed.

Lemma fold_max_ge l : forall m, m <= fold_left Z.max l m.
Proof.
  induction l as [|x l IH]; intros m; simpl; [lia|].
  specialize (IH (Z.max m x)). lia.
Qed.

Lemma max_lag_nonneg l : 0 <= max_lag (dbn_of l).
Proof. rewrite max_lag_running. apply fold_max_ge. Qed.

(** C6: adding a node with a lag-5 parent and then a parentless node of the
    same name leaves one node without parents in the network, whose largest
    lag is 0, while [max_lag] stays 5. *)
Theorem max_lag_stale_after_overwrite :
  nodes Ex.overwritten = [("A", Ex.bare_a)]
  /\ largest_lag_present Ex.overwritten = 0
  /\ max_lag Ex.overwritten = 5.
Proof. repeat split. Qed.

Lemma broken_edges :
  zero_lag_edge Ex.broken "A" "B" /\ zero_lag_edge Ex.broken "B" "A"
  /\ zero_lag_edge Ex.broken "C" "B".
Proof.
  split; [|split].
  - exists (add_parent "C" 0 (add_parent "A" 0 (new_node "B"))). simpl. tauto.
  - exists (add_parent "B" 0 (new_node "A")). simpl. tauto.
  - exists (add_parent "C" 0 (add_parent "A" 0 (new_node "B"))). simpl. tauto.
Qed.

Lemma broken_cycle : has_zero_lag_cycle Ex.broken.
Proof.
  destruct broken_edges as [Hab [Hba _]].
  exists "A". eapply t_trans; apply t_step; eassumption.
Qed.

(** C7: [validate_structure] returns without an error on every network, here
    on one with a zero-lag cycle between [A] and [B] and with a parent [C]
    that resolves to no node. *)
Theorem validate_structure_checks_nothing :
  (forall d, validate_structure d = Ok tt)
  /\ has_zero_lag_cycle Ex.broken
  /\ zero_lag_edge Ex.broken "C" "B"
  /\ get_node "C" Ex.broken = None.
Proof.
  split; [reflexivity|]. split; [exact broken_cycle|].
  split; [apply broken_edges | reflexivity].
Qed.

(** ** The start/frequency check *)



(** ** Excluding temporal nodes *)

Lemma generate_excluding_never_returns env d a log r log' :
  exclude_temporal_nodes_from_output a = true ->
  generate env d a log = (r, log') -> exists e, r = Err e.
Proof.
  intros Hex. unfold generate. intros Hg.
  repeat match type of Hg with
         | bind _ _ _ = _ =>
             apply bind_inv in Hg as [[? [? [_ Hg]]]|[? [_ ->]]]; [|eauto]
         end.
  rewrite Hex in Hg. apply lift_inv in Hg as [-> _]. simpl. eauto.
Qed.

(** C8: with [exclude_temporal_nodes_from_output] set, the run below goes
    through the whole generation, the temporal node [T] being sampled and
    read by [Z] at both timesteps, and then fails in the final selection
    instead of returning the table without the column [T]. *)
Theorem generate_excluding_temporal_nodes_fails :
  run_generate Ex.env Ex.seasonal (Ex.excluding_temporal_nodes (default_args 2))
  = (Err (Raised InvalidSliceBound),
     [ {| at_node := "T"; at_timestep := 0; input := FromTime (VInt 0); output := VInt 1 |};
       {| at_node := "Z"; at_timestep := 0;
          input := FromParents [(("T", 0), VInt 1)]; output := VFloat 0.5%float |};
       {| at_node := "T"; at_timestep := 1; input := FromTime (VInt 1); output := VInt 2 |};
       {| at_node := "Z"; at_timestep := 1;
          input := FromParents [(("T", 0), VInt 2)]; output := VFloat 1%float |} ])
  /\ (forall env d a df log,
        exclude_temporal_nodes_from_output a = true ->
        run_generate env d a <> (Ok df, log)).
Proof.
  split; [vm_compute; reflexivity|].
  intros env d a df log Hex Hrun.
  destruct (generate_excluding_never_returns env d a [] _ _ Hex Hrun) as [e [=]].
Qed.

(** ** The generation loop, sample by sample *)

Lemma each_after_nil {A} (P : list A -> A -> Prop) : each_after P [].
Proof. intros l1 s l2 E. destruct l1; discriminate. Qed.

Lemma each_after_snoc {A} (P : list A -> A -> Prop) l s :
  each_after P l -> P l s -> each_after P (l ++ [s]).
Proof.
  intros Hl Hs l1 s' l2 E.
  destruct l2 as [|x l2].
  - apply app_inj_tail in E as [-> ->]. exact Hs.
  - destruct (@exists_last _ (x :: l2)) as [l2' [y E2]]; [discriminate|].
    rewrite E2 in E.
    change (l1 ++ s' :: l2' ++ [y]) with (l1 ++ (s' :: l2') ++ [y]) in E.
    rewrite app_assoc in E.
    apply app_inj_tail in E as [-> _]. eapply Hl. reflexivity.
Qed.

Lemma table_after_snoc ts log s :
  table_after ts (log ++ [s]) = apply_sample (table_after ts log) s.
Proof. unfold table_after. rewrite fold_left_app. reflexivity. Qed.

Lemma sample_node_inv env r time t ts n log res log' :
  sample_node env r time t ts n log = (res, log') ->
  (exists e, res = Err e /\ log' = log) \/
  (exists ts' s, res = Ok ts' /\ log' = log ++ [s] /\
                 yields env r ts (List.length log) time t n s /\
                 ts' = apply_sample ts s).
Proof.
  destruct n as [name parents cpd|name tf]; simpl; unfold bind, lift, draw, store_sample, ret.
  - destruct (parentwise_values ts t r parents []) as [pv|e] eqn:Epv;
      [|intros [= <- <-]; left; eauto].
    destruct (call_cpd cpd pv (omega env (List.length log))) as [v|e] eqn:Ev;
      [|intros [= <- <-]; left; eauto].
    destruct (store ts name t v) as [ts'|e] eqn:Est;
      [|intros [= <- <-]; left; eauto].
    intros [= <- <-]. right. eexists _, _. split; [reflexivity|]. split; [reflexivity|].
    split.
    + unfold yields. simpl. repeat split; eauto.
    + unfold apply_sample. simpl. rewrite Est. reflexivity.
  - destruct (call_time_feature tf time) as [v|e] eqn:Ev;
      [|intros [= <- <-]; left; eauto].
    destruct (store ts name t v) as [ts'|e] eqn:Est;
      [|intros [= <- <-]; left; eauto].
    intros [= <- <-]. right. eexists _, _. split; [reflexivity|]. split; [reflexivity|].
    split.
    + unfold yields. simpl. repeat split; eauto.
    + unfold apply_sample. simpl. rewrite Est. reflexivity.
Qed.

Section Loop.
Variables (env : Env) (replacement : value) (ts0 : Table).
Variable P : list sample -> sample -> Prop.

(** [P] holds of whatever a node of [order] yields at a step of [steps]. *)
Variables (order : list Node) (steps : list (value * Z)).
Hypothesis P_yields :
  forall log s n time t,
    In n order -> In (time, t) steps ->
    yields env replacement (table_after ts0 log) (List.length log) time t n s ->
    P log s.

Lemma sample_timestep_inv time t : forall nodes' ts log res log',
  (forall n, In n nodes' -> In n order) -> In (time, t) steps ->
  sample_timestep env replacement time t nodes' ts log = (res, log') ->
  ts = table_after ts0 log -> each_after P log ->
  each_after P log' /\ (forall ts', res = Ok ts' -> ts' = table_after ts0 log').
Proof.
  induction nodes' as [|n rest IH]; intros ts log res log' Hsub Hstep; simpl.
  - unfold ret. intros [= <- <-] Hts Hlog. split; [exact Hlog|]. intros ts' [= <-]. exact Hts.
  - intros Hrun Hts Hlog.
    apply bind_inv in Hrun as [[ts1 [log1 [Hn Hrun]]]|[e [Hn ->]]].
    + apply sample_node_inv in Hn as [[e [[=] _]]|[ts' [s [[= <-] [-> [Hy ->]]]]]].
      apply (IH _ _ _ _ (fun n' Hn' => Hsub n' (or_intror Hn')) Hstep Hrun).
      * rewrite table_after_snoc, Hts. reflexivity.
      * apply each_after_snoc; [exact Hlog|].
        apply (P_yields log s n time t); [apply Hsub; left; reflexivity | exact Hstep |].
        rewrite <- Hts. exact Hy.
    + apply sample_node_inv in Hn as [[e' [_ ->]]|[ts' [s [[=] _]]]].
      split; [exact Hlog | discriminate].
Qed.

Lemma sample_steps_inv : forall steps' ts log res log',
  (forall st, In st steps' -> In st steps) ->
  sample_steps env replacement order steps' ts log = (res, log') ->
  ts = table_after ts0 log -> each_after P log ->
  each_after P log' /\ (forall ts', res = Ok ts' -> ts' = table_after ts0 log').
Proof.
  induction steps' as [|[time t] rest IH]; intros ts log res log' Hsub; simpl.
  - unfold ret. intros [= <- <-] Hts Hlog. split; [exact Hlog|]. intros ts' [= <-]. exact Hts.
  - intros Hrun Hts Hlog.
    apply bind_inv in Hrun as [[ts1 [log1 [Hn Hrun]]]|[e [Hn ->]]].
    + apply sample_timestep_inv in Hn as [Hlog1 Hts1]; auto;
        [|apply Hsub; left; reflexivity].
      apply (IH _ _ _ _ (fun st Hst => Hsub st (or_intror Hst)) Hrun);
        [apply Hts1; reflexivity | exact Hlog1].
    + apply sample_timestep_inv in Hn as [Hlog1 _]; auto;
        [|apply Hsub; left; reflexivity].
      split; [exact Hlog1 | discriminate].
Qed.
End Loop.

(** ** The columns of the returned frame *)

Lemma column_values_cases col col' :
  column_values col = Ok col' -> col' = col \/ col' = map to_float64 col.
Proof.
  unfold column_values. destruct (object_column col false false); simpl; [|discriminate].
  intros [= <-]. destruct (_ && _ && _)%bool; auto.
Qed.

Lemma column_values_length col col' :
  column_values col = Ok col' -> List.length col' = List.length col.
Proof.
  intros H. destruct (column_values_cases col col' H) as [-> | ->];
    [reflexivity | apply length_map].
Qed.

(** A float of a column is found unchanged in the frame. *)
Lemma column_values_float col col' i x :
  column_values col = Ok col' ->
  nth_error col i = Some (VFloat x) ->
  nth_error col' i = Some (VFloat x).
Proof.
  intros H Hn. destruct (column_values_cases col col' H) as [-> | ->]; [exact Hn|].
  rewrite nth_error_map, Hn. reflexivity.
Qed.

(** A column without floats keeps its values. *)
Lemma column_values_no_float col col' :
  existsb is_float col = false -> column_values col = Ok col' -> col' = col.
Proof.
  intros E. unfold column_values.
  destruct (object_column col false false); simpl; [|discriminate].
  rewrite E, andb_false_r. simpl. intros [= <-]. reflexivity.
Qed.

Lemma frame_columns_keys (data cols : Table) :
  frame_columns data = Ok cols -> Dict.keys cols = Dict.keys data.
Proof.
  revert cols. induction data as [|[k col] rest IH]; intros cols; simpl.
  - intros [= <-]. reflexivity.
  - destruct (column_values col) as [col'|]; simpl; [|discriminate].
    destruct (frame_columns rest) as [rest'|]; simpl; [|discriminate].
    intros [= <-]. simpl. f_equal. apply IH. reflexivity.
Qed.

Lemma frame_columns_get name (data cols : Table) :
  frame_columns data = Ok cols ->
  match Dict.get name data with
  | Some raw => exists col, column_values raw = Ok col /\ Dict.get name cols = Some col
  | None => Dict.get name cols = None
  end.
Proof.
  revert cols. induction data as [|[k col] rest IH]; intros cols; simpl.
  - intros [= <-]. reflexivity.
  - destruct (column_values col) as [col'|] eqn:Ecol; simpl; [|discriminate].
    destruct (frame_columns rest) as [rest'|]; simpl; [|discriminate].
    intros [= <-]. simpl. destruct (String.eqb name k); [eauto|].
    apply IH. reflexivity.
Qed.

Lemma make_dataframe_Ok ts df :
  make_dataframe ts = Ok df ->
  frame_columns ts = Ok (df_columns df) /\
  forall name col, In (name, col) ts -> List.length col = df_rows df.
Proof.
  unfold make_dataframe. destruct ts as [|[k col] rest].
  - intros [= <-]. split; [reflexivity | intros ? ? []].
  - destruct (forallb _ rest) eqn:E; [|discriminate].
    destruct (frame_columns ((k, col) :: rest)) as [cols|]; simpl; [|discriminate].
    intros [= <-]. split; [reflexivity|].
    simpl. intros name col' [[= _ <-]|Hin]; [reflexivity|].
    rewrite forallb_forall in E. specialize (E _ Hin). simpl in E.
    apply Nat.eqb_eq in E. exact E.
Qed.

(** Every sample of a run is yielded by a node of the order at a step of the
    loop from the table that the earlier samples have produced; without the
    exclusion flag, the returned frame is made from the table after all
    samples. *)
Lemma generate_samples env d a r log :
  run_generate env d a = (r, log) ->
  (log = [] /\ exists e, r = Err e /\ prepare env d a = Err e) \/
  exists order ts2,
    prepare env d a = Ok (order, ts2) /\
    (forall time_col, dict_getitem (time_column_name a) ts2 = Ok time_col ->
       each_after
         (fun l1 s => exists n time,
              In n order /\ In (time, at_timestep s) (loop_steps d a time_col) /\
              yields env (replacement_value_for_non_existing_parents a)
                (table_after ts2 l1) (List.length l1) time (at_timestep s) n s) log) /\
    (dict_getitem (time_column_name a) ts2 = Err (KeyError (time_column_name a)) -> log = []) /\
    (forall df, r = Ok df -> make_dataframe (table_after ts2 log) = Ok df).
Proof.
  unfold run_generate, generate. intros Hg.
  apply bind_inv in Hg as [[[order ts2] [log1 [Hp Hg]]]|[e [Hp ->]]];
    apply lift_inv in Hp as [Hp ->]; [|left; eauto].
  right. exists order, ts2. split; [auto|]. simpl in Hg.
  apply bind_inv in Hg as [[time_col [log1 [Htc Hg]]]|[e [Htc ->]]];
    apply lift_inv in Htc as [Htc ->].
  2:{ unfold dict_getitem in *. destruct (Dict.get (time_column_name a) ts2); [discriminate|].
      inversion Htc; subst. split; [|split]; [discriminate | reflexivity | discriminate]. }
  rewrite <- Htc. revert Hg.
  set (P := fun (l1 : list sample) (s : sample) => exists n time,
              In n order /\ In (time, at_timestep s) (loop_steps d a time_col) /\
              yields env (replacement_value_for_non_existing_parents a)
                (table_after ts2 l1) (List.length l1) time (at_timestep s) n s).
  assert (HP : forall log0 s n time t,
             In n order -> In (time, t) (loop_steps d a time_col) ->
             yields env (replacement_value_for_non_existing_parents a)
               (table_after ts2 log0) (List.length log0) time t n s -> P log0 s).
  { intros log0 s n time t Hn Hst Hy. exists n, time.
    pose proof Hy as [_ [Hy2 _]]. rewrite Hy2. auto. }
  assert (Hloop : forall res log3,
             sample_steps env (replacement_value_for_non_existing_parents a) order
               (loop_steps d a time_col) ts2 [] = (res, log3) ->
             each_after P log3 /\ (forall ts', res = Ok ts' -> ts' = table_after ts2 log3)).
  { intros res log3 Hrun.
    exact (sample_steps_inv env _ ts2 P order (loop_steps d a time_col) HP
             (loop_steps d a time_col) ts2 [] res log3 (fun st H => H) Hrun eq_refl
             (each_after_nil P)). }
  intros Hg.
  apply bind_inv in Hg as [[ts3 [log3 [Hrun Hg]]]|[e [Hrun ->]]];
    apply Hloop in Hrun as [Hlog Hts].
  - assert (Hlog' : log = log3 /\ forall df, r = Ok df -> make_dataframe ts3 = Ok df).
    { apply bind_inv in Hg as [[df [log4 [Hdf Hg]]]|[e [Hdf ->]]];
        apply lift_inv in Hdf as [Hdf ->].
      - destruct (exclude_temporal_nodes_from_output a).
        + apply lift_inv in Hg as [-> ->]. split; [reflexivity|]. discriminate.
        + inversion Hg; subst. split; [reflexivity|]. intros df' [= <-].
          destruct (make_dataframe ts3); simpl in Hdf; [|discriminate].
          congruence.
      - split; [reflexivity | discriminate]. }
    destruct Hlog' as [E Hdf]. rewrite E. split; [|split].
    + intros tc' [= <-]. exact Hlog.
    + discriminate.
    + intros df Hr. rewrite <- (Hts ts3 eq_refl). exact (Hdf df Hr).
  - split; [|split]; [intros tc' [= <-]; exact Hlog | discriminate | discriminate].
Qed.

(** ** Lagged parent values *)

Lemma lookup_parent_before_start ts t r pk :
  t - snd pk < 0 -> lookup_parent ts t r pk = Ok r.
Proof.
  intros Hneg. unfold lookup_parent.
  destruct (Z.leb_spec 0 (t - snd pk)); [lia | reflexivity].
Qed.

Lemma lookup_parent_history ts t r pk v :
  0 <= t - snd pk -> lookup_parent ts t r pk = Ok v ->
  exists col, Dict.get (fst pk) ts = Some col /\ py_getitem col (t - snd pk) = Ok v.
Proof.
  intros Hpos. unfold lookup_parent, dict_getitem.
  destruct (Z.leb_spec 0 (t - snd pk)); [|lia].
  destruct (Dict.get (fst pk) ts) as [col|]; simpl; [|discriminate]. eauto.
Qed.

Lemma parentwise_values_spec ts t r parents : forall acc pv,
  parentwise_values ts t r parents acc = Ok pv ->
  (forall pk, In pk parents ->
     exists v, lookup_parent ts t r pk = Ok v /\ Dict.get pk pv = Some v) /\
  (forall pk, ~ In pk parents -> Dict.get pk pv = Dict.get pk acc).
Proof.
  induction parents as [|pk0 rest IH]; intros acc pv; simpl.
  - intros [= <-]. split; [tauto | reflexivity].
  - destruct (lookup_parent ts t r pk0) as [v0|] eqn:E0; simpl; [|discriminate].
    intros Hrest. destruct (IH _ _ Hrest) as [IH1 IH2]. split.
    + intros pk Hin. destruct (in_dec key_eq_dec pk rest) as [Hr|Hr]; [auto|].
      destruct Hin as [->|Hin]; [|contradiction].
      exists v0. split; [exact E0|]. rewrite (IH2 _ Hr). apply get_set_same.
    + intros pk Hnot. rewrite IH2 by tauto. apply get_set_other. intros ->. tauto.
Qed.

(** The mapping built by the inner loop over the parents, from any table at
    any timestep. *)
Lemma parentwise_values_lagged ts t r parents pv :
  parentwise_values ts t r parents [] = Ok pv ->
  forall p lag, In (p, lag) parents ->
    (t - lag < 0 ->
     lookup_parent ts t r (p, lag) = Ok r /\ Dict.get (p, lag) pv = Some r) /\
    (0 <= t - lag ->
     exists col v,
       Dict.get p ts = Some col /\ py_getitem col (t - lag) = Ok v /\
       Dict.get (p, lag) pv = Some v).
Proof.
  intros Hvals p lag Hpl.
  destruct (proj1 (parentwise_values_spec _ _ _ _ _ _ Hvals) (p, lag) Hpl) as [v [Hv Hg]].
  split.
  - intros Hneg. split; [apply lookup_parent_before_start; exact Hneg|].
    rewrite lookup_parent_before_start in Hv by exact Hneg.
    inversion Hv; subst v. exact Hg.
  - intros Hpos.
    apply lookup_parent_history in Hv as [col [Hcol Hv]]; [|exact Hpos].
    exists col, v. auto.
Qed.

(** A stored sample of a non-temporal node comes from the mapping built
    from the table that holds the values stored before it. *)
Lemma regular_sample_inputs env d a r log l1 s l2 pv :
  run_generate env d a = (r, log) ->
  log = l1 ++ s :: l2 ->
  input s = FromParents pv ->
  exists order ts2 name parents cpd,
    prepare env d a = Ok (order, ts2) /\
    In (RegularNode name parents cpd) order /\ at_node s = name /\
    parentwise_values (table_after ts2 l1) (at_timestep s)
      (replacement_value_for_non_existing_parents a) parents [] = Ok pv /\
    call_cpd cpd pv (omega env (List.length l1)) = Ok (output s).
Proof.
  intros Hrun Hlog Hin.
  apply generate_samples in Hrun as [[-> _]|[order [ts2 [Hp [Hs [Hnone _]]]]]].
  { destruct l1; discriminate. }
  exists order, ts2.
  destruct (dict_getitem (time_column_name a) ts2) as [time_col|e] eqn:Etc.
  2:{ unfold dict_getitem in Etc.
      destruct (Dict.get (time_column_name a) ts2); [discriminate|].
      inversion Etc; subst e. rewrite (Hnone eq_refl) in Hlog.
      destruct l1; discriminate. }
  destruct (Hs time_col eq_refl l1 s l2 Hlog) as [n [time [Hn [_ Hy]]]].
  destruct Hy as [Hname [_ [_ Hy]]].
  destruct n as [name parents cpd|name tf]; simpl in Hy, Hname.
  2:{ destruct Hy as [Hy _]. rewrite Hy in Hin. discriminate. }
  destruct Hy as [pv' [Hpv' [Hvals Hcall]]].
  rewrite Hpv' in Hin. inversion Hin; subst pv'.
  exists name, parents, cpd. auto.
Qed.

(** Each sample of a run was stored successfully in the table that held the
    samples before it. *)
Lemma sample_stored env d a r log la s lb order ts2 :
  run_generate env d a = (r, log) ->
  log = la ++ s :: lb ->
  prepare env d a = Ok (order, ts2) ->
  exists ts', store (table_after ts2 la) (at_node s) (at_timestep s) (output s) = Ok ts'.
Proof.
  intros Hrun Hlog Hp.
  apply generate_samples in Hrun as [[-> _]|[order' [ts2' [Hp' [Hs [Hnone _]]]]]].
  { destruct la; discriminate. }
  rewrite Hp in Hp'. inversion Hp'; subst order' ts2'.
  destruct (dict_getitem (time_column_name a) ts2) as [time_col|e] eqn:Etc.
  2:{ unfold dict_getitem in Etc.
      destruct (Dict.get (time_column_name a) ts2); [discriminate|].
      inversion Etc; subst e. rewrite (Hnone eq_refl) in Hlog.
      destruct la; discriminate. }
  destruct (Hs time_col eq_refl la s lb Hlog) as [n [time [_ [_ Hy]]]].
  destruct Hy as [Hname [_ [[ts' Hst] _]]]. rewrite Hname. eauto.
Qed.

(** ** The empty mapping as initial values *)

Lemma fresh_table_get d n name :
  In name (Dict.keys (nodes d)) ->
  Dict.get name (fresh_table d n) = Some (repeat zero_point_zero (Z.to_nat n)).
Proof.
  unfold fresh_table. induction (Dict.keys (nodes d)) as [|k l IH]; simpl; [tauto|].
  intros Hin. destruct (String.eqb name k) eqn:E.
  - apply String.eqb_eq in E. subst. reflexivity.
  - apply IH. destruct Hin as [->|Hin]; [|exact Hin].
    rewrite String.eqb_refl in E. discriminate.
Qed.

Lemma fresh_table_keys d n : Dict.keys (fresh_table d n) = Dict.keys (nodes d).
Proof.
  unfold fresh_table, Dict.keys. rewrite map_map. simpl. apply map_id.
Qed.

Lemma rows_kept_refl k ts : rows_kept k ts ts.
Proof. intros name col Hg. eauto. Qed.

Lemma rows_kept_trans k ts1 ts2 ts3 :
  rows_kept k ts1 ts2 -> rows_kept k ts2 ts3 -> rows_kept k ts1 ts3.
Proof.
  intros H12 H23 name col Hg.
  destruct (H12 _ _ Hg) as [col2 [Hg2 E2]].
  destruct (H23 _ _ Hg2) as [col3 [Hg3 E3]].
  exists col3. split; [exact Hg3|]. intros i Hi. rewrite E3, E2; auto.
Qed.

Lemma norm_index_nonneg i len j :
  0 <= i -> norm_index i len = Some j -> j = Z.to_nat i /\ (j < len)%nat.
Proof.
  unfold norm_index. intros Hi.
  destruct (Z.ltb_spec i 0); [lia|].
  destruct (Z.leb_spec 0 i); [|lia]. simpl.
  destruct (Z.ltb_spec i (Z.of_nat len)); [|discriminate].
  intros [= <-]. split; [reflexivity | lia].
Qed.

Lemma store_rows_kept k ts name t v ts' :
  0 <= k <= t -> store ts name t v = Ok ts' -> rows_kept k ts ts'.
Proof.
  intros Hk. unfold store, dict_getitem, py_setitem.
  destruct (Dict.get name ts) as [col|] eqn:Ecol; simpl; [|discriminate].
  destruct (norm_index t (List.length col)) as [j|] eqn:Ej; simpl; [|discriminate].
  intros [= <-]. apply norm_index_nonneg in Ej as [-> Hlt]; [|lia].
  intros name' col0 Hg. destruct (string_dec name' name) as [->|N].
  - rewrite get_set_same. eexists. split; [reflexivity|].
    intros i Hi. rewrite Ecol in Hg. inversion Hg; subst col0.
    rewrite nth_error_app1.
    + rewrite nth_error_firstn.
      destruct (Nat.ltb_spec i (Z.to_nat t)); [reflexivity | lia].
    + rewrite length_firstn. lia.
  - rewrite get_set_other by exact N. eauto.
Qed.

Lemma apply_sample_rows_kept k ts s :
  0 <= k <= at_timestep s -> rows_kept k ts (apply_sample ts s).
Proof.
  intros Hk. unfold apply_sample.
  destruct (store ts (at_node s) (at_timestep s) (output s)) eqn:E.
  - eapply store_rows_kept; eauto.
  - apply rows_kept_refl.
Qed.

Lemma table_after_rows_kept k log : forall ts,
  0 <= k -> (forall s, In s log -> k <= at_timestep s) ->
  rows_kept k ts (table_after ts log).
Proof.
  induction log as [|s log IH]; intros ts Hk Hlog; simpl.
  - apply rows_kept_refl.
  - eapply rows_kept_trans.
    + apply (apply_sample_rows_kept k ts s). split; [exact Hk|]. apply Hlog. left; reflexivity.
    + apply IH; [exact Hk|]. intros s' Hs'. apply Hlog. right; exact Hs'.
Qed.

Lemma py_range_In a b t : In t (py_range a b) -> a <= t < b.
Proof.
  unfold py_range. rewrite in_map_iff. intros [i [<- Hi]].
  apply in_seq in Hi. lia.
Qed.

(** The samples of a run are stored at timesteps from the starting one on. *)
Lemma samples_from_start env d a r log s :
  run_generate env d a = (r, log) -> In s log ->
  starting_timestep_for_evaluation d a <= at_timestep s < n_steps a.
Proof.
  intros Hrun Hin.
  apply generate_samples in Hrun as [[-> _]|[order [ts2 [Hp [Hs [Hnone _]]]]]]; [destruct Hin|].
  destruct (dict_getitem (time_column_name a) ts2) as [time_col|e] eqn:Etc.
  - apply in_split in Hin as [l1 [l2 Hlog]].
    destruct (Hs time_col eq_refl l1 s l2 Hlog) as [n [time [_ [Hstep _]]]].
    unfold loop_steps in Hstep. apply in_combine_r in Hstep.
    apply py_range_In in Hstep. exact Hstep.
  - unfold dict_getitem in Etc. destruct (Dict.get (time_column_name a) ts2); [discriminate|].
    inversion Etc; subst e. rewrite (Hnone eq_refl) in Hin. destruct Hin.
Qed.

(** C10, as amended: with the empty mapping as initial values the block on
    the initial values is skipped (the prepared table is the fresh one plus
    the time column, and no error on the initial values can arise), every
    sample is stored at a timestep from [max_lag] on, and in the returned
    table every node column not named like the time column still holds 0.0
    in its rows below [max_lag]. *)
Theorem empty_initial_values_skip_the_window env d a r log :
  initial_values a = Some [] ->
  0 <= max_lag d ->
  run_generate env d a = (r, log) ->
  (forall e, r = Err e -> is_initial_values_error e = false)
  /\ (forall order ts2, prepare env d a = Ok (order, ts2) ->
        exists axis, time_axis env a = Ok axis /\
                     ts2 = Dict.set (time_column_name a) axis (fresh_table d (n_steps a)))
  /\ (forall s, In s log -> max_lag d <= at_timestep s)
  /\ (forall df, r = Ok df ->
      forall name, In name (Dict.keys (nodes d)) -> name <> time_column_name a ->
      exists col, Dict.get name (df_columns df) = Some col /\
                  forall i, Z.of_nat i < max_lag d -> Z.of_nat i < n_steps a ->
                            nth_error col i = Some (VFloat 0%float)).
Proof.
  intros Hiv Hlag Hrun.
  assert (Hstart : starting_timestep_for_evaluation d a = max_lag d).
  { unfold starting_timestep_for_evaluation. rewrite Hiv. reflexivity. }
  assert (Hprep : forall order ts2, prepare env d a = Ok (order, ts2) ->
             exists axis, time_axis env a = Ok axis /\
                          ts2 = Dict.set (time_column_name a) axis (fresh_table d (n_steps a))).
  { intros order ts2. unfold prepare. rewrite Hiv.
    destruct (time_axis env a) as [axis|]; simpl; [|discriminate].
    destruct (get_topological_order d); simpl; [|discriminate].
    intros [= _ <-]. eauto. }
  assert (Hsamples : forall s, In s log -> max_lag d <= at_timestep s).
  { intros s Hs. rewrite <- Hstart. eapply samples_from_start; eauto. }
  split; [|split; [exact Hprep|split; [exact Hsamples|]]].
  - intros e ->. pose proof Hrun as Hrun'. unfold run_generate in Hrun'.
    apply generate_inv in Hrun' as [[e' [Hp [[= <-] _]]]|[p [_ Hplain]]].
    + apply prepare_Err in Hp
        as [Hax | [[axis [_ Hord]] | [axis [order [item [items [_ [_ [Hiv' _]]]]]]]]].
      * apply time_axis_raises in Hax as [[_ [_ ->]]|[[_ [_ ->]]|[_ [_ [x ->]]]]]; reflexivity.
      * apply get_topological_order_plain in Hord.
        unfold plain in Hord. destruct e as [[]| | | | | |]; simpl in *; congruence.
      * congruence.
    + specialize (Hplain e eq_refl).
      unfold plain in Hplain. destruct e as [[]| | | | | |]; simpl in *; congruence.
  - intros df ->. intros name Hname Hneq.
    pose proof Hrun as Hrun'.
    apply generate_samples in Hrun' as [[_ [e [[=] _]]]|[order [ts2 [Hp [_ [_ Hdf]]]]]].
    pose proof (proj1 (make_dataframe_Ok _ _ (Hdf df eq_refl))) as Hcols.
    destruct (Hprep _ _ Hp) as [axis [_ ->]].
    destruct (table_after_rows_kept (max_lag d) log
                (Dict.set (time_column_name a) axis (fresh_table d (n_steps a)))
                Hlag Hsamples name (repeat zero_point_zero (Z.to_nat (n_steps a))))
      as [raw [Hraw Hrows]].
    { rewrite get_set_other by exact Hneq. apply fresh_table_get. exact Hname. }
    pose proof (frame_columns_get name _ _ Hcols) as Hget. rewrite Hraw in Hget.
    destruct Hget as [col [Hcol Hget]].
    exists col. split; [exact Hget|].
    intros i Hi Hn. apply (column_values_float raw col i _ Hcol).
    rewrite (Hrows i Hi). apply nth_error_repeat. lia.
Qed.

Lemma empty_initial_values_skip_the_window_witness :
  match fst (run_generate Ex.env Ex.chain (ExRuns.empty_initial_values 3)) with
  | Ok df => exists col, Dict.get "B" (df_columns df) = Some col /\
                         nth_error col 0 = Some (VFloat 0%float)
  | Err _ => False
  end.
Proof.
  pose proof (empty_initial_values_skip_the_window Ex.env Ex.chain
                (ExRuns.empty_initial_values 3)
                (fst (run_generate Ex.env Ex.chain (ExRuns.empty_initial_values 3)))
                (snd (run_generate Ex.env Ex.chain (ExRuns.empty_initial_values 3)))
                eq_refl ltac:(vm_compute; discriminate) (surjective_pairing _))
    as [_ [_ [_ H]]].
  destruct (fst (run_generate Ex.env Ex.chain (ExRuns.empty_initial_values 3)))
    as [df|e] eqn:E.
  - destruct (H df eq_refl "B") as [col [Hcol Hrows]].
    + simpl. tauto.
    + discriminate.
    + exists col. split; [exact Hcol|]. apply Hrows; vm_compute; reflexivity.
  - vm_compute in E. discriminate.
Defined.

(** C10 as stated fails when a node is named like the time column: the
    column of the node [Time] (with [max_lag] 2) starts with the time axis
    (as floats in the frame, since the column mixes the integers of the axis
    with a float sample), and its row 1 holds 1.0 instead of 0.0. *)
Lemma empty_initial_values_time_column_clash :
  initial_values (ExRuns.empty_initial_values 3) = Some []
  /\ max_lag Ex.clash = 2
  /\ Dict.keys (nodes Ex.clash) = ["Time"]
  /\ fst (run_generate Ex.env Ex.clash (ExRuns.empty_initial_values 3))
     = Ok {| df_columns := [("Time", [VFloat 0%float; VFloat 1%float; VFloat 5%float])];
             df_rows := 3 |}.
Proof. repeat split. Qed.

(** ** The checks on the initial values *)

Lemma dedup_In l x : In x (dedup l) <-> In x l.
Proof.
  induction l as [|y l IH]; simpl; [tauto|].
  destruct (memb y l) eqn:E.
  - apply memb_In in E. rewrite IH. split; [auto|]. intros [<-|H]; auto.
  - simpl. rewrite IH. tauto.
Qed.

Lemma insert_by_rank_In rank x l y : In y (insert_by_rank rank x l) <-> y = x \/ In y l.
Proof.
  induction l as [|z l IH]; simpl.
  - intuition congruence.
  - destruct (rank x <=? rank z)%nat; simpl; [intuition congruence|].
    rewrite IH. intuition congruence.
Qed.

Lemma set_iter_In env l x : In x (set_iter env l) <-> In x l.
Proof.
  unfold set_iter. rewrite <- (dedup_In l x).
  induction (dedup l) as [|y l' IH]; simpl; [tauto|].
  rewrite insert_by_rank_In, IH. intuition congruence.
Qed.

Lemma subsetb_spec a b : subsetb a b = true <-> (forall x, In x a -> In x b).
Proof.
  unfold subsetb. rewrite forallb_forall. split; intros Hs x Hx.
  - apply memb_In. auto.
  - apply memb_In. auto.
Qed.

Lemma same_set_spec a b : same_set a b = true <-> (forall x, In x a <-> In x b).
Proof.
  unfold same_set. rewrite andb_true_iff, !subsetb_spec. split.
  - intros [Hab Hba] x. split; auto.
  - intros Hs. split; intros x; apply Hs.
Qed.

Lemma set_minus_In a b x : In x (set_minus a b) <-> In x a /\ ~ In x b.
Proof.
  unfold set_minus. rewrite filter_In, negb_true_iff, memb_not_In. tauto.
Qed.

Lemma wf_names d :
  dbn_wf d -> map node_name (Dict.values (nodes d)) = Dict.keys (nodes d).
Proof.
  intros [_ Hname]. unfold Dict.values, Dict.keys.
  induction (nodes d) as [|[k n] l IH]; simpl; [reflexivity|].
  rewrite (Hname k n (or_introl eq_refl)). f_equal. apply IH.
  intros k' n' Hin. apply Hname. right; exact Hin.
Qed.

Lemma wf_values_In d n :
  dbn_wf d -> In n (Dict.values (nodes d)) <-> In (node_name n, n) (nodes d).
Proof.
  intros [_ Hname]. unfold Dict.values. rewrite in_map_iff. split.
  - intros [[k n'] [<- Hin]]. simpl. rewrite (Hname _ _ Hin). exact Hin.
  - intros Hin. exists (node_name n, n). auto.
Qed.

Lemma time_feature_window_length tf times w :
  time_feature_window tf times = Ok w -> List.length w = List.length times.
Proof.
  revert w. induction times as [|time rest IH]; intros w; simpl.
  - intros [= <-]. reflexivity.
  - destruct (call_time_feature tf time); simpl; [|discriminate].
    destruct (time_feature_window tf rest); simpl; [|discriminate].
    intros [= <-]. simpl. f_equal. apply IH. reflexivity.
Qed.

(** The back-fill gives each temporal node its window and leaves the other
    entries alone. *)
Lemma backfill_temporal_spec lag tc ts col all : forall iv,
  Dict.get tc ts = Some col ->
  NoDup (map node_name all) ->
  (forall name tf, In (TemporalNode name tf) all ->
     exists w, time_feature_window tf (py_slice_to col lag) = Ok w) ->
  exists iv',
    backfill_temporal lag tc ts all iv = Ok iv' /\
    (forall name tf, In (TemporalNode name tf) all ->
       exists w, time_feature_window tf (py_slice_to col lag) = Ok w /\
                 Dict.get name iv' = Some w) /\
    (forall name, (forall tf, ~ In (TemporalNode name tf) all) ->
       Dict.get name iv' = Dict.get name iv).
Proof.
  intros iv Hcol. revert iv.
  induction all as [|n rest IH]; intros iv ND Hw; simpl.
  - exists iv. split; [reflexivity|]. split; [intros ? ? []|reflexivity].
  - inversion ND as [|? ? Hn ND']; subst.
    destruct n as [name parents cpd|name tf].
    + destruct (IH iv ND') as [iv' [Hb [Ht Ho]]].
      { intros name' tf' Hin. apply (Hw name' tf'). right; exact Hin. }
      exists iv'. split; [exact Hb|]. split.
      * intros name' tf' [Hin|Hin]; [discriminate | eauto].
      * intros name' Hnot. apply Ho. intros tf' Hin. apply (Hnot tf'). right; exact Hin.
    + unfold dict_getitem. rewrite Hcol. simpl.
      destruct (Hw name tf (or_introl eq_refl)) as [w Hwin]. rewrite Hwin. simpl.
      destruct (IH (Dict.set name w iv) ND') as [iv' [Hb [Ht Ho]]].
      { intros name' tf' Hin. apply (Hw name' tf'). right; exact Hin. }
      exists iv'. split; [exact Hb|]. split.
      * intros name' tf' [[= -> ->]|Hin]; [|eauto].
        exists w. split; [exact Hwin|]. rewrite Ho.
        -- apply get_set_same.
        -- intros tf0 Hin0. apply Hn.
           apply (in_map node_name) in Hin0. exact Hin0.
      * intros name' Hnot. rewrite Ho.
        -- apply get_set_other. intros ->. apply (Hnot tf). left; reflexivity.
        -- intros tf' Hin. apply (Hnot tf'). right; exact Hin.
Qed.

Lemma seed_table_result lag iv names : forall ts,
  (forall name, In name names -> In name (Dict.keys iv)) ->
  (forall name, In name names -> In name (Dict.keys ts)) ->
  (exists ts', seed_table lag iv names ts = Ok ts' /\
     forall name, In name names ->
       exists entry, Dict.get name iv = Some entry /\ Z.of_nat (List.length entry) = lag) \/
  (exists name entry,
     In name names /\ Dict.get name iv = Some entry /\
     Z.of_nat (List.length entry) <> lag /\
     seed_table lag iv names ts
     = Err (ValueError (UnexpectedLength lag name (Z.of_nat (List.length entry))))).
Proof.
  induction names as [|name rest IH]; intros ts Hiv Hts; simpl.
  - left. exists ts. split; [reflexivity | intros ? []].
  - destruct (keys_get iv name (Hiv name (or_introl eq_refl))) as [entry Hentry].
    destruct (keys_get ts name (Hts name (or_introl eq_refl))) as [col Hcol].
    unfold dict_getitem. rewrite Hentry. simpl.
    destruct (Z.eqb_spec (Z.of_nat (List.length entry)) lag) as [Hlen|Hlen]; simpl.
    + rewrite Hcol. simpl.
      destruct (IH (Dict.set name (py_slice_assign_to col lag entry) ts)) as
        [[ts' [Hok Hall]]|[name' [entry' [Hin [Hg [Hne Herr]]]]]].
      * intros name' Hin. apply Hiv. right; exact Hin.
      * intros name' Hin. apply keys_set_In. right. apply Hts. right; exact Hin.
      * left. exists ts'. split; [exact Hok|].
        intros name' [<-|Hin]; [eauto | auto].
      * right. exists name', entry'. repeat split; auto.
    + right. exists name, entry. repeat split; auto.
Qed.

Lemma prepare_fails_before_sampling env d a e :
  prepare env d a = Err e -> run_generate env d a = (Err e, []).
Proof.
  intros Hp. unfold run_generate, generate, bind, lift. rewrite Hp. reflexivity.
Qed.

Lemma wf_unique_node d name n n' :
  dbn_wf d -> In (name, n) (nodes d) -> In (name, n') (nodes d) -> n = n'.
Proof.
  intros [ND _] H1 H2.
  apply (In_get_nodup _ _ _ ND) in H1. apply (In_get_nodup _ _ _ ND) in H2. congruence.
Qed.

(** C5, as amended: in a call with a non-empty mapping of initial values that reaches the
    block on the initial values (valid start/frequency pair, orderable
    network, time features that evaluate on the first [max_lag] entries of
    the time axis), the mapping [iv'] that is checked gives every temporal
    node the window derived from those entries and every other name the
    entry supplied by the caller.  A non-temporal node without an entry
    makes the call fail, before any sample, with the error that names
    exactly the missing nodes; an entry of a length other than [max_lag]
    makes the call fail, before any sample, with an error on the initial
    values, which names [max_lag] and the length found as soon as no name is
    missing or unknown; and when nothing is missing, unknown or mis-sized the
    preparation succeeds, the temporal nodes never having to be supplied. *)
Theorem initial_values_are_checked env d a iv axis order :
  dbn_wf d ->
  initial_values a = Some iv -> iv <> [] ->
  time_axis env a = Ok axis ->
  get_topological_order d = Ok order ->
  (forall name tf, In (name, TemporalNode name tf) (nodes d) ->
     exists w, time_feature_window tf (py_slice_to axis (max_lag d)) = Ok w) ->
  exists iv',
    (forall name tf, In (name, TemporalNode name tf) (nodes d) ->
       exists w, time_feature_window tf (py_slice_to axis (max_lag d)) = Ok w /\
                 Dict.get name iv' = Some w)
    /\ (forall name, (forall tf, ~ In (name, TemporalNode name tf) (nodes d)) ->
          Dict.get name iv' = Dict.get name iv)
    /\ ((exists name n, In (name, n) (nodes d) /\ is_temporal n = false /\
                        Dict.get name iv = None) ->
        exists missing,
          run_generate env d a = (Err (ValueError (NodesNotProvided missing)), []) /\
          forall x, In x missing <->
                    exists n, In (x, n) (nodes d) /\ is_temporal n = false /\
                              Dict.get x iv = None)
    /\ ((exists name entry, In name (Dict.keys (nodes d)) /\
                            Dict.get name iv' = Some entry /\
                            Z.of_nat (List.length entry) <> max_lag d) ->
        exists e,
          run_generate env d a = (Err e, []) /\ is_initial_values_error e = true /\
          ((forall x, In x (Dict.keys (nodes d)) <-> In x (Dict.keys iv')) ->
           exists name entry,
             In name (Dict.keys (nodes d)) /\ Dict.get name iv' = Some entry /\
             Z.of_nat (List.length entry) <> max_lag d /\
             e = ValueError (UnexpectedLength (max_lag d) name
                               (Z.of_nat (List.length entry)))))
    /\ ((forall x, In x (Dict.keys (nodes d)) <-> In x (Dict.keys iv')) ->
        (forall name entry, In name (Dict.keys (nodes d)) ->
           Dict.get name iv' = Some entry -> Z.of_nat (List.length entry) = max_lag d) ->
        exists ts2, prepare env d a = Ok (order, ts2)).
Proof.
  intros Hwf Hiv Hne Hax Hord Hwin.
  set (ts1 := Dict.set (time_column_name a) axis (fresh_table d (n_steps a))).
  assert (Hcol : Dict.get (time_column_name a) ts1 = Some axis) by apply get_set_same.
  destruct (backfill_temporal_spec (max_lag d) (time_column_name a) ts1 axis
              (Dict.values (nodes d)) iv Hcol) as [iv' [Hback [Htemp Hother]]].
  { rewrite wf_names by exact Hwf. apply Hwf. }
  { intros name tf Hin. apply (Hwin name tf).
    apply (wf_values_In d (TemporalNode name tf) Hwf). exact Hin. }
  assert (Hprep : prepare env d a
                  = (if negb (same_set (Dict.keys (nodes d)) (Dict.keys iv'))
                     then Err (ValueError (NodesNotProvided
                            (set_iter env (set_minus (Dict.keys (nodes d)) (Dict.keys iv')))))
                     else (ts2 <- seed_table (max_lag d) iv'
                                    (set_iter env (Dict.keys (nodes d))) ts1 ;;
                           Ok (order, ts2))%result)).
  { unfold prepare. rewrite Hax, Hord, Hiv. simpl.
    destruct iv as [|item items]; [congruence|].
    unfold use_initial_values. fold ts1. rewrite Hback. simpl.
    destruct (negb (same_set (Dict.keys (nodes d)) (Dict.keys iv'))); reflexivity. }
  assert (Hreg : forall name n, In (name, n) (nodes d) -> is_temporal n = false ->
                                Dict.get name iv' = Dict.get name iv).
  { intros name n Hin Hnt. apply Hother. intros tf Hin'.
    apply (wf_values_In d (TemporalNode name tf) Hwf) in Hin'. simpl in Hin'.
    rewrite (wf_unique_node d name n _ Hwf Hin Hin') in Hnt. discriminate. }
  assert (Hmissing : forall x,
             In x (set_iter env (set_minus (Dict.keys (nodes d)) (Dict.keys iv'))) <->
             exists n, In (x, n) (nodes d) /\ is_temporal n = false /\ Dict.get x iv = None).
  { intros x. rewrite set_iter_In, set_minus_In. split.
    - intros [Hx Hnot]. apply get_None_keys in Hnot.
      apply keys_get in Hx as [n Hn]. apply get_In in Hn.
      exists n. split; [exact Hn|].
      destruct n as [name parents cpd|name tf].
      + split; [reflexivity|]. rewrite <- (Hreg _ _ Hn eq_refl). exact Hnot.
      + assert (name = x) by (apply (proj2 Hwf _ _ Hn)). subst name.
        destruct (Htemp x tf) as [w [_ Hw]].
        { apply (wf_values_In d (TemporalNode x tf) Hwf). exact Hn. }
        congruence.
    - intros [n [Hn [Hnt Hnone]]]. split.
      + apply (in_map fst) in Hn. exact Hn.
      + apply get_None_keys. rewrite (Hreg _ _ Hn Hnt). exact Hnone. }
  assert (Hts1 : forall name, In name (set_iter env (Dict.keys (nodes d))) ->
                              In name (Dict.keys ts1)).
  { intros name Hin. apply set_iter_In in Hin. unfold ts1.
    apply keys_set_In. right. rewrite fresh_table_keys. exact Hin. }
  exists iv'. split; [|split; [|split; [|split]]].
  2:{ intros name Hnot. apply Hother. intros tf Hin. apply (Hnot tf).
      apply (wf_values_In d (TemporalNode name tf) Hwf) in Hin. exact Hin. }
  - intros name tf Hin. apply Htemp.
    apply (wf_values_In d (TemporalNode name tf) Hwf). exact Hin.
  - intros [name [n [Hn [Hnt Hnone]]]].
    exists (set_iter env (set_minus (Dict.keys (nodes d)) (Dict.keys iv'))).
    split; [|exact Hmissing].
    apply prepare_fails_before_sampling. rewrite Hprep.
    destruct (same_set (Dict.keys (nodes d)) (Dict.keys iv')) eqn:Esame; [|reflexivity].
    exfalso. rewrite same_set_spec in Esame.
    assert (Hk : In name (Dict.keys iv')).
    { apply Esame. apply (in_map fst) in Hn. exact Hn. }
    apply keys_get in Hk as [entry Hk]. rewrite (Hreg _ _ Hn Hnt) in Hk. congruence.
  - intros [name [entry [Hname [Hentry Hlen]]]].
    destruct (same_set (Dict.keys (nodes d)) (Dict.keys iv')) eqn:Esame.
    + pose proof (proj1 (same_set_spec _ _) Esame) as Hs.
      destruct (seed_table_result (max_lag d) iv' (set_iter env (Dict.keys (nodes d))) ts1)
        as [[ts' [_ Hall]]|[name' [entry' [Hin' [Hg' [Hne' Herr]]]]]].
      * intros x Hx. apply Hs. apply set_iter_In in Hx. exact Hx.
      * exact Hts1.
      * exfalso. destruct (Hall name) as [entry0 [Hg0 Hl0]].
        { apply set_iter_In. exact Hname. }
        rewrite Hentry in Hg0. inversion Hg0; subst entry0. contradiction.
      * exists (ValueError (UnexpectedLength (max_lag d) name'
                            (Z.of_nat (List.length entry')))).
        split; [|split; [reflexivity|]].
        -- apply prepare_fails_before_sampling. rewrite Hprep.
           simpl. rewrite Herr. reflexivity.
        -- intros _. exists name', entry'. apply set_iter_In in Hin'. auto.
    + exists (ValueError (NodesNotProvided
                (set_iter env (set_minus (Dict.keys (nodes d)) (Dict.keys iv'))))).
      split; [|split; [reflexivity|]].
      * apply prepare_fails_before_sampling. rewrite Hprep. reflexivity.
      * intros Hsame. rewrite (proj2 (same_set_spec _ _) Hsame) in Esame. discriminate.
  - intros Hsame Hlens. rewrite Hprep.
    rewrite (proj2 (same_set_spec _ _) Hsame). simpl.
    destruct (seed_table_result (max_lag d) iv' (set_iter env (Dict.keys (nodes d))) ts1)
      as [[ts' [Hok _]]|[name' [entry' [Hin' [Hg' [Hne' _]]]]]].
    + intros x Hx. apply Hsame. apply set_iter_In in Hx. exact Hx.
    + exact Hts1.
    + rewrite Hok. simpl. eauto.
    + exfalso. apply Hne'. apply (Hlens name' entry'); [|exact Hg'].
      apply set_iter_In in Hin'. exact Hin'.
Qed.

Lemma set_In_inv {K V} `{EqKeyLaw K} (d : Dict.t K V) k0 v k v' :
  In (k, v') (Dict.set k0 v d) -> (k = k0 /\ v' = v) \/ In (k, v') d.
Proof.
  induction d as [|[k1 v1] d IH]; simpl.
  - intros [[= <- <-]|[]]. auto.
  - destruct (keyb k0 k1) eqn:E; simpl.
    + apply keyb_eq in E. subst k1. intros [[= <- <-]|Hin]; auto.
    + intros [Heq|Hin]; [auto|]. destruct (IH Hin); auto.
Qed.

Lemma add_node_wf n d : dbn_wf d -> dbn_wf (add_node n d).
Proof.
  intros [ND Hname]. split; simpl.
  - apply keys_set_nodup. exact ND.
  - intros k n' Hin. apply set_In_inv in Hin as [[-> ->]|Hin]; [reflexivity | auto].
Qed.

Lemma dbn_of_wf l : dbn_wf (dbn_of l).
Proof.
  unfold dbn_of.
  assert (G : forall d, dbn_wf d -> dbn_wf (fold_left (fun d n => add_node n d) l d)).
  { induction l as [|n l IH]; intros d Hd; simpl; [exact Hd|].
    apply IH. apply add_node_wf. exact Hd. }
  apply G. split; simpl; [constructor | intros ? ? []].
Qed.

Lemma initial_values_are_checked_witness :
  (exists e, run_generate Ex.env ExWindow.net ExWindow.too_long = (Err e, []) /\
             is_initial_values_error e = true)
  /\ (exists missing,
        run_generate Ex.env ExWindow.net ExWindow.without_z
        = (Err (ValueError (NodesNotProvided missing)), []) /\ In "Z" missing).
Proof.
  assert (Hwin : forall name tf,
             In (name, TemporalNode name tf) (nodes ExWindow.net) ->
             exists w, time_feature_window tf
                         (py_slice_to (map VInt (py_range 0 3)) (max_lag ExWindow.net))
                       = Ok w).
  { intros name tf [Hin|[Hin|[]]]; inversion Hin; subst. eexists. reflexivity. }
  split.
  - destruct (initial_values_are_checked Ex.env ExWindow.net ExWindow.too_long
                [("Z", [VFloat 1%float; VFloat 2%float])] (map VInt (py_range 0 3))
                [Ex.node_t; ExWindow.node_z]
                (dbn_of_wf _) eq_refl ltac:(discriminate) eq_refl eq_refl Hwin)
      as [iv' [_ [Hother [_ [Hlen _]]]]].
    destruct Hlen as [e [Hrun [He _]]]; [|eauto].
    exists "Z", [VFloat 1%float; VFloat 2%float]. split; [simpl; tauto|]. split.
    + rewrite Hother; [reflexivity|].
      intros tf [Hin|[Hin|[]]]; inversion Hin.
    + vm_compute. discriminate.
  - destruct (initial_values_are_checked Ex.env ExWindow.net ExWindow.without_z
                [("Q", [VFloat 1%float])] (map VInt (py_range 0 3))
                [Ex.node_t; ExWindow.node_z]
                (dbn_of_wf _) eq_refl ltac:(discriminate) eq_refl eq_refl Hwin)
      as [iv' [_ [_ [Hmiss _]]]].
    destruct Hmiss as [missing [Hrun Hin]].
    + exists "Z", ExWindow.node_z. split; [simpl; tauto|]. split; reflexivity.
    + exists missing. split; [exact Hrun|]. apply Hin.
      exists ExWindow.node_z. split; [simpl; tauto|]. split; reflexivity.
Defined.

(** ** The topological sort *)

Lemma filter_without_one {A} (f g : A -> bool) (x : A) (l : list A) :
  NoDup l -> In x l -> f x = true -> g x = false ->
  (forall y, y <> x -> g y = f y) ->
  S (List.length (filter g l)) = List.length (filter f l).
Proof.
  intros ND Hin Hfx Hgx Hext. induction l as [|y l IH]; simpl; [destruct Hin|].
  inversion ND as [|? ? Hn ND']; subst. destruct Hin as [->|Hin].
  - rewrite Hfx, Hgx. simpl. f_equal. apply f_equal. apply filter_ext_in.
    intros z Hz. apply Hext. intros ->. contradiction.
  - assert (y <> x) by (intros ->; contradiction).
    rewrite (Hext y H). destruct (f y); simpl; rewrite <- (IH ND' Hin); reflexivity.
Qed.

Lemma remaining_In E D v e :
  In e (remaining E D v) <-> In e E /\ snd e = v /\ ~ In e D.
Proof.
  unfold remaining. rewrite filter_In, andb_true_iff, negb_true_iff, memb_not_In.
  rewrite (keyb_eq (snd e) v). tauto.
Qed.

Lemma remaining_relax_target E D u c :
  NoDup E -> In (u, c) E -> ~ In (u, c) D ->
  S (List.length (remaining E ((u, c) :: D) c)) = List.length (remaining E D c).
Proof.
  intros ND Hin Hnot. unfold remaining.
  apply (filter_without_one _ _ (u, c)); auto.
  - simpl. rewrite String.eqb_refl. simpl. apply negb_true_iff, memb_not_In. exact Hnot.
  - simpl. rewrite !String.eqb_refl. reflexivity.
  - intros y Hy. f_equal. f_equal. simpl.
    assert (E0 : keyb y (u, c) = false) by (apply keyb_neq; exact Hy).
    simpl in E0. rewrite E0. reflexivity.
Qed.

Lemma remaining_relax_other E D u c v :
  v <> c -> remaining E ((u, c) :: D) v = remaining E D v.
Proof.
  intros Hne. unfold remaining. apply filter_ext. intros [a b]. simpl.
  destruct (String.eqb b v) eqn:Eb; simpl; [|reflexivity].
  apply String.eqb_eq in Eb. subst b.
  assert (E0 : String.eqb v c = false) by (apply String.eqb_neq; exact Hne).
  rewrite E0, andb_false_r. reflexivity.
Qed.

Lemma remaining_relax_incl E D x v e :
  In e (remaining E (x :: D) v) -> In e (remaining E D v).
Proof. rewrite !remaining_In. simpl. tauto. Qed.

Lemma get_del_same {V} (m : Dict.t string V) k :
  NoDup (Dict.keys m) -> Dict.get k (Dict.del k m) = None.
Proof.
  intros ND. apply get_None_keys. intros Hin.
  apply keys_del_In in Hin; [|exact ND]. tauto.
Qed.

Lemma ordered_by_snoc E out c :
  ordered_by E out -> (forall u, In (u, c) E -> In u out) -> ordered_by E (out ++ [c]).
Proof.
  intros Ho Hc l1 v l2 Hsplit u Hin.
  destruct l2 as [|y l2].
  - apply app_inj_tail in Hsplit as [-> ->]. auto.
  - destruct (@exists_last _ (y :: l2)) as [l2' [z E2]]; [discriminate|].
    rewrite E2 in Hsplit.
    change (l1 ++ v :: l2' ++ [z]) with (l1 ++ (v :: l2') ++ [z]) in Hsplit.
    rewrite app_assoc in Hsplit. apply app_inj_tail in Hsplit as [-> _].
    eapply Ho; eauto.
Qed.

Lemma nodup_tagged_filter {A B} (g : A -> B) (f : A * B -> bool) (l : list A) :
  NoDup l -> NoDup (map fst (filter f (map (fun v => (v, g v)) l))).
Proof.
  induction l as [|x l IH]; intros ND; simpl; [constructor|].
  inversion ND as [|? ? Hx ND']; subst.
  destruct (f (x, g x)); simpl; [|apply IH; exact ND'].
  constructor; [|apply IH; exact ND']. intros Hin. apply Hx.
  apply in_map_iff in Hin as [[x' b] [Hf Hin]]. simpl in Hf. subst x'.
  apply filter_In in Hin as [Hin _]. apply in_map_iff in Hin as [x0 [E0 H0]].
  inversion E0; subst. exact H0.
Qed.

Section Kahn.
Variable G : nx.DiGraph.
Hypothesis Gwf : graph_wf G.

(** One execution of the body of the loop over the children of [u]. *)
Lemma relax_step D out m N u c :
  kahn_inv G D out m -> In u out -> In (u, c) (nx.edges G) -> ~ In (u, c) D ->
  exists m' newz,
    nx.relax (m, N) c = Ok (m', N ++ newz) /\
    kahn_inv G ((u, c) :: D) (out ++ newz) m' /\
    (List.length m' + List.length newz = List.length m)%nat.
Proof.
  intros I Hu Hedge Hnew.
  assert (Hrem : In (u, c) (remaining (nx.edges G) D c)).
  { apply remaining_In. auto. }
  assert (HcZ : ~ In c out).
  { intros HcZ. rewrite (inv_done I c HcZ) in Hrem. destruct Hrem. }
  assert (Hcm : In c (Dict.keys m)).
  { destruct (proj1 (inv_cover I c)) as [H|H]; [|contradiction|exact H].
    apply (wf_endpoints Gwf u c Hedge). }
  destruct (keys_get m c Hcm) as [dg Hdg].
  destruct (inv_degree I c dg Hdg) as [Hdeg Hpos].
  pose proof (remaining_relax_target (nx.edges G) D u c (wf_edges Gwf) Hedge Hnew) as Hcount.
  unfold nx.relax. rewrite Hdg.
  destruct (Z.eqb_spec (dg - 1) 0) as [Hz|Hnz].
  - exists (Dict.del c m), [c]. split; [reflexivity|]. split.
    + constructor.
      * apply NoDup_app; [apply (inv_Z_nodup I) | repeat constructor; simpl; tauto |].
        intros x Hx [<-|[]]. contradiction.
      * apply keys_del_nodup, (inv_m_nodup I).
      * intros v. rewrite (inv_cover I v), in_app_iff, keys_del_In by apply (inv_m_nodup I).
        simpl. destruct (string_dec v c) as [->|Hvc]; [tauto|]. intuition congruence.
      * intros v Hv Hk. apply keys_del_In in Hk as [Hne Hk]; [|apply (inv_m_nodup I)].
        apply in_app_iff in Hv as [Hv|[<-|[]]]; [|congruence].
        exact (inv_disjoint I v Hv Hk).
      * intros e [<-|He]; [exact Hedge | apply (inv_relaxed I); exact He].
      * intros v dg' Hg. destruct (string_dec v c) as [->|Hvc].
        -- rewrite get_del_same in Hg by apply (inv_m_nodup I). discriminate.
        -- rewrite get_del_other in Hg by exact Hvc.
           rewrite remaining_relax_other by exact Hvc. apply (inv_degree I v dg' Hg).
      * intros v Hv. apply in_app_iff in Hv as [Hv|[<-|[]]].
        -- pose proof (inv_done I v Hv) as Hd.
           destruct (remaining (nx.edges G) ((u, c) :: D) v) as [|e l] eqn:Er; [reflexivity|].
           assert (Hin : In e (remaining (nx.edges G) D v)).
           { apply (remaining_relax_incl _ D (u, c)). rewrite Er. left; reflexivity. }
           rewrite Hd in Hin. destruct Hin.
        -- destruct (remaining (nx.edges G) ((u, c) :: D) c); [reflexivity|].
           simpl in Hcount. lia.
      * intros x y [[= <- <-]|Hin]; apply in_app_iff; left;
          [exact Hu | exact (inv_sources I x y Hin)].
      * apply ordered_by_snoc; [apply (inv_order I)|].
        intros u' Hin'. destruct (in_dec key_eq_dec (u', c) D) as [HD|HD].
        -- exact (inv_sources I u' c HD).
        -- destruct (key_eq_dec (u', c) (u, c)) as [[= ->]|Hne]; [exact Hu|].
           exfalso.
           assert (Hr : In (u', c) (remaining (nx.edges G) ((u, c) :: D) c)).
           { apply remaining_In. simpl. intuition congruence. }
           destruct (remaining (nx.edges G) ((u, c) :: D) c); [destruct Hr|].
           simpl in Hcount. lia.
    + simpl. rewrite <- (length_del m c Hcm). lia.
  - exists (Dict.set c (dg - 1) m), []. rewrite app_nil_r.
    split; [reflexivity|]. split.
    + constructor.
      * rewrite app_nil_r. apply (inv_Z_nodup I).
      * apply keys_set_nodup, (inv_m_nodup I).
      * intros v. rewrite app_nil_r, (inv_cover I v), keys_set_In.
        destruct (string_dec v c) as [->|Hvc]; tauto.
      * intros v Hv Hk. rewrite app_nil_r in Hv. apply keys_set_In in Hk as [->|Hk].
        -- contradiction.
        -- exact (inv_disjoint I v Hv Hk).
      * intros e [<-|He]; [exact Hedge | apply (inv_relaxed I); exact He].
      * intros v dg' Hg. destruct (string_dec v c) as [->|Hvc].
        -- rewrite get_set_same in Hg. inversion Hg; subst dg'. lia.
        -- rewrite get_set_other in Hg by exact Hvc.
           rewrite remaining_relax_other by exact Hvc. apply (inv_degree I v dg' Hg).
      * intros v Hv. rewrite app_nil_r in Hv. pose proof (inv_done I v Hv) as Hd.
        destruct (remaining (nx.edges G) ((u, c) :: D) v) as [|e l] eqn:Er; [reflexivity|].
        assert (Hin : In e (remaining (nx.edges G) D v)).
        { apply (remaining_relax_incl _ D (u, c)). rewrite Er. left; reflexivity. }
        rewrite Hd in Hin. destruct Hin.
      * intros x y [[= <- <-]|Hin]; rewrite app_nil_r;
          [exact Hu | exact (inv_sources I x y Hin)].
      * rewrite app_nil_r. apply (inv_order I).
    + simpl. rewrite (length_set_present m c (dg - 1) Hcm). lia.
Qed.

Lemma relax_all_step u cs : forall D out m N,
  kahn_inv G D out m -> In u out -> NoDup cs ->
  (forall c, In c cs -> In (u, c) (nx.edges G) /\ ~ In (u, c) D) ->
  exists m' newz D',
    nx.relax_all (m, N) cs = Ok (m', N ++ newz) /\
    kahn_inv G D' (out ++ newz) m' /\
    (List.length m' + List.length newz = List.length m)%nat /\
    (forall e, In e D' <-> In e D \/ (fst e = u /\ In (snd e) cs)).
Proof.
  induction cs as [|c cs IH]; intros D out m N I Hu ND Hcs.
  - exists m, [], D. rewrite !app_nil_r.
    split; [reflexivity|]. split; [exact I|]. split; [simpl; lia|].
    intros e. simpl. tauto.
  - inversion ND as [|? ? Hc ND']; subst.
    destruct (Hcs c (or_introl eq_refl)) as [Hedge Hnew].
    destruct (relax_step D out m N u c I Hu Hedge Hnew) as [m1 [nz1 [Hr [I1 Hlen1]]]].
    change (nx.relax_all (m, N) (c :: cs))
      with (st' <- nx.relax (m, N) c ;; nx.relax_all st' cs)%result.
    rewrite Hr. simpl.
    destruct (IH ((u, c) :: D) (out ++ nz1) m1 (N ++ nz1) I1) as
      [m' [nz2 [D' [Hr2 [I2 [Hlen2 HD']]]]]].
    + apply in_app_iff. left; exact Hu.
    + exact ND'.
    + intros c' Hc'. destruct (Hcs c' (or_intror Hc')) as [He Hn]. split; [exact He|].
      intros [[= ->]|Hin]; contradiction.
    + exists m', (nz1 ++ nz2), D'. rewrite !app_assoc.
      split; [exact Hr2|]. split; [exact I2|]. split; [rewrite length_app; lia|].
      intros e. rewrite HD'. simpl. split.
      * intros [[<-|He]|[Hf Hs]];
          [right; simpl; auto | left; exact He | right; auto].
      * intros [He|[Hf [Hs|Hs]]];
          [left; right; exact He
          | left; left; destruct e; simpl in *; congruence
          | right; auto].
Qed.

Lemma neighbors_In u c : In c (nx.neighbors G u) <-> In (u, c) (nx.edges G).
Proof.
  unfold nx.neighbors. rewrite in_map_iff. split.
  - intros [[a b] [<- Hin]]. apply filter_In in Hin as [Hin Ha]. simpl in *.
    apply String.eqb_eq in Ha. subst. exact Hin.
  - intros Hin. exists (u, c). split; [reflexivity|]. apply filter_In.
    split; [exact Hin | apply String.eqb_refl].
Qed.

Lemma neighbors_nodup u : NoDup (nx.neighbors G u).
Proof.
  unfold nx.neighbors. pose proof (wf_edges Gwf) as ND.
  induction (nx.edges G) as [|[a b] l IH]; simpl; [constructor|].
  inversion ND as [|? ? Hn ND']; subst.
  destruct (String.eqb a u) eqn:Ea; simpl; [|auto].
  apply String.eqb_eq in Ea. subst a. constructor; [|auto].
  intros Hin. apply in_map_iff in Hin as [[a' b'] [Hb Hin]]. simpl in Hb. subst b'.
  apply filter_In in Hin as [Hin Ha]. simpl in Ha. apply String.eqb_eq in Ha. subst a'.
  contradiction.
Qed.

Lemma process_generation_step gen : forall P N D m,
  kahn_outer G P (gen ++ N) D m ->
  exists m' newz D',
    nx.process_generation G (m, N) gen = Ok (m', N ++ newz) /\
    kahn_outer G (P ++ gen) (N ++ newz) D' m' /\
    (List.length m' + List.length newz = List.length m)%nat.
Proof.
  induction gen as [|u rest IH]; intros P N D m K.
  - exists m, [], D. rewrite !app_nil_r. simpl in K. auto.
  - destruct (relax_all_step u (nx.neighbors G u) D (P ++ (u :: rest) ++ N) m N
                (out_inv K)) as [m1 [nz1 [D1 [Hr [I1 [Hlen1 HD1]]]]]].
    + apply in_app_iff. right. left; reflexivity.
    + apply neighbors_nodup.
    + intros c Hc. apply neighbors_In in Hc. split; [exact Hc|].
      intros HD. pose proof (out_sources K u c HD) as HuP.
      pose proof (inv_Z_nodup (out_inv K)) as ND. simpl in ND.
      apply NoDup_remove_2 in ND. apply ND. apply in_app_iff. left; exact HuP.
    + change (nx.process_generation G (m, N) (u :: rest))
        with (st' <- nx.relax_all (m, N) (nx.neighbors G u) ;;
              nx.process_generation G st' rest)%result.
      rewrite Hr. simpl.
      destruct (IH (P ++ [u]) (N ++ nz1) D1 m1) as [m' [nz2 [D' [Hr2 [K2 Hlen2]]]]].
      * constructor.
        -- replace ((P ++ [u]) ++ rest ++ N ++ nz1) with ((P ++ (u :: rest) ++ N) ++ nz1);
             [exact I1|].
           rewrite <- ?app_assoc. simpl. rewrite <- ?app_assoc. reflexivity.
        -- intros x y Hin. apply HD1 in Hin as [Hin|[Hf _]]; apply in_app_iff.
           ++ left. exact (out_sources K x y Hin).
           ++ right. simpl in Hf. left. symmetry; exact Hf.
        -- intros x y Hin Hx. apply HD1. apply in_app_iff in Hx as [Hx|[<-|[]]].
           ++ left. exact (out_processed K x y Hin Hx).
           ++ right. split; [reflexivity|]. apply neighbors_In. exact Hin.
      * exists m', (nz1 ++ nz2), D'. split; [|split].
        -- rewrite Hr2. rewrite app_assoc. reflexivity.
        -- replace (P ++ u :: rest) with ((P ++ [u]) ++ rest)
             by (rewrite <- app_assoc; reflexivity).
           rewrite app_assoc. exact K2.
        -- rewrite length_app. lia.
Qed.

Lemma stuck_keys P D m :
  kahn_outer G P [] D m -> m <> [] -> stuck (nx.edges G) (Dict.keys m).
Proof.
  intros K Hne. split.
  - destruct m; [congruence | discriminate].
  - intros v Hv. destruct (keys_get m v Hv) as [dg Hdg].
    destruct (inv_degree (out_inv K) v dg Hdg) as [Hdeg Hpos].
    destruct (remaining (nx.edges G) D v) as [|[u v'] l] eqn:Er; [simpl in Hdeg; lia|].
    assert (Hin : In (u, v') (remaining (nx.edges G) D v)) by (rewrite Er; left; reflexivity).
    apply remaining_In in Hin as [HE [Hv' HD]]. simpl in Hv'. subst v'.
    exists u. split; [|exact HE].
    destruct (proj1 (inv_cover (out_inv K) u)) as [HP|Hk].
    + apply (wf_endpoints Gwf u v HE).
    + exfalso. apply HD. rewrite app_nil_r in HP. exact (out_processed K u v HE HP).
    + exact Hk.
Qed.

Lemma generations_spec fuel : forall P gen D m,
  kahn_outer G P gen D m -> (gen = [] \/ (List.length m < fuel)%nat) ->
  (exists gens,
      nx.generations fuel G m gen = Ok gens /\
      NoDup (P ++ List.concat gens) /\
      (forall v, In v (nx.vertices G) <-> In v (P ++ List.concat gens)) /\
      ordered_by (nx.edges G) (P ++ List.concat gens)) \/
  (nx.generations fuel G m gen = Err unfeasible /\ exists S, stuck (nx.edges G) S).
Proof.
  induction fuel as [|fuel IH]; intros P gen D m K Hfuel.
  - destruct gen as [|u rest]; [|destruct Hfuel; [discriminate | lia]].
    simpl. destruct m as [|kv m].
    + left. exists []. simpl. split; [reflexivity|].
      pose proof (out_inv K) as I. split; [apply (inv_Z_nodup I)|]. split.
      * intros v. rewrite (inv_cover I v). simpl. tauto.
      * apply (inv_order I).
    + right. split; [reflexivity|]. exists (Dict.keys (kv :: m)).
      apply (stuck_keys P D); [exact K | discriminate].
  - destruct gen as [|u rest].
    + simpl. destruct m as [|kv m].
      * left. exists []. simpl. split; [reflexivity|].
        pose proof (out_inv K) as I. split; [apply (inv_Z_nodup I)|]. split.
        -- intros v. rewrite (inv_cover I v). simpl. tauto.
        -- apply (inv_order I).
      * right. split; [reflexivity|]. exists (Dict.keys (kv :: m)).
        apply (stuck_keys P D); [exact K | discriminate].
    + destruct Hfuel as [Hfuel|Hfuel]; [discriminate|].
      destruct (process_generation_step (u :: rest) P [] D m) as
        [m' [newz [D' [Hp [K' Hlen]]]]].
      { rewrite app_nil_r. exact K. }
      change (nx.generations (S fuel) G m (u :: rest))
        with (st <- nx.process_generation G (m, []) (u :: rest) ;;
              rest' <- nx.generations fuel G (fst st) (snd st) ;;
              Ok ((u :: rest) :: rest'))%result.
      rewrite Hp. simpl.
      destruct (IH (P ++ u :: rest) newz D' m' K') as
        [[gens [Hg [Hnd [Hcov Hord]]]]|[Hg Hstuck]].
      * destruct newz; [left; reflexivity | right; simpl in Hlen; lia].
      * left. exists ((u :: rest) :: gens). rewrite Hg. simpl.
        split; [reflexivity|].
        replace (P ++ u :: rest ++ List.concat gens)
          with ((P ++ u :: rest) ++ List.concat gens)
          by (rewrite <- app_assoc; reflexivity).
        auto.
      * right. rewrite Hg. simpl. auto.
Qed.

Lemma in_degree_remaining v :
  nx.in_degree G v = Z.of_nat (List.length (remaining (nx.edges G) [] v)).
Proof.
  unfold nx.in_degree, remaining. do 2 f_equal. apply filter_ext.
  intros e. simpl. rewrite andb_true_r. reflexivity.
Qed.

Lemma initial_outer :
  kahn_outer G [] 
    (map fst (filter (fun vd => snd vd =? 0)
                (map (fun v => (v, nx.in_degree G v)) (nx.vertices G))))
    []
    (filter (fun vd => 0 <? snd vd)
       (map (fun v => (v, nx.in_degree G v)) (nx.vertices G))).
Proof.
  set (degrees := map (fun v => (v, nx.in_degree G v)) (nx.vertices G)).
  assert (Hzero : forall v, In v (map fst (filter (fun vd => snd vd =? 0) degrees)) <->
                            In v (nx.vertices G) /\ nx.in_degree G v = 0).
  { intros v. rewrite in_map_iff. split.
    - intros [[v' dg] [<- Hin]]. apply filter_In in Hin as [Hin Hdg]. simpl in *.
      apply in_map_iff in Hin as [v0 [[= <- <-] Hv0]]. split; [exact Hv0 | lia].
    - intros [Hv Hdg]. exists (v, nx.in_degree G v). split; [reflexivity|].
      apply filter_In. split; [|simpl; lia].
      apply in_map_iff. exists v. auto. }
  assert (Hpos : forall v dg, In (v, dg) (filter (fun vd => 0 <? snd vd) degrees) <->
                              In v (nx.vertices G) /\ dg = nx.in_degree G v /\ 0 < dg).
  { intros v dg. rewrite filter_In. simpl. unfold degrees. rewrite in_map_iff. split.
    - intros [[v0 [[= <- <-] Hv0]] Hdg]. repeat split; [exact Hv0 | lia].
    - intros [Hv [-> Hdg]]. split; [exists v; auto | lia]. }
  assert (Hkeys : forall v, In v (Dict.keys (filter (fun vd => 0 <? snd vd) degrees)) <->
                            In v (nx.vertices G) /\ 0 < nx.in_degree G v).
  { intros v. unfold Dict.keys. rewrite in_map_iff. split.
    - intros [[v' dg] [<- Hin]]. apply Hpos in Hin as [Hv [-> Hdg]]. auto.
    - intros [Hv Hdg]. exists (v, nx.in_degree G v). split; [reflexivity|].
      apply Hpos. auto. }
  assert (Hnd : forall f, NoDup (map fst (filter f degrees))).
  { intros f. unfold degrees. apply nodup_tagged_filter. apply (wf_vertices Gwf). }
  assert (Hdeg_nonneg : forall v, 0 <= nx.in_degree G v).
  { intros v. unfold nx.in_degree. lia. }
  constructor; [constructor| |].
  - simpl. apply Hnd.
  - apply (Hnd (fun vd => 0 <? snd vd)).
  - intros v. simpl. rewrite Hzero, Hkeys. specialize (Hdeg_nonneg v).
    split; [intros Hv | intros [[Hv _]|[Hv _]]; exact Hv].
    destruct (Z.eq_dec (nx.in_degree G v) 0); [left | right]; split; auto; lia.
  - intros v Hv Hk. simpl in Hv. apply Hzero in Hv as [_ Hz]. apply Hkeys in Hk as [_ Hp]. lia.
  - intros e [].
  - intros v dg Hg. apply get_In in Hg. apply Hpos in Hg as [_ [-> Hdg]].
    split; [apply in_degree_remaining | exact Hdg].
  - intros v Hv. simpl in Hv. apply Hzero in Hv as [_ Hz].
    rewrite in_degree_remaining in Hz.
    destruct (remaining (nx.edges G) [] v); [reflexivity | simpl in Hz; lia].
  - intros u v [].
  - intros l1 v l2 Hsplit u Hin. simpl in Hsplit. exfalso.
    assert (Hv : In v (map fst (filter (fun vd => snd vd =? 0) degrees))).
    { rewrite Hsplit. apply in_app_iff. right. left; reflexivity. }
    apply Hzero in Hv as [_ Hz]. rewrite in_degree_remaining in Hz.
    assert (Hr : In (u, v) (remaining (nx.edges G) [] v)).
    { apply remaining_In. simpl. auto. }
    destruct (remaining (nx.edges G) [] v); [destruct Hr | simpl in Hz; lia].
  - intros u v [].
  - intros u v _ [].
Qed.

(** The sort either returns the vertices, each once, every edge pointing
    forward, or fails as unfeasible, and then on a graph in which some set of
    vertices is stuck. *)
Lemma topological_sort_spec :
  (exists order,
      nx.topological_sort G = Ok order /\ NoDup order /\
      (forall v, In v (nx.vertices G) <-> In v order) /\
      ordered_by (nx.edges G) order) \/
  (nx.topological_sort G = Err unfeasible /\ exists S, stuck (nx.edges G) S).
Proof.
  unfold nx.topological_sort, nx.topological_generations.
  set (degrees := map (fun v => (v, nx.in_degree G v)) (nx.vertices G)).
  destruct (generations_spec
              (S (List.length (filter (fun vd => 0 <? snd vd) degrees))) []
              (map fst (filter (fun vd => snd vd =? 0) degrees)) []
              (filter (fun vd => 0 <? snd vd) degrees) initial_outer)
    as [[gens [Hg [Hnd [Hcov Hord]]]]|[Hg Hstuck]].
  - right. lia.
  - left. exists (List.concat gens). rewrite Hg. simpl. auto.
  - right. rewrite Hg. simpl. auto.
Qed.
End Kahn.

(** A set stuck under a relation contains a cycle of the relation. *)
Lemma stuck_cycle (R : string -> string -> Prop) (S : list string) :
  S <> [] ->
  (forall v, In v S -> exists u, In u S /\ clos_trans string R u v) ->
  exists a, clos_trans string R a a.
Proof.
  induction S as [|v S IH]; intros Hne Hpred; [congruence|].
  destruct (Hpred v (or_introl eq_refl)) as [u [[<-|Hu] Huv]]; [eauto|].
  apply IH.
  - intros ->. destruct Hu.
  - intros x Hx. destruct (Hpred x (or_intror Hx)) as [y [[<-|Hy] Hyx]].
    + exists u. split; [exact Hu|]. eapply t_trans; eauto.
    + eauto.
Qed.

(** In an order that every edge respects, no vertex reaches itself. *)
Lemma ordered_acyclic E order :
  NoDup order -> ordered_by E order ->
  (forall u v, In (u, v) E -> In v order) ->
  forall a, ~ clos_trans string (fun u v => In (u, v) E) a a.
Proof.
  intros ND Hord Hin.
  assert (Hbefore : forall u v, clos_trans string (fun u v => In (u, v) E) u v ->
                      In v order /\ forall l1 l2, order = l1 ++ v :: l2 -> In u l1).
  { intros u v Huv. induction Huv as [u v Hstep|u w v _ [_ IH1] _ [Hv IH2]].
    - split; [eapply Hin; eauto|]. intros l1 l2 Hsplit. eapply Hord; eauto.
    - split; [exact Hv|]. intros l1 l2 Hsplit.
      pose proof (IH2 l1 l2 Hsplit) as Hw.
      apply in_split in Hw as [l1a [l1b ->]].
      apply in_app_iff. left. apply (IH1 l1a (l1b ++ v :: l2)).
      rewrite Hsplit, <- app_assoc. reflexivity. }
  intros a Hcyc. destruct (Hbefore a a Hcyc) as [Ha Hsplit].
  apply in_split in Ha as [l1 [l2 Hs]]. pose proof (Hsplit l1 l2 Hs) as Hin1.
  rewrite Hs in ND. apply NoDup_remove_2 in ND. apply ND. apply in_app_iff. left; exact Hin1.
Qed.

(** ** The graph of the zero-lag edges *)

Lemma empty_graph_wf : graph_wf nx.empty.
Proof. constructor; simpl; [constructor | constructor | intros ? ? []]. Qed.

Lemma nx_add_node_vertices n G x :
  In x (nx.vertices (nx.add_node n G)) <-> x = n \/ In x (nx.vertices G).
Proof.
  unfold nx.add_node. destruct (memb n (nx.vertices G)) eqn:E; simpl.
  - apply memb_In in E. split; [auto|]. intros [->|H]; auto.
  - rewrite in_app_iff. simpl. intuition congruence.
Qed.

Lemma nx_add_node_edges n G : nx.edges (nx.add_node n G) = nx.edges G.
Proof. unfold nx.add_node. destruct (memb n (nx.vertices G)); reflexivity. Qed.

Lemma nx_add_node_wf n G : graph_wf G -> graph_wf (nx.add_node n G).
Proof.
  intros W. constructor.
  - unfold nx.add_node. destruct (memb n (nx.vertices G)) eqn:E; simpl.
    + apply (wf_vertices W).
    + apply memb_not_In in E. apply NoDup_app; [apply (wf_vertices W) | |].
      * repeat constructor. simpl; tauto.
      * intros x Hx [<-|[]]. contradiction.
  - rewrite nx_add_node_edges. apply (wf_edges W).
  - intros u v. rewrite nx_add_node_edges, !nx_add_node_vertices. intros Hin.
    destruct (wf_endpoints W u v Hin). auto.
Qed.

Lemma nx_add_edge_vertices u v G x :
  In x (nx.vertices (nx.add_edge u v G)) <-> x = u \/ x = v \/ In x (nx.vertices G).
Proof.
  unfold nx.add_edge.
  destruct (memb (u, v) (nx.edges (nx.add_node v (nx.add_node u G)))); simpl;
    rewrite !nx_add_node_vertices; tauto.
Qed.

Lemma nx_add_edge_edges u v G e :
  In e (nx.edges (nx.add_edge u v G)) <-> e = (u, v) \/ In e (nx.edges G).
Proof.
  unfold nx.add_edge.
  destruct (memb (u, v) (nx.edges (nx.add_node v (nx.add_node u G)))) eqn:E; simpl.
  - apply memb_In in E. rewrite !nx_add_node_edges in *. split; [auto|].
    intros [->|H]; auto.
  - rewrite in_app_iff, !nx_add_node_edges. simpl. intuition congruence.
Qed.

Lemma nx_add_edge_wf u v G : graph_wf G -> graph_wf (nx.add_edge u v G).
Proof.
  intros W. pose proof (nx_add_node_wf v _ (nx_add_node_wf u G W)) as W1.
  constructor.
  - unfold nx.add_edge.
    destruct (memb (u, v) (nx.edges (nx.add_node v (nx.add_node u G)))); simpl;
      apply (wf_vertices W1).
  - unfold nx.add_edge.
    destruct (memb (u, v) (nx.edges (nx.add_node v (nx.add_node u G)))) eqn:E; simpl.
    + apply (wf_edges W1).
    + apply memb_not_In in E. apply NoDup_app; [apply (wf_edges W1) | |].
      * repeat constructor. simpl; tauto.
      * intros x Hx [<-|[]]. contradiction.
  - intros a b. rewrite nx_add_edge_edges, !nx_add_edge_vertices.
    intros [[= -> ->]|Hin]; [tauto|].
    destruct (wf_endpoints W a b Hin). tauto.
Qed.

Lemma add_nodes_spec names : forall G,
  graph_wf G ->
  let G' := fold_left (fun G name => nx.add_node name G) names G in
  graph_wf G' /\ nx.edges G' = nx.edges G /\
  (forall x, In x (nx.vertices G') <-> In x (nx.vertices G) \/ In x names).
Proof.
  induction names as [|n names IH]; intros G W; simpl.
  - split; [exact W|]. split; [reflexivity|]. intros x. tauto.
  - destruct (IH (nx.add_node n G) (nx_add_node_wf n G W)) as [W' [He Hv]].
    split; [exact W'|]. split; [rewrite He; apply nx_add_node_edges|].
    intros x. rewrite Hv, nx_add_node_vertices. intuition congruence.
Qed.

Lemma add_edges_to_spec c ps : forall G,
  graph_wf G ->
  let G' := fold_left (fun G p => nx.add_edge p c G) ps G in
  graph_wf G' /\
  (forall e, In e (nx.edges G') <-> In e (nx.edges G) \/ (snd e = c /\ In (fst e) ps)) /\
  (forall x, In x (nx.vertices G') <->
             In x (nx.vertices G) \/ In x ps \/ (x = c /\ ps <> [])).
Proof.
  induction ps as [|p ps IH]; intros G W; simpl.
  - split; [exact W|]. split; intros; [tauto|]. intuition congruence.
  - destruct (IH (nx.add_edge p c G) (nx_add_edge_wf p c G W)) as [W' [He Hv]].
    split; [exact W'|]. split.
    + intros e. rewrite He, nx_add_edge_edges. split.
      * intros [[->|H]|[H1 H2]]; simpl; auto.
      * intros [H|[H1 [H2|H2]]]; auto. left; left. destruct e; simpl in *; congruence.
    + intros x. rewrite Hv, nx_add_edge_vertices. split.
      * intros [[->|[->|H]]|[H|[H1 H2]]]; auto.
        -- right; right. split; [reflexivity | discriminate].
        -- right; right. split; [exact H1 | discriminate].
      * intros [H|[[->|H]|[-> _]]]; auto.
Qed.

Lemma add_zero_lag_edges_of_fold n : forall G,
  add_zero_lag_edges_of n G
  = fold_left (fun G p => nx.add_edge p (node_name n) G)
      (map fst (filter (fun pl => snd pl =? 0) (node_parents n))) G.
Proof.
  unfold add_zero_lag_edges_of.
  induction (node_parents n) as [|pl ps IH]; intros G; simpl; [reflexivity|].
  destruct (snd pl =? 0); simpl; apply IH.
Qed.

Lemma zero_lag_graph_view d :
  dbn_wf d -> zero_lag_graph d = view_graph (zero_lag_view d).
Proof.
  intros W. unfold zero_lag_graph, view_graph, add_zero_lag_edges, add_all_nodes.
  assert (Hk : map fst (zero_lag_view d) = Dict.keys (nodes d)).
  { rewrite <- (wf_names d W). unfold zero_lag_view. rewrite map_map. reflexivity. }
  rewrite Hk. generalize (fold_left (fun G name => nx.add_node name G)
                            (Dict.keys (nodes d)) nx.empty).
  unfold zero_lag_view. induction (Dict.values (nodes d)) as [|n ns IH]; intros G; simpl;
    [reflexivity|].
  rewrite add_zero_lag_edges_of_fold. apply IH.
Qed.

Lemma view_graph_spec view :
  let G := view_graph view in
  graph_wf G /\
  (forall p c, In (p, c) (nx.edges G) <-> exists ps, In (c, ps) view /\ In p ps) /\
  (forall x, In x (nx.vertices G) <->
             In x (map fst view) \/ exists y, In (x, y) (nx.edges G)).
Proof.
  unfold view_graph.
  destruct (add_nodes_spec (map fst view) nx.empty empty_graph_wf) as [W0 [He0 Hv0]].
  set (G0 := fold_left (fun G name => nx.add_node name G) (map fst view) nx.empty) in *.
  assert (Gen : forall items G,
             graph_wf G ->
             let G' := fold_left
               (fun G item => fold_left (fun G p => nx.add_edge p (fst item) G) (snd item) G)
               items G in
             graph_wf G' /\
             (forall p c, In (p, c) (nx.edges G') <->
                In (p, c) (nx.edges G) \/ exists ps, In (c, ps) items /\ In p ps) /\
             (forall x, In x (nx.vertices G') <->
                In x (nx.vertices G) \/
                (exists c ps, In (c, ps) items /\ In x ps) \/
                (exists ps, In (x, ps) items /\ ps <> []))).
  { induction items as [|[c ps] items IH]; intros G W; simpl.
    - split; [exact W|]. split; intros; split; try tauto.
      + intros [H|[ps [[] _]]]. exact H.
      + intros [H|[[c [ps [[] _]]]|[ps [[] _]]]]. exact H.
    - destruct (add_edges_to_spec c ps G W) as [W1 [He1 Hv1]].
      destruct (IH _ W1) as [W' [He Hv]]. split; [exact W'|]. split.
      + intros p c'. rewrite He, He1. simpl. split.
        * intros [[H|[-> H]]|[ps' [H1 H2]]]; eauto.
        * intros [H|[ps' [[[= -> ->]|H1] H2]]]; eauto.
      + intros x. rewrite Hv, Hv1. split.
        * intros [[H|[H|[-> H]]]|[[c' [ps' [H1 H2]]]|[ps' [H1 H2]]]]; eauto 8.
        * intros [H|[[c' [ps' [[[= -> ->]|H1] H2]]]|[ps' [[[= -> ->]|H1] H2]]]]; eauto 8. }
  destruct (Gen view G0 W0) as [W [He Hv]]. split; [exact W|]. split.
  - intros p c. rewrite He, He0. simpl. tauto.
  - intros x. rewrite Hv, Hv0. simpl. split.
    + intros [[[]|H]|[[c [ps [H1 H2]]]|[ps [H1 H2]]]].
      * auto.
      * right. exists c. apply He. right. eauto.
      * left. apply in_map_iff. exists (x, ps). auto.
    + intros [H|[y Hy]]; [auto|].
      apply He in Hy as [Hy|[ps [H1 H2]]]; [rewrite He0 in Hy; destruct Hy|].
      right; left. eauto.
Qed.

(** ** The zero-lag order of a network *)

Lemma zero_lag_edge_view d p c :
  zero_lag_edge d p c <-> exists ps, In (c, ps) (zero_lag_view d) /\ In p ps.
Proof.
  unfold zero_lag_edge, zero_lag_view. split.
  - intros [n [Hn [<- Hp]]]. eexists. split.
    + apply in_map_iff. exists n. split; [reflexivity | exact Hn].
    + apply in_map_iff. exists (p, 0). split; [reflexivity|].
      apply filter_In. split; [exact Hp | reflexivity].
  - intros [ps [Hin Hp]]. apply in_map_iff in Hin as [n [[= <- <-] Hn]].
    exists n. split; [exact Hn|]. split; [reflexivity|].
    apply in_map_iff in Hp as [[p' lag] [Hf Hin]]. simpl in Hf. subst p'.
    apply filter_In in Hin as [Hin Hlag]. simpl in Hlag.
    apply Z.eqb_eq in Hlag. subst lag. exact Hin.
Qed.

Lemma view_names d : dbn_wf d -> map fst (zero_lag_view d) = Dict.keys (nodes d).
Proof.
  intros W. rewrite <- (wf_names d W). unfold zero_lag_view. rewrite map_map. reflexivity.
Qed.

Lemma zero_lag_graph_spec d :
  dbn_wf d ->
  graph_wf (zero_lag_graph d) /\
  (forall p c, In (p, c) (nx.edges (zero_lag_graph d)) <-> zero_lag_edge d p c) /\
  (forall x, In x (nx.vertices (zero_lag_graph d)) <->
             In x (Dict.keys (nodes d)) \/ exists y, zero_lag_edge d x y).
Proof.
  intros W. rewrite (zero_lag_graph_view d W).
  destruct (view_graph_spec (zero_lag_view d)) as [Wg [He Hv]].
  split; [exact Wg|]. split.
  - intros p c. rewrite He. symmetry. apply zero_lag_edge_view.
  - intros x. rewrite Hv, (view_names d W). split.
    + intros [H|[y Hy]]; [auto|]. right. exists y. apply zero_lag_edge_view, He, Hy.
    + intros [H|[y Hy]]; [auto|]. right. exists y. apply He, zero_lag_edge_view, Hy.
Qed.

Lemma clos_trans_ext (R R' : string -> string -> Prop) a b :
  (forall u v, R u v -> R' u v) -> clos_trans string R a b -> clos_trans string R' a b.
Proof.
  intros HR H. induction H as [u v H|u w v _ IH1 _ IH2].
  - apply t_step. auto.
  - eapply t_trans; eauto.
Qed.

Lemma nodes_at_names d names :
  dbn_wf d -> ordered_names (nodes_at d names) = check_known (Dict.keys (nodes d)) names.
Proof.
  intros W. induction names as [|x names IH]; simpl; [reflexivity|].
  unfold node_at. destruct (Dict.get x (nodes d)) as [n|] eqn:Eg; simpl.
  - rewrite (proj2 (memb_In x (Dict.keys (nodes d))) (get_Some_keys _ _ _ Eg)).
    rewrite <- IH. destruct (nodes_at d names); simpl; [|reflexivity].
    apply get_In in Eg. rewrite (proj2 W _ _ Eg). reflexivity.
  - apply get_None_keys in Eg. apply memb_not_In in Eg. rewrite Eg. reflexivity.
Qed.

Lemma nodes_at_stored d names order :
  nodes_at d names = Ok order -> forall n, In n order -> In n (Dict.values (nodes d)).
Proof.
  revert order. induction names as [|x names IH]; intros order; simpl.
  - intros [= <-] n [].
  - unfold node_at. destruct (Dict.get x (nodes d)) as [n0|] eqn:Eg; simpl; [|discriminate].
    destruct (nodes_at d names) as [rest|]; simpl; [|discriminate].
    intros [= <-] n [<-|Hin].
    + apply get_In in Eg. apply (in_map snd) in Eg. exact Eg.
    + eapply IH; eauto.
Qed.

Lemma check_known_all known names :
  (forall x, In x names -> In x known) -> check_known known names = Ok names.
Proof.
  induction names as [|x names IH]; intros Hall; simpl; [reflexivity|].
  rewrite (proj2 (memb_In x known) (Hall x (or_introl eq_refl))).
  rewrite IH; [reflexivity|]. intros y Hy. apply Hall. right; exact Hy.
Qed.

Lemma get_topological_order_view d :
  dbn_wf d -> ordered_names (get_topological_order d) = order_of_view (zero_lag_view d).
Proof.
  intros W. unfold get_topological_order, order_of_view.
  rewrite <- (zero_lag_graph_view d W), (view_names d W).
  destruct (nx.topological_sort (zero_lag_graph d)) as [names|e].
  - apply nodes_at_names. exact W.
  - destruct (is_unfeasible e); reflexivity.
Qed.

(** When the sort succeeds, the zero-lag subgraph has no cycle. *)
Lemma sorted_acyclic d names :
  dbn_wf d -> nx.topological_sort (zero_lag_graph d) = Ok names -> zero_lag_acyclic d.
Proof.
  intros W Hsort. destruct (zero_lag_graph_spec d W) as [Wg [He Hv]].
  destruct (topological_sort_spec (zero_lag_graph d) Wg)
    as [[order [Ho [Hnd [Hcov Hord]]]]|[Hf _]]; [|congruence].
  intros a Hcyc.
  apply (ordered_acyclic (nx.edges (zero_lag_graph d)) order Hnd Hord) with (a := a).
  - intros u v Hin. apply Hcov. apply (wf_endpoints Wg u v Hin).
  - eapply clos_trans_ext; [|exact Hcyc]. intros u v Huv. apply He. exact Huv.
Qed.

(** C1, as amended: for a network whose zero-lag parents are all nodes of the
    network and whose zero-lag subgraph is acyclic, [get_topological_order]
    returns the stored nodes, every name exactly once, each zero-lag parent
    strictly before its child; whenever the zero-lag subgraph has a cycle it
    fails with the cycle error; and the outcome depends on the names and the
    zero-lag parents only, so that pairs of lag 1 or more neither constrain the
    order nor cause a failure. *)
Theorem topological_order_of_zero_lag_subgraph d :
  dbn_wf d ->
  (zero_lag_acyclic d ->
   (forall p c, zero_lag_edge d p c -> In p (Dict.keys (nodes d))) ->
   exists order,
     get_topological_order d = Ok order /\
     NoDup (map node_name order) /\
     (forall x, In x (map node_name order) <-> In x (Dict.keys (nodes d))) /\
     (forall n, In n order -> In n (Dict.values (nodes d))) /\
     (forall p c, zero_lag_edge d p c -> precedes (map node_name order) p c))
  /\ (has_zero_lag_cycle d -> get_topological_order d = Err (ValueError CycleDetected))
  /\ (forall d', dbn_wf d' -> zero_lag_view d' = zero_lag_view d ->
        ordered_names (get_topological_order d')
        = ordered_names (get_topological_order d)).
Proof.
  intros W. destruct (zero_lag_graph_spec d W) as [Wg [He Hv]].
  pose proof (topological_sort_spec (zero_lag_graph d) Wg) as Hspec.
  split; [|split].
  - intros Hacyc Hres.
    destruct Hspec as [[names [Hsort [Hnd [Hcov Hord]]]]|[_ [S [Hne Hstuck]]]].
    + assert (Hkeys : forall x, In x names <-> In x (Dict.keys (nodes d))).
      { intros x. rewrite <- Hcov, Hv. split; [|auto].
        intros [H|[y Hy]]; [exact H | eapply Hres; eauto]. }
      pose proof (nodes_at_names d names W) as Hn.
      rewrite check_known_all in Hn by (intros x Hx; apply Hkeys; exact Hx).
      unfold get_topological_order. rewrite Hsort.
      destruct (nodes_at d names) as [order|e] eqn:Eo; simpl in Hn; [|discriminate].
      inversion Hn as [Hmap]. exists order. rewrite Hmap.
      split; [reflexivity|]. split; [exact Hnd|]. split; [exact Hkeys|]. split.
      * apply (nodes_at_stored d names order Eo).
      * intros p c Hedge. apply He in Hedge.
        assert (Hc : In c names).
        { apply Hcov. apply (wf_endpoints Wg p c Hedge). }
        apply in_split in Hc as [l1 [l2 Hs]].
        pose proof (Hord l1 c l2 Hs p Hedge) as Hp.
        apply in_split in Hp as [l1a [l1b ->]].
        exists l1a, l1b, l2. rewrite Hs, <- app_assoc. reflexivity.
    + exfalso. destruct (stuck_cycle (zero_lag_edge d) S Hne) as [a Ha].
      * intros v Hin. destruct (Hstuck v Hin) as [u [Hu Huv]].
        exists u. split; [exact Hu|]. apply t_step. apply He. exact Huv.
      * exact (Hacyc a Ha).
  - intros [a Hcyc].
    destruct Hspec as [[names [Hsort _]]|[Hfail _]].
    + exfalso. exact (sorted_acyclic d names W Hsort a Hcyc).
    + unfold get_topological_order. rewrite Hfail. reflexivity.
  - intros d' W' Hview.
    rewrite (get_topological_order_view d' W'), (get_topological_order_view d W), Hview.
    reflexivity.
Qed.

Lemma topological_order_of_zero_lag_subgraph_witness :
  (exists order,
      get_topological_order Ex.seasonal = Ok order /\
      NoDup (map node_name order) /\
      (forall x, In x (map node_name order) <-> In x (Dict.keys (nodes Ex.seasonal))) /\
      (forall n, In n order -> In n (Dict.values (nodes Ex.seasonal))) /\
      (forall p c, zero_lag_edge Ex.seasonal p c -> precedes (map node_name order) p c))
  /\ get_topological_order Ex.broken = Err (ValueError CycleDetected).
Proof.
  split.
  - apply (proj1 (topological_order_of_zero_lag_subgraph Ex.seasonal (dbn_of_wf _))).
    + apply (sorted_acyclic Ex.seasonal ["T"; "Z"] (dbn_of_wf _)). reflexivity.
    + intros p c [n [[<-|[<-|[]]] [_ Hp]]]; simpl in Hp.
      * destruct Hp as [[= <-]|[]]. simpl. tauto.
      * destruct Hp.
  - apply (proj1 (proj2 (topological_order_of_zero_lag_subgraph Ex.broken (dbn_of_wf _)))).
    exact broken_cycle.
Defined.

(** C1 as stated fails when a zero-lag parent is not a node of the network:
    the zero-lag subgraph of [Ex.dangling], the single edge from the absent
    [A] to [B], is acyclic, and the lookup of [A] fails. *)
Lemma topological_order_dangling_parent :
  dbn_wf Ex.dangling
  /\ zero_lag_acyclic Ex.dangling
  /\ get_topological_order Ex.dangling = Err (KeyError "A").
Proof.
  split; [apply dbn_of_wf|]. split; [|reflexivity].
  apply (sorted_acyclic Ex.dangling ["A"; "B"] (dbn_of_wf _)). reflexivity.
Qed.

(** C5 as stated fails: a mis-sized entry for [A] while [B] is missing is
    answered by the error on the missing node, which names no length; and a
    mis-sized entry supplied for the temporal node [T] is replaced by the
    derived window, so that the call returns a table. *)
Lemma initial_values_unchecked_lengths :
  max_lag Ex.chain = 1
  /\ run_generate Ex.env Ex.chain ExWindow.long_a_without_b
     = (Err (ValueError (NodesNotProvided ["B"])), [])
  /\ max_lag ExWindow.net = 1
  /\ fst (run_generate Ex.env ExWindow.net ExWindow.temporal_supplied)
     = Ok {| df_columns :=
               [("Z", [VFloat 1%float; VFloat 1.5%float; VFloat 2.25%float]);
                ("T", [VInt 1; VInt 2; VInt 3]);
                ("Time", [VInt 0; VInt 1; VInt 2])];
             df_rows := 3 |}.
Proof. repeat split. Qed.

(** ** The scenarios of the specification, run on the model *)

Example scenario_seeded_chain :
  run_generate Ex.env ExSpec.net ExSpec.seeded
  = (Ok {| df_columns :=
             [("A", [VFloat 10%float; VFloat 5%float; VFloat 5%float]);
              ("B", [VFloat 5%float; VFloat 9%float; VFloat 5%float]);
              ("Time", [VInt 0; VInt 1; VInt 2])];
           df_rows := 3 |},
     [ {| at_node := "A"; at_timestep := 1; input := FromParents [];
          output := VFloat 5%float |};
       {| at_node := "B"; at_timestep := 1;
          input := FromParents [(("A", 1), VFloat 10%float)]; output := VFloat 9%float |};
       {| at_node := "A"; at_timestep := 2; input := FromParents [];
          output := VFloat 5%float |};
       {| at_node := "B"; at_timestep := 2;
          input := FromParents [(("A", 1), VFloat 5%float)]; output := VFloat 5%float |} ]).
Proof. vm_compute. reflexivity. Qed.

Example scenario_missing_history :
  map (fun s => (at_node s, at_timestep s, input s))
      (snd (run_generate Ex.env ExSpec.two_back (default_args 3)))
  = [ ("A", 0, FromParents []);
      ("C", 0, FromParents [(("A", 2), VFloat 0%float)]);
      ("A", 1, FromParents []);
      ("C", 1, FromParents [(("A", 2), VFloat 0%float)]);
      ("A", 2, FromParents []);
      ("C", 2, FromParents [(("A", 2), VFloat 5%float)]) ].
Proof. vm_compute. reflexivity. Qed.

Example scenario_periodic_cycle :
  map (tf_evaluate (PointOfPeriodicCycle 7)) [VInt 0; VInt 6; VInt 7; VInt 13]
  = [Ok (VInt 1); Ok (VInt 7); Ok (VInt 1); Ok (VInt 7)].
Proof. reflexivity. Qed.

(** On a network, the ordering returns the nodes or fails with the cycle
    error or with the [KeyError] of a parent that is no node; the bound on
    the rounds of the sort is never reached. *)
Lemma get_topological_order_outcomes d :
  dbn_wf d ->
  (exists order, get_topological_order d = Ok order) \/
  get_topological_order d = Err (ValueError CycleDetected) \/
  (exists k, get_topological_order d = Err (KeyError k) /\
             ~ In k (Dict.keys (nodes d))).
Proof.
  intros W. destruct (zero_lag_graph_spec d W) as [Wg _].
  unfold get_topological_order.
  destruct (topological_sort_spec (zero_lag_graph d) Wg)
    as [[names [-> _]]|[-> _]]; [|right; left; reflexivity].
  destruct (nodes_at d names) as [order|e] eqn:E; [left; eauto|].
  right; right. apply nodes_at_raises in E as [k [-> [_ Hk]]].
  exists k. split; [reflexivity|]. apply get_None_keys. exact Hk.
Qed.

(** ** Parents are sampled before their children *)

Lemma sample_timestep_schedule env r time t : forall nodes' ts log res log',
  sample_timestep env r time t nodes' ts log = (res, log') ->
  exists new rest,
    log' = log ++ new /\
    map (fun n => (node_name n, t)) nodes' = map key_of new ++ rest /\
    (forall ts', res = Ok ts' -> rest = []).
Proof.
  induction nodes' as [|n nodes' IH]; intros ts log res log'; simpl.
  - unfold ret. intros [= <- <-]. exists [], []. rewrite app_nil_r. auto.
  - intros Hrun. apply bind_inv in Hrun as [[ts1 [log1 [Hn Hrun]]]|[e [Hn ->]]].
    + apply sample_node_inv in Hn as [[e [[=] _]]|[ts' [s [[= <-] [-> [Hy _]]]]]].
      destruct (IH _ _ _ _ Hrun) as [new [rest [-> [Hmap Hok]]]].
      exists (s :: new), rest. rewrite <- app_assoc. split; [reflexivity|].
      split; [|exact Hok]. simpl. rewrite Hmap. f_equal.
      destruct Hy as [Hnode [Htime _]]. unfold key_of. rewrite Hnode, Htime. reflexivity.
    + apply sample_node_inv in Hn as [[e' [_ ->]]|[ts' [s [[=] _]]]].
      exists [], ((node_name n, t) :: map (fun n0 => (node_name n0, t)) nodes').
      rewrite app_nil_r. split; [reflexivity|]. split; [reflexivity | discriminate].
Qed.

Lemma sample_steps_schedule env r order : forall steps ts log res log',
  sample_steps env r order steps ts log = (res, log') ->
  exists new rest, log' = log ++ new /\ schedule order steps = map key_of new ++ rest.
Proof.
  induction steps as [|[time t] steps IH]; intros ts log res log'; simpl.
  - unfold ret. intros [= <- <-]. exists [], []. rewrite app_nil_r. auto.
  - intros Hrun. apply bind_inv in Hrun as [[ts1 [log1 [Hn Hrun]]]|[e [Hn ->]]].
    + apply sample_timestep_schedule in Hn as [new1 [rest1 [-> [Hmap Hok]]]].
      rewrite (Hok ts1 eq_refl), app_nil_r in Hmap.
      destruct (IH _ _ _ _ Hrun) as [new2 [rest2 [-> Hs2]]].
      exists (new1 ++ new2), rest2. rewrite <- app_assoc. split; [reflexivity|].
      rewrite Hmap, map_app, <- app_assoc. f_equal. exact Hs2.
    + apply sample_timestep_schedule in Hn as [new1 [rest1 [-> [Hmap _]]]].
      exists new1, (rest1 ++ schedule order steps). split; [reflexivity|].
      rewrite Hmap, <- app_assoc. reflexivity.
Qed.

Lemma generate_schedule env d a r log order ts2 time_col :
  run_generate env d a = (r, log) ->
  prepare env d a = Ok (order, ts2) ->
  dict_getitem (time_column_name a) ts2 = Ok time_col ->
  exists rest, schedule order (loop_steps d a time_col) = map key_of log ++ rest.
Proof.
  unfold run_generate, generate, bind, lift. intros Hrun Hp Htc.
  rewrite Hp in Hrun. simpl in Hrun. rewrite Htc in Hrun.
  fold (loop_steps d a time_col) in Hrun.
  destruct (sample_steps env (replacement_value_for_non_existing_parents a) order
              (loop_steps d a time_col) ts2 []) as [res log1] eqn:Eloop.
  apply sample_steps_schedule in Eloop as [new [rest [-> Hs]]]. simpl in Hs.
  exists rest. rewrite Hs. f_equal. f_equal.
  destruct res as [ts3|e]; [|inversion Hrun; reflexivity].
  destruct (map_err Raised (make_dataframe ts3)); [|inversion Hrun; reflexivity].
  destruct (exclude_temporal_nodes_from_output a); inversion Hrun; reflexivity.
Qed.

Lemma app_split_at {A} (X Y L1 L2 : list A) (e : A) :
  X ++ Y = L1 ++ e :: L2 ->
  (exists X2, X = L1 ++ e :: X2 /\ L2 = X2 ++ Y) \/
  (exists L, L1 = X ++ L /\ Y = L ++ e :: L2).
Proof.
  revert L1. induction X as [|x X IH]; intros L1 Heq; simpl in Heq.
  - right. exists L1. auto.
  - destruct L1 as [|y L1]; simpl in Heq; inversion Heq; subst.
    + left. exists X. auto.
    + destruct (IH L1 H1) as [[X2 [-> ->]]|[L [-> ->]]].
      * left. exists X2. auto.
      * right. exists L. auto.
Qed.

Lemma map_split {A B} (f : A -> B) (l : list A) (L1 L2 : list B) (e : B) :
  map f l = L1 ++ e :: L2 ->
  exists l1 x l2, l = l1 ++ x :: l2 /\ map f l1 = L1 /\ f x = e /\ map f l2 = L2.
Proof.
  revert L1. induction l as [|a l IH]; intros L1 Heq; simpl in Heq.
  - destruct L1; discriminate.
  - destruct L1 as [|b L1]; simpl in Heq; inversion Heq; subst.
    + exists [], a, l. auto.
    + destruct (IH L1 H1) as [l1 [x [l2 [-> [<- [<- <-]]]]]].
      exists (a :: l1), x, l2. auto.
Qed.

Lemma nodup_split_unique {A} (l a1 b1 a2 b2 : list A) (x : A) :
  NoDup l -> l = a1 ++ x :: b1 -> l = a2 ++ x :: b2 -> a1 = a2.
Proof.
  intros ND E1 E2. subst l. revert a2 E2 ND.
  induction a1 as [|y a1 IH]; intros a2 E2 ND.
  - destruct a2 as [|z a2]; [reflexivity|]. simpl in E2. inversion E2; subst.
    inversion ND as [|? ? Hn _]; subst. exfalso. apply Hn.
    apply in_app_iff. right. left; reflexivity.
  - destruct a2 as [|z a2]; simpl in E2; inversion E2; subst.
    + inversion ND as [|? ? Hn _]; subst. exfalso. apply Hn.
      apply in_app_iff. right. left; reflexivity.
    + f_equal. apply IH; [assumption|]. inversion ND; assumption.
Qed.

Lemma schedule_before order :
  NoDup (map node_name order) ->
  forall steps start L1 c t L2,
    from_start start (map snd steps) ->
    schedule order steps = L1 ++ (c, t) :: L2 ->
    (forall p t', In p (map node_name order) -> start <= t' < t -> In (p, t') L1) /\
    (forall p, precedes (map node_name order) p c -> In (p, t) L1) /\
    start <= t.
Proof.
  intros ND. induction steps as [|[time t0] steps IH]; intros start L1 c t L2 Hfrom Hs.
  - destruct L1; discriminate.
  - simpl in Hfrom. destruct Hfrom as [-> Hfrom]. simpl in Hs.
    apply app_split_at in Hs as [[X2 [Hx _]]|[L [-> Hrest]]].
    + apply map_split in Hx as [o1 [x [o2 [Ho [<- [Hx _]]]]]].
      inversion Hx; subst c t. split; [intros; lia|]. split; [|lia].
      intros p [l1 [l2 [l3 Hp]]].
      assert (Hsplit : map node_name order
                       = map node_name o1 ++ node_name x :: map node_name o2).
      { rewrite Ho, map_app. reflexivity. }
      assert (E : l1 ++ p :: l2 = map node_name o1).
      { apply (nodup_split_unique (map node_name order) _ l3 _ (map node_name o2)
                 (node_name x) ND); [|exact Hsplit].
        rewrite Hp, <- app_assoc. reflexivity. }
      assert (Hin : In p (map node_name o1)).
      { rewrite <- E. apply in_app_iff. right. left; reflexivity. }
      apply in_map_iff in Hin as [n' [<- Hn']].
      apply in_map_iff. exists n'. auto.
    + destruct (IH (start + 1) L c t L2 Hfrom Hrest) as [H1 [H2 H3]].
      split; [|split; [|lia]].
      * intros p t' Hp Ht'. apply in_app_iff.
        destruct (Z.eq_dec t' start) as [->|Hne].
        -- left. apply in_map_iff in Hp as [n' [<- Hn']].
           apply in_map_iff. exists n'. auto.
        -- right. apply H1; [exact Hp | lia].
      * intros p Hp. apply in_app_iff. right. auto.
Qed.

Lemma schedule_nodup order :
  NoDup (map node_name order) ->
  forall steps start,
    from_start start (map snd steps) ->
    NoDup (schedule order steps) /\
    forall c t, In (c, t) (schedule order steps) -> start <= t.
Proof.
  intros ND. induction steps as [|[time t0] steps IH]; intros start Hfrom; simpl.
  - split; [constructor | intros ? ? []].
  - simpl in Hfrom. destruct Hfrom as [-> Hfrom].
    destruct (IH (start + 1) Hfrom) as [IH1 IH2]. split.
    + apply NoDup_app; [| exact IH1 |].
      * clear -ND. induction order as [|n order IHo]; simpl; [constructor|].
        simpl in ND. inversion ND as [|? ? Hn ND']; subst.
        constructor; [|auto]. intros Hin. apply Hn.
        apply in_map_iff in Hin as [n' [[= Hname] Hn']].
        rewrite <- Hname. apply in_map. exact Hn'.
      * intros [c t] Hin1 Hin2. apply in_map_iff in Hin1 as [n' [[= _ <-] _]].
        apply IH2 in Hin2. lia.
    + intros c t Hin. apply in_app_iff in Hin as [Hin|Hin].
      * apply in_map_iff in Hin as [n' [[= _ <-] _]]. lia.
      * apply IH2 in Hin. lia.
Qed.

Lemma from_start_range a m :
  from_start a (map (fun i => a + Z.of_nat i) (seq 0 m)).
Proof.
  revert a. induction m as [|m IH]; intros a; simpl; [exact I|].
  split; [lia|]. rewrite <- seq_shift, map_map.
  rewrite (map_ext _ (fun i => (a + 1) + Z.of_nat i)); [apply IH|].
  intros i. lia.
Qed.

Lemma from_start_firstn k : forall a ts, from_start a ts -> from_start a (firstn k ts).
Proof.
  induction k as [|k IH]; intros a ts Hts; simpl; [exact I|].
  destruct ts as [|t ts]; [exact I|]. destruct Hts as [-> Hts].
  simpl. split; [reflexivity | apply IH; exact Hts].
Qed.

Lemma map_snd_combine {A B} (xs : list A) (ys : list B) :
  map snd (combine xs ys) = firstn (List.length xs) ys.
Proof.
  revert ys. induction xs as [|x xs IH]; intros ys; simpl; [reflexivity|].
  destruct ys as [|y ys]; simpl; [reflexivity|]. f_equal. apply IH.
Qed.

Lemma loop_steps_from_start d a time_col :
  from_start (starting_timestep_for_evaluation d a) (map snd (loop_steps d a time_col)).
Proof.
  unfold loop_steps. rewrite map_snd_combine. apply from_start_firstn.
  unfold py_range. apply from_start_range.
Qed.

Lemma store_cell_same ts name t v ts' :
  0 <= t -> store ts name t v = Ok ts' -> cell ts' name t = Some v.
Proof.
  intros Ht. unfold store, dict_getitem, py_setitem, cell.
  destruct (Dict.get name ts) as [col|]; simpl; [|discriminate].
  destruct (norm_index t (List.length col)) as [j|] eqn:Ej; simpl; [|discriminate].
  intros [= <-]. apply norm_index_nonneg in Ej as [-> Hlt]; [|exact Ht].
  rewrite get_set_same. rewrite nth_error_app2; rewrite length_firstn; [|lia].
  replace (Z.to_nat t - Nat.min (Z.to_nat t) (List.length col))%nat with 0%nat by lia.
  reflexivity.
Qed.

Lemma store_cell_other ts name t v ts' name' t' :
  0 <= t -> 0 <= t' -> (name', t') <> (name, t) ->
  store ts name t v = Ok ts' -> cell ts' name' t' = cell ts name' t'.
Proof.
  intros Ht Ht' Hne. unfold store, dict_getitem, py_setitem, cell.
  destruct (Dict.get name ts) as [col|] eqn:Ecol; simpl; [|discriminate].
  destruct (norm_index t (List.length col)) as [j|] eqn:Ej; simpl; [|discriminate].
  intros [= <-]. apply norm_index_nonneg in Ej as [-> Hlt]; [|exact Ht].
  destruct (string_dec name' name) as [->|Hn].
  - rewrite get_set_same, Ecol.
    assert (Hrow : Z.to_nat t' <> Z.to_nat t).
    { intros E. apply Hne. f_equal. lia. }
    destruct (Nat.lt_ge_cases (Z.to_nat t') (Z.to_nat t)) as [Hlt'|Hge].
    + rewrite nth_error_app1 by (rewrite length_firstn; lia).
      rewrite nth_error_firstn.
      destruct (Nat.ltb_spec (Z.to_nat t') (Z.to_nat t)); [reflexivity | lia].
    + rewrite nth_error_app2 by (rewrite length_firstn; lia).
      rewrite length_firstn.
      replace (Nat.min (Z.to_nat t) (List.length col)) with (Z.to_nat t) by lia.
      destruct (Z.to_nat t' - Z.to_nat t)%nat as [|i] eqn:Ei; [lia|].
      change (nth_error (skipn (S (Z.to_nat t)) col) i = nth_error col (Z.to_nat t')).
      rewrite nth_error_skipn. f_equal. lia.
  - rewrite get_set_other by exact Hn. reflexivity.
Qed.

Lemma apply_sample_cell_other ts s p t' :
  0 <= at_timestep s -> 0 <= t' -> (p, t') <> key_of s ->
  cell (apply_sample ts s) p t' = cell ts p t'.
Proof.
  intros Hs Ht' Hne. unfold apply_sample.
  destruct (store ts (at_node s) (at_timestep s) (output s)) as [ts'|] eqn:E; [|reflexivity].
  exact (store_cell_other ts (at_node s) (at_timestep s) (output s) ts' p t' Hs Ht' Hne E).
Qed.

Lemma table_after_cell_other p t' : forall lb ts,
  0 <= t' ->
  (forall s, In s lb -> 0 <= at_timestep s /\ (p, t') <> key_of s) ->
  cell (table_after ts lb) p t' = cell ts p t'.
Proof.
  induction lb as [|s lb IH]; intros ts Ht' Hlb; simpl; [reflexivity|].
  rewrite IH; [|exact Ht' | intros s' Hs'; apply Hlb; right; exact Hs'].
  destruct (Hlb s (or_introl eq_refl)) as [Hs Hne].
  apply apply_sample_cell_other; assumption.
Qed.

Lemma check_known_Ok known names l :
  check_known known names = Ok l -> l = names /\ forall x, In x names -> In x known.
Proof.
  revert l. induction names as [|x names IH]; intros l; simpl.
  - intros [= <-]. split; [reflexivity | intros ? []].
  - destruct (memb x known) eqn:E; [|discriminate].
    destruct (check_known known names) as [rest|]; simpl; [|discriminate].
    intros [= <-]. destruct (IH rest eq_refl) as [-> Hall].
    split; [reflexivity|]. intros y [<-|Hy]; [apply memb_In; exact E | auto].
Qed.

(** What a returned order satisfies, whatever the network. *)
Lemma get_topological_order_Ok d order :
  dbn_wf d -> get_topological_order d = Ok order ->
  NoDup (map node_name order) /\
  (forall n, In n order -> In n (Dict.values (nodes d))) /\
  (forall x, In x (map node_name order) <-> In x (Dict.keys (nodes d))) /\
  (forall p c, zero_lag_edge d p c -> precedes (map node_name order) p c).
Proof.
  intros W Hord. destruct (zero_lag_graph_spec d W) as [Wg [He Hv]].
  unfold get_topological_order in Hord.
  destruct (topological_sort_spec (zero_lag_graph d) Wg)
    as [[names [Hsort [Hnd [Hcov Hordered]]]]|[Hfail _]].
  2:{ rewrite Hfail in Hord. discriminate. }
  rewrite Hsort in Hord.
  pose proof (nodes_at_names d names W) as Hn. rewrite Hord in Hn. simpl in Hn.
  symmetry in Hn. apply check_known_Ok in Hn as [Hmap Hknown].
  rewrite Hmap. split; [exact Hnd|]. split; [apply (nodes_at_stored d names order Hord)|].
  split.
  - intros x. split; [apply Hknown|]. intros Hx. apply Hcov, Hv. left; exact Hx.
  - intros p c Hedge. apply He in Hedge.
    assert (Hc : In c names) by (apply Hcov; apply (wf_endpoints Wg p c Hedge)).
    apply in_split in Hc as [l1 [l2 Hs]].
    pose proof (Hordered l1 c l2 Hs p Hedge) as Hp.
    apply in_split in Hp as [l1a [l1b ->]].
    exists l1a, l1b, l2. rewrite Hs, <- app_assoc. reflexivity.
Qed.

Lemma prepare_order env d a order ts2 :
  prepare env d a = Ok (order, ts2) -> get_topological_order d = Ok order.
Proof.
  unfold prepare. destruct (time_axis env a); simpl; [|discriminate].
  destruct (get_topological_order d) as [order'|]; simpl; [|discriminate].
  destruct (match initial_values a with
            | Some (item :: items) => _
            | _ => _
            end); simpl; [|discriminate].
  intros [= <- _]. reflexivity.
Qed.

Lemma py_getitem_nonneg {A} (l : list A) i v :
  0 <= i -> py_getitem l i = Ok v -> nth_error l (Z.to_nat i) = Some v.
Proof.
  intros Hi. unfold py_getitem.
  destruct (norm_index i (List.length l)) as [j|] eqn:Ej; [|discriminate].
  apply norm_index_nonneg in Ej as [-> _]; [|exact Hi].
  destruct (nth_error l (Z.to_nat i)); [intros [= <-]; reflexivity | discriminate].
Qed.

Lemma table_after_app ts la lb :
  table_after ts (la ++ lb) = table_after (table_after ts la) lb.
Proof. unfold table_after. apply fold_left_app. Qed.

(** In a run that starts at a non-negative timestep, the mapping built for
    a sample of a non-temporal node holds, under a pair (parent, lag) with
    [lag >= 0] whose parent is a node and whose row [t - lag] is not before
    the starting timestep, the output of the sample that the parent has
    stored at timestep [t - lag] earlier in the run. *)
Lemma lagged_parent_sample env d a r l1 s l2 pv order ts2 name parents cpd :
  dbn_wf d ->
  0 <= starting_timestep_for_evaluation d a ->
  run_generate env d a = (r, l1 ++ s :: l2) ->
  prepare env d a = Ok (order, ts2) ->
  In (RegularNode name parents cpd) order -> at_node s = name ->
  parentwise_values (table_after ts2 l1) (at_timestep s)
    (replacement_value_for_non_existing_parents a) parents [] = Ok pv ->
  forall p lag,
    In (p, lag) parents -> 0 <= lag -> In p (Dict.keys (nodes d)) ->
    starting_timestep_for_evaluation d a <= at_timestep s - lag ->
    exists s', In s' l1 /\ at_node s' = p /\ at_timestep s' = at_timestep s - lag /\
               Dict.get (p, lag) pv = Some (output s').
Proof.
  intros W Hstart Hrun Hp Hn Hname Hvals.
  pose proof (prepare_order env d a order ts2 Hp) as Hord.
  destruct (get_topological_order_Ok d order W Hord) as [HND [Hstored [Hnames Hprec]]].
  intros p lag Hpl Hlag Hpkeys Ht'.
  assert (Htc : exists time_col, dict_getitem (time_column_name a) ts2 = Ok time_col).
  { pose proof Hrun as Hrun'.
    apply generate_samples in Hrun' as [[E _]|[order' [ts2' [Hp' [_ [Hnone _]]]]]].
    { destruct l1; discriminate. }
    rewrite Hp in Hp'. inversion Hp'; subst order' ts2'.
    unfold dict_getitem in *. destruct (Dict.get (time_column_name a) ts2); [eauto|].
    specialize (Hnone eq_refl). destruct l1; discriminate. }
  destruct Htc as [time_col Htc].
  destruct (generate_schedule env d a r _ order ts2 time_col Hrun Hp Htc) as [rest Hsched].
  rewrite map_app in Hsched. simpl in Hsched. rewrite <- app_assoc in Hsched.
  simpl in Hsched.
  pose proof (loop_steps_from_start d a time_col) as Hfrom.
  destruct (schedule_before order HND _ _ _ _ _ _ Hfrom Hsched) as [H1 [H2 _]].
  destruct (schedule_nodup order HND _ _ Hfrom) as [Hsnd _].
  rewrite Hsched in Hsnd. apply NoDup_app_remove_r in Hsnd.
  assert (Hcell : In (p, at_timestep s - lag) (map key_of l1)).
  { destruct (Z.eq_dec lag 0) as [->|Hlag0].
    - replace (at_timestep s - 0) with (at_timestep s) by lia.
      apply H2. rewrite Hname. apply Hprec.
      exists (RegularNode name parents cpd). split; [apply Hstored; exact Hn|].
      split; [reflexivity | exact Hpl].
    - apply H1; [apply Hnames; exact Hpkeys | lia]. }
  apply in_map_iff in Hcell as [s' [Hkey Hs']].
  apply in_split in Hs' as [la [lb Hl1]].
  exists s'. split; [rewrite Hl1; apply in_app_iff; right; left; reflexivity|].
  inversion Hkey as [[Hnode Htime]]. split; [reflexivity|]. split; [reflexivity|].
  destruct (sample_stored env d a r _ la s' (lb ++ s :: l2) order ts2 Hrun) as [ts' Hst].
  { rewrite Hl1, <- app_assoc. reflexivity. }
  { exact Hp. }
  assert (Hnonneg : 0 <= at_timestep s - lag) by lia.
  assert (Hc : cell (table_after ts2 l1) p (at_timestep s - lag) = Some (output s')).
  { rewrite Hl1. change (la ++ s' :: lb) with (la ++ [s'] ++ lb).
    rewrite app_assoc, table_after_app, table_after_snoc.
    rewrite table_after_cell_other.
    - unfold apply_sample. rewrite Hst. rewrite <- Hnode, <- Htime.
      assert (Hs0 : 0 <= at_timestep s') by lia.
      exact (store_cell_same _ _ _ _ _ Hs0 Hst).
    - exact Hnonneg.
    - intros s'' Hs''. split.
      + assert (Hin'' : In s'' (l1 ++ s :: l2)).
        { rewrite Hl1. apply in_app_iff. left. apply in_app_iff. right. right; exact Hs''. }
        pose proof (samples_from_start env d a r _ s'' Hrun Hin''). lia.
      + intros Heq. rewrite Hl1, map_app in Hsnd. simpl in Hsnd.
        apply NoDup_remove_2 in Hsnd. apply Hsnd. apply in_app_iff. right.
        rewrite Hkey, Heq. apply in_map. exact Hs''. }
  destruct (proj2 (parentwise_values_lagged _ _ _ _ _ Hvals p lag Hpl) Hnonneg)
    as [col [v [Hcol [Hv Hg]]]].
  unfold cell in Hc. rewrite Hcol in Hc.
  apply py_getitem_nonneg in Hv; [|exact Hnonneg].
  rewrite Hnode, Hg. congruence.
Qed.

(** X21: In a run that starts at a non-negative timestep, the value handed to a
    distribution for a pair (parent, lag) with [lag >= 0], where the parent
    is a node and [t - lag] is not before the starting timestep, is the
    output of a sample stored earlier in the run: that of the parent at
    timestep [t - lag].  For lag 0 this is what the zero-lag order is for. *)
Lemma parents_sampled_before env d a r l1 s l2 pv :
  dbn_wf d ->
  0 <= starting_timestep_for_evaluation d a ->
  run_generate env d a = (r, l1 ++ s :: l2) ->
  input s = FromParents pv ->
  exists name parents cpd,
    In (name, RegularNode name parents cpd) (nodes d) /\ at_node s = name /\
    forall p lag,
      In (p, lag) parents -> 0 <= lag -> In p (Dict.keys (nodes d)) ->
      starting_timestep_for_evaluation d a <= at_timestep s - lag ->
      exists s', In s' l1 /\ at_node s' = p /\ at_timestep s' = at_timestep s - lag /\
                 Dict.get (p, lag) pv = Some (output s').
Proof.
  intros W Hstart Hrun Hin.
  destruct (regular_sample_inputs env d a r _ l1 s l2 pv Hrun eq_refl Hin)
    as [order [ts2 [name [parents [cpd [Hp [Hn [Hname [Hvals _]]]]]]]]].
  pose proof (prepare_order env d a order ts2 Hp) as Hord.
  destruct (get_topological_order_Ok d order W Hord) as [_ [Hstored _]].
  exists name, parents, cpd.
  split; [apply (wf_values_In d (RegularNode name parents cpd) W), Hstored, Hn|].
  split; [exact Hname|].
  exact (lagged_parent_sample env d a r l1 s l2 pv order ts2 name parents cpd
           W Hstart Hrun Hp Hn Hname Hvals).
Qed.

(** * Further properties of the code *)

(** ** The network container *)

(** X1: [get_node] after [add_node]: the name just added gives the node just
    added, replacing whatever was stored under it; every other name gives
    what it gave before.  A name that is no key gives [None], and only
    such a name does. *)
Theorem get_node_after_add_node :
  (forall n d name,
      get_node name (add_node n d)
      = if String.eqb name (node_name n) then Some n else get_node name d)
  /\ (forall d name, get_node name d = None <-> ~ In name (Dict.keys (nodes d)))
  /\ (forall name, get_node name empty_dbn = None).
Proof.
  split; [|split].
  - intros n d name. unfold get_node, add_node. simpl.
    destruct (String.eqb name (node_name n)) eqn:E.
    + apply String.eqb_eq in E. subst. apply get_set_same.
    + apply String.eqb_neq in E. apply get_set_other. exact E.
  - intros d name. unfold get_node. apply get_None_keys.
  - intros name. reflexivity.
Qed.

Lemma dbn_of_snoc l n : dbn_of (l ++ [n]) = add_node n (dbn_of l).
Proof. unfold dbn_of. rewrite fold_left_app. reflexivity. Qed.

Lemma dedup_cons x r :
  dedup (x :: r) = if memb x r then dedup r else x :: dedup r.
Proof. reflexivity. Qed.

(** X2: A network built by a sequence of [add_node] calls holds, under each
    name, the last node added under it, and iterates over the names in the
    order of their first insertion: adding a name again keeps its place. *)
Theorem dbn_of_keeps_last_node l :
  (forall name,
      get_node name (dbn_of l)
      = find (fun n => String.eqb name (node_name n)) (rev l))
  /\ Dict.keys (nodes (dbn_of l)) = rev (dedup (rev (map node_name l))).
Proof.
  induction l as [|n l [IHget IHkeys]] using rev_ind.
  - split; reflexivity.
  - rewrite dbn_of_snoc. split.
    + intros name. rewrite rev_app_distr. simpl.
      unfold get_node, add_node. simpl.
      destruct (String.eqb name (node_name n)) eqn:E.
      * apply String.eqb_eq in E. subst. apply get_set_same.
      * apply String.eqb_neq in E. rewrite get_set_other by exact E. apply IHget.
    + rewrite map_app, rev_app_distr. cbn [map rev app]. rewrite dedup_cons.
      unfold add_node. cbn [nodes rev app].
      destruct (memb (node_name n) (rev (map node_name l))) eqn:E.
      * apply memb_In in E. rewrite keys_set_present; [exact IHkeys|].
        rewrite IHkeys, <- in_rev. apply dedup_In. exact E.
      * apply memb_not_In in E. rewrite keys_set_absent.
        -- simpl. rewrite IHkeys. reflexivity.
        -- rewrite IHkeys, <- in_rev, dedup_In. exact E.
Qed.

Lemma fold_max_In l : forall m x, In x l -> x <= fold_left Z.max l m.
Proof.
  induction l as [|y l IH]; simpl; [tauto|].
  intros m x [->|Hx].
  - etransitivity; [|apply fold_max_ge]. lia.
  - apply IH. exact Hx.
Qed.

Lemma fold_max_attained l : forall m,
  fold_left Z.max l m = m \/ In (fold_left Z.max l m) l.
Proof.
  induction l as [|y l IH]; simpl; [auto|].
  intros m. destruct (IH (Z.max m y)) as [E|Hin]; [|auto].
  rewrite E. destruct (Z.max_spec m y) as [[_ ->]|[_ ->]]; auto.
Qed.

Lemma fold_max_le l b : forall m,
  m <= b -> (forall x, In x l -> x <= b) -> fold_left Z.max l m <= b.
Proof.
  induction l as [|y l IH]; simpl; [auto|].
  intros m Hm Hl. apply IH; [|auto]. specialize (Hl y (or_introl eq_refl)). lia.
Qed.

Lemma dbn_of_values_In l n : In n (Dict.values (nodes (dbn_of l))) -> In n l.
Proof.
  induction l as [|n0 l IH] using rev_ind; [simpl; tauto|].
  rewrite dbn_of_snoc. unfold add_node, Dict.values. simpl.
  intros Hin. apply in_map_iff in Hin as [[k v] [<- Hin]]. simpl.
  apply in_app_iff. apply set_In_inv in Hin as [[_ ->]|Hin]; [right; left; reflexivity|].
  left. apply IH. apply in_map_iff. exists (k, v). auto.
Qed.

(** X3: The stored [max_lag] is the largest lag that any [add_node] call has
    seen, or 0: it is never negative, it bounds the lag of every parent
    pair of every node ever added, it is 0 or the lag of such a pair, it
    bounds the largest lag now present in the network from above, and
    further [add_node] calls never lower it. *)
Theorem max_lag_is_running_maximum l :
  0 <= max_lag (dbn_of l)
  /\ (forall n p lag, In n l -> In (p, lag) (node_parents n) -> lag <= max_lag (dbn_of l))
  /\ (max_lag (dbn_of l) = 0 \/
      exists n p, In n l /\ In (p, max_lag (dbn_of l)) (node_parents n))
  /\ largest_lag_present (dbn_of l) <= max_lag (dbn_of l)
  /\ (forall l', max_lag (dbn_of l) <= max_lag (dbn_of (l ++ l'))).
Proof.
  assert (Hall : forall l n p lag, In n l -> In (p, lag) (node_parents n) ->
                                   lag <= max_lag (dbn_of l)).
  { intros l0 n p lag Hn Hp. rewrite max_lag_running. apply fold_max_In.
    apply in_map_iff. exists (p, lag). split; [reflexivity|].
    apply in_flat_map. exists n. auto. }
  split; [apply max_lag_nonneg|]. split; [apply Hall|]. split; [|split].
  - rewrite max_lag_running.
    destruct (fold_max_attained (map snd (flat_map node_parents l)) 0) as [E|Hin];
      [left; exact E | right].
    apply in_map_iff in Hin as [[p lag] [E Hin]]. simpl in E.
    apply in_flat_map in Hin as [n [Hn Hp]]. exists n, p. rewrite <- E. auto.
  - unfold largest_lag_present, lags_present. apply fold_max_le; [apply max_lag_nonneg|].
    intros x Hx. apply in_map_iff in Hx as [[p lag] [<- Hin]].
    apply in_flat_map in Hin as [n [Hn Hp]]. simpl.
    apply (Hall l n p lag); [apply dbn_of_values_In; exact Hn | exact Hp].
  - intros l'. rewrite !max_lag_running, flat_map_app, map_app, fold_max_app.
    apply fold_max_ge.
Qed.

Lemma set_absent {V} (d : Dict.t string V) k v :
  ~ In k (Dict.keys d) -> Dict.set k v d = d ++ [(k, v)].
Proof.
  induction d as [|[k0 v0] d IH]; simpl; [reflexivity|].
  intros Hk. destruct (String.eqb k k0) eqn:E.
  - apply String.eqb_eq in E. subst. exfalso; auto.
  - f_equal. apply IH. auto.
Qed.

Lemma dbn_of_distinct l :
  NoDup (map node_name l) -> nodes (dbn_of l) = map (fun n => (node_name n, n)) l.
Proof.
  induction l as [|n l IH] using rev_ind; [reflexivity|].
  rewrite map_app. simpl. intros ND.
  assert (ND' : NoDup (map node_name l)) by (apply NoDup_app_remove_r in ND; exact ND).
  assert (Hn : ~ In (node_name n) (map node_name l)).
  { intros Hin. apply NoDup_remove_2 in ND. apply ND. rewrite app_nil_r. exact Hin. }
  rewrite dbn_of_snoc, map_app. unfold add_node. simpl. rewrite IH by exact ND'.
  apply set_absent. unfold Dict.keys. rewrite map_map. simpl. exact Hn.
Qed.

(** X4: When no name is added twice, the network holds the nodes as they were
    added and [max_lag] is exactly the largest lag present in it (0 when
    no node has a parent with a positive lag). *)
Theorem max_lag_exact_without_overwrite l :
  NoDup (map node_name l) ->
  Dict.values (nodes (dbn_of l)) = l
  /\ max_lag (dbn_of l) = largest_lag_present (dbn_of l).
Proof.
  intros ND.
  assert (Hv : Dict.values (nodes (dbn_of l)) = l).
  { rewrite (dbn_of_distinct l ND). unfold Dict.values. rewrite map_map. simpl.
    apply map_id. }
  split; [exact Hv|].
  unfold largest_lag_present, lags_present. rewrite Hv. apply max_lag_running.
Qed.

Lemma max_lag_exact_without_overwrite_witness :
  NoDup (map node_name [Ex.node_a; Ex.node_b])
  /\ Dict.values (nodes (dbn_of [Ex.node_a; Ex.node_b])) = [Ex.node_a; Ex.node_b]
  /\ max_lag (dbn_of [Ex.node_a; Ex.node_b])
     = largest_lag_present (dbn_of [Ex.node_a; Ex.node_b]).
Proof.
  assert (ND : NoDup (map node_name [Ex.node_a; Ex.node_b])).
  { simpl. repeat constructor; simpl; intuition discriminate. }
  split; [exact ND|]. exact (max_lag_exact_without_overwrite _ ND).
Defined.

(** ** The position in a periodic cycle *)

(** X8: [PointOfPeriodicCycle(L).evaluate(t)] on an integer [t]: with [L > 0]
    the value lies in [1 .. L], repeats with period [L] and is [t + 1] on
    the first cycle; with [L = 0] the call raises [ZeroDivisionError]; with
    [L < 0] the value lies in [L + 2 .. 1], the remainder taking the sign of
    the divisor. *)
Theorem point_of_periodic_cycle_values L t :
  match L ?= 0 with
  | Gt => exists v,
            tf_evaluate (PointOfPeriodicCycle L) (VInt t) = Ok (VInt v) /\
            1 <= v <= L /\
            tf_evaluate (PointOfPeriodicCycle L) (VInt (t + L)) = Ok (VInt v) /\
            (0 <= t < L -> v = t + 1)
  | Eq => tf_evaluate (PointOfPeriodicCycle L) (VInt t) = Err DivisionByZero
  | Lt => exists v,
            tf_evaluate (PointOfPeriodicCycle L) (VInt t) = Ok (VInt v) /\
            L + 2 <= v <= 1
  end.
Proof.
  destruct (Z.compare_spec L 0) as [->|Hneg|Hpos].
  - reflexivity.
  - simpl. assert (E : (L =? 0) = false) by (apply Z.eqb_neq; lia). rewrite E.
    eexists. split; [reflexivity|].
    pose proof (Z.mod_neg_bound t L Hneg). lia.
  - simpl. assert (E : (L =? 0) = false) by (apply Z.eqb_neq; lia). rewrite E.
    eexists. split; [reflexivity|].
    pose proof (Z.mod_pos_bound t L Hpos). split; [lia|]. split.
    + replace (t + L) with (t + 1 * L) by lia. rewrite Z.mod_add by lia. reflexivity.
    + intros Ht. rewrite Z.mod_small by lia. reflexivity.
Qed.

(** ** The linear-Gaussian distribution on arbitrary weights *)

Lemma weighted_terms_on_keys c c' pv :
  (forall k, In k (Dict.keys pv) -> weight_of c' k = weight_of c k) ->
  weighted_terms c' pv = weighted_terms c pv.
Proof.
  induction pv as [|item rest IH]; intros Hw; simpl; [reflexivity|].
  rewrite IH by (intros k Hk; apply Hw; right; exact Hk).
  unfold weighted_term. rewrite (Hw (fst item)) by (left; reflexivity).
  reflexivity.
Qed.

(** X9: [evaluate] reads the weights only at the keys of the mapping it is
    given: a weight under a (parent, lag) pair that is not supplied adds
    nothing and raises nothing. *)
Theorem evaluate_reads_weights_of_supplied_keys c c' pv z :
  intrinsic_mean c' = intrinsic_mean c ->
  noise_std c' = noise_std c ->
  (forall k, In k (Dict.keys pv) ->
             Dict.get k (parent_weights c') = Dict.get k (parent_weights c)) ->
  evaluate c' pv z = evaluate c pv z.
Proof.
  intros Hm Hs Hw. unfold evaluate.
  rewrite (weighted_terms_on_keys c c' pv), Hm, Hs; [reflexivity|].
  intros k Hk. unfold weight_of. rewrite (Hw k Hk). reflexivity.
Qed.

Lemma evaluate_reads_weights_of_supplied_keys_witness :
  evaluate ExMore.half_of_x_and_more ExMore.x_is_two 0.5%float
  = evaluate Ex.half_of_x ExMore.x_is_two 0.5%float.
Proof.
  apply evaluate_reads_weights_of_supplied_keys; [reflexivity | reflexivity |].
  intros k [<-|[]]. reflexivity.
Defined.

Lemma weighted_terms_floats c pv :
  (forall k v, In (k, v) pv -> exists x, v = VFloat x) ->
  exists terms, weighted_terms c pv = Ok terms.
Proof.
  induction pv as [|[k v] rest IH]; intros Hpv; simpl; [eauto|].
  destruct (Hpv k v (or_introl eq_refl)) as [x ->].
  destruct IH as [terms ->]; [intros; eapply Hpv; right; eauto|].
  unfold weighted_term. simpl. eauto.
Qed.

(** X10: On a mapping of floats, [evaluate] returns a float whenever the noise
    standard deviation is not negative (its sign bit is clear, or it is a
    NaN): the rejected scale is the only error of the call. *)
Theorem evaluate_succeeds_on_floats c pv z :
  (forall k v, In (k, v) pv -> exists x, v = VFloat x) ->
  get_sign (noise_std c) = false \/ is_nan (noise_std c) = true ->
  exists r, evaluate c pv z = Ok (VFloat r).
Proof.
  intros Hpv Hs. unfold evaluate.
  destruct (weighted_terms_floats c pv Hpv) as [terms ->]. simpl.
  unfold normal.
  assert (E : (negb (is_nan (noise_std c)) && get_sign (noise_std c))%bool = false).
  { destruct Hs as [-> | ->]; [apply andb_false_r | reflexivity]. }
  rewrite E. simpl. eauto.
Qed.

Lemma evaluate_succeeds_on_floats_witness :
  exists r, evaluate Ex.half_of_x ExMore.x_is_two 0.5%float = Ok (VFloat r).
Proof.
  apply evaluate_succeeds_on_floats.
  - intros k v [[= <- <-]|[]]. eauto.
  - left. reflexivity.
Defined.

(** X11: With noise standard deviation 0, on a mapping of floats and for every
    finite variate, [evaluate] returns the sum of the intercept and the
    weighted parent values, added from left to right: the variate has no
    influence beyond the sign of a zero result. *)
Theorem evaluate_without_noise c pv z :
  noise_std c = 0%float ->
  is_finite z = true ->
  (forall k v, In (k, v) pv -> exists x, v = VFloat x) ->
  exists terms r,
    weighted_terms c pv = Ok terms /\
    evaluate c pv z = Ok (VFloat r) /\
    same_number r (py_sum (intrinsic_mean c :: terms)).
Proof.
  intros Hs Hz Hpv. unfold evaluate.
  destruct (weighted_terms_floats c pv Hpv) as [terms Ht]. rewrite Ht, Hs. simpl.
  exists terms. eexists. split; [reflexivity|]. split; [reflexivity|].
  apply sf_same_number. rewrite add_spec.
  destruct (zero_times_finite 0%float z) as [s ->]; [exists false; reflexivity | exact Hz|].
  apply sf_same_add_zero. apply sf_same_refl.
Qed.

Lemma evaluate_without_noise_witness :
  exists terms r,
    weighted_terms Ex.half_of_x ExMore.x_is_two = Ok terms /\
    evaluate Ex.half_of_x ExMore.x_is_two 0.5%float = Ok (VFloat r) /\
    same_number r (py_sum (intrinsic_mean Ex.half_of_x :: terms)).
Proof.
  apply evaluate_without_noise; [reflexivity | reflexivity |].
  intros k v [[= <- <-]|[]]. eauto.
Defined.

(** ** The curvature of the edges of the network plot *)





(** ** The zero-lag order: insertion order, and the three outcomes *)

Lemma no_zero_lag_edges_of n G :
  (forall p, ~ In (p, 0) (node_parents n)) -> add_zero_lag_edges_of n G = G.
Proof.
  unfold add_zero_lag_edges_of.
  induction (node_parents n) as [|[p lag] ps IH]; intros H; simpl; [reflexivity|].
  destruct (lag =? 0) eqn:E.
  - apply Z.eqb_eq in E. subst. exfalso. apply (H p). left; reflexivity.
  - apply IH. intros q Hq. apply (H q). right; exact Hq.
Qed.

Lemma add_nodes_fresh names : forall G,
  NoDup names -> (forall x, In x names -> ~ In x (nx.vertices G)) ->
  fold_left (fun G name => nx.add_node name G) names G
  = {| nx.vertices := nx.vertices G ++ names; nx.edges := nx.edges G |}.
Proof.
  induction names as [|x r IH]; intros G ND Hfresh; simpl.
  - rewrite app_nil_r. destruct G; reflexivity.
  - inversion ND as [|? ? Hx ND']; subst.
    assert (E : nx.add_node x G
                = {| nx.vertices := nx.vertices G ++ [x]; nx.edges := nx.edges G |}).
    { unfold nx.add_node.
      assert (Em : memb x (nx.vertices G) = false)
        by (apply memb_not_In; apply Hfresh; left; reflexivity).
      rewrite Em. reflexivity. }
    rewrite E, IH; [simpl; rewrite <- app_assoc; reflexivity | exact ND' |].
    simpl. intros y Hy Hin. apply in_app_iff in Hin as [Hin|[<-|[]]].
    + apply (Hfresh y); [right; exact Hy | exact Hin].
    + contradiction.
Qed.

Lemma process_generation_no_edges V gen st :
  nx.process_generation {| nx.vertices := V; nx.edges := [] |} st gen = Ok st.
Proof. induction gen as [|u gen IH]; simpl; [reflexivity | exact IH]. Qed.

Lemma topological_sort_no_edges V :
  nx.topological_sort {| nx.vertices := V; nx.edges := [] |} = Ok V.
Proof.
  unfold nx.topological_sort, nx.topological_generations, nx.in_degree.
  cbn [nx.vertices nx.edges filter List.length Z.of_nat].
  assert (E1 : filter (fun vd : string * Z => 0 <? snd vd) (map (fun v => (v, 0)) V) = []).
  { induction V as [|v V IH]; simpl; [reflexivity | exact IH]. }
  assert (E2 : map fst (filter (fun vd : string * Z => snd vd =? 0)
                          (map (fun v => (v, 0)) V)) = V).
  { clear E1. induction V as [|v V IH]; simpl; [reflexivity | f_equal; exact IH]. }
  rewrite E1, E2. destruct V as [|v V]; [reflexivity|].
  cbn [List.length nx.generations]. rewrite process_generation_no_edges.
  cbn [rbind fst snd nx.generations List.concat]. rewrite app_nil_r. reflexivity.
Qed.

Lemma nodes_at_sublist d :
  NoDup (Dict.keys (nodes d)) ->
  forall l, incl l (nodes d) -> nodes_at d (map fst l) = Ok (map snd l).
Proof.
  intros ND. induction l as [|[k n] l IH]; intros Hincl; simpl; [reflexivity|].
  unfold node_at.
  rewrite (In_get_nodup (nodes d) k n ND) by (apply Hincl; left; reflexivity).
  simpl. rewrite IH by (intros x Hx; apply Hincl; right; exact Hx). reflexivity.
Qed.

(** X6: Where no node has a parent at lag 0, [get_topological_order] returns
    the nodes in the order in which their names were first inserted. *)
Theorem topological_order_without_zero_lag_parents d :
  dbn_wf d ->
  (forall n p, In n (Dict.values (nodes d)) -> ~ In (p, 0) (node_parents n)) ->
  get_topological_order d = Ok (Dict.values (nodes d)).
Proof.
  intros [ND Hname] Hnone.
  assert (Hg : zero_lag_graph d
               = {| nx.vertices := Dict.keys (nodes d); nx.edges := [] |}).
  { unfold zero_lag_graph, add_all_nodes.
    rewrite add_nodes_fresh; [|exact ND | intros x _ []]. simpl.
    unfold add_zero_lag_edges.
    assert (G : forall ns G0, (forall n, In n ns -> In n (Dict.values (nodes d))) ->
                  fold_left (fun G n => add_zero_lag_edges_of n G) ns G0 = G0).
    { induction ns as [|n ns IH]; intros G0 Hns; simpl; [reflexivity|].
      rewrite no_zero_lag_edges_of.
      - apply IH. intros m Hm. apply Hns. right; exact Hm.
      - intros p. apply Hnone. apply Hns. left; reflexivity. }
    apply G. auto. }
  unfold get_topological_order. rewrite Hg, topological_sort_no_edges.
  apply (nodes_at_sublist d ND (nodes d)). intros x Hx; exact Hx.
Qed.

Lemma topological_order_without_zero_lag_parents_witness :
  get_topological_order Ex.chain = Ok (Dict.values (nodes Ex.chain)).
Proof.
  apply topological_order_without_zero_lag_parents; [apply dbn_of_wf|].
  intros n p [<-|[<-|[]]]; simpl; [tauto|]. intros [[=]|[]].
Defined.

Lemma cycle_detected d :
  dbn_wf d -> has_zero_lag_cycle d ->
  get_topological_order d = Err (ValueError CycleDetected).
Proof.
  intros W [a Hcyc]. destruct (zero_lag_graph_spec d W) as [Wg _].
  destruct (topological_sort_spec (zero_lag_graph d) Wg) as [[names [Hsort _]]|[Hfail _]].
  - exfalso. exact (sorted_acyclic d names W Hsort a Hcyc).
  - unfold get_topological_order. rewrite Hfail. reflexivity.
Qed.

(** X7: On every network, [get_topological_order] has one of three outcomes,
    each with its cause: it returns the nodes, and then the zero-lag
    subgraph is acyclic and every zero-lag parent is a node; or it raises
    the cycle error, and then there is a zero-lag cycle; or it raises
    [KeyError] on a name that is no node but a zero-lag parent of one, the
    zero-lag subgraph being acyclic.  No other exception leaves it. *)
Theorem topological_order_outcomes d :
  dbn_wf d ->
  (exists order,
      get_topological_order d = Ok order /\ zero_lag_acyclic d /\
      forall p c, zero_lag_edge d p c -> In p (Dict.keys (nodes d)))
  \/ (get_topological_order d = Err (ValueError CycleDetected) /\ has_zero_lag_cycle d)
  \/ (exists k c,
        get_topological_order d = Err (KeyError k) /\
        ~ In k (Dict.keys (nodes d)) /\ zero_lag_edge d k c /\ zero_lag_acyclic d).
Proof.
  intros W. destruct (zero_lag_graph_spec d W) as [Wg [He Hv]].
  destruct (topological_sort_spec (zero_lag_graph d) Wg)
    as [[names [Hsort [Hnd [Hcov Hord]]]]|[Hfail [S [Hne Hstuck]]]].
  - pose proof (sorted_acyclic d names W Hsort) as Hacyc.
    destruct (get_topological_order d) as [order|e] eqn:Eo.
    + left. exists order. split; [reflexivity|]. split; [exact Hacyc|].
      destruct (get_topological_order_Ok d order W Eo) as [_ [_ [Hnames Hprec]]].
      intros p c Hedge. apply Hnames.
      destruct (Hprec p c Hedge) as [l1 [l2 [l3 ->]]].
      apply in_app_iff. right. left. reflexivity.
    + right. right. unfold get_topological_order in Eo. rewrite Hsort in Eo.
      apply nodes_at_raises in Eo as [k [-> [Hin Hk]]].
      apply get_None_keys in Hk.
      apply Hcov, Hv in Hin as [Hin|[c Hc]]; [contradiction|].
      exists k, c. auto.
  - right. left. split.
    + unfold get_topological_order. rewrite Hfail. reflexivity.
    + destruct (stuck_cycle (zero_lag_edge d) S Hne) as [a Ha]; [|exists a; exact Ha].
      intros v Hin. destruct (Hstuck v Hin) as [u [Hu Huv]].
      exists u. split; [exact Hu|]. apply t_step. apply He. exact Huv.
Qed.

Lemma topological_order_outcomes_witness :
  (exists order,
      get_topological_order Ex.chain = Ok order /\ zero_lag_acyclic Ex.chain /\
      forall p c, zero_lag_edge Ex.chain p c -> In p (Dict.keys (nodes Ex.chain)))
  \/ (get_topological_order Ex.chain = Err (ValueError CycleDetected)
      /\ has_zero_lag_cycle Ex.chain)
  \/ (exists k c,
        get_topological_order Ex.chain = Err (KeyError k) /\
        ~ In k (Dict.keys (nodes Ex.chain)) /\ zero_lag_edge Ex.chain k c /\
        zero_lag_acyclic Ex.chain).
Proof. exact (topological_order_outcomes Ex.chain (dbn_of_wf _)). Defined.

(** ** A call of [generate] that returns, step by step *)

Lemma py_range_length a b : List.length (py_range a b) = Z.to_nat (b - a).
Proof. unfold py_range. rewrite length_map, length_seq. reflexivity. Qed.

Lemma default_axis_has_n_steps env a :
  start_time a = None -> frequency a = None -> axis_has_n_steps env a.
Proof.
  intros Hs Hf axis. unfold time_axis. rewrite Hs, Hf. intros [= <-].
  rewrite length_map, py_range_length. f_equal. lia.
Qed.

Lemma generate_Ok env d a df log :
  run_generate env d a = (Ok df, log) ->
  exists order ts2 time_col,
    prepare env d a = Ok (order, ts2) /\
    dict_getitem (time_column_name a) ts2 = Ok time_col /\
    sample_steps env (replacement_value_for_non_existing_parents a) order
      (loop_steps d a time_col) ts2 [] = (Ok (table_after ts2 log), log) /\
    make_dataframe (table_after ts2 log) = Ok df /\
    exclude_temporal_nodes_from_output a = false.
Proof.
  intros Hrun. pose proof Hrun as Hrun0.
  unfold run_generate, generate, bind, lift in Hrun.
  destruct (prepare env d a) as [[order ts2]|e] eqn:Hp; [|discriminate].
  simpl in Hrun.
  destruct (dict_getitem (time_column_name a) ts2) as [time_col|e] eqn:Htc;
    [|discriminate].
  fold (loop_steps d a time_col) in Hrun.
  destruct (sample_steps env (replacement_value_for_non_existing_parents a) order
              (loop_steps d a time_col) ts2 []) as [[ts3|e] log1] eqn:Eloop;
    [|discriminate].
  destruct (make_dataframe ts3) as [df'|e] eqn:Edf; simpl in Hrun; [|discriminate].
  destruct (exclude_temporal_nodes_from_output a) eqn:Ex; [discriminate|].
  unfold ret in Hrun. inversion Hrun; subst df' log1.
  apply generate_samples in Hrun0 as [[_ [e [[=] _]]]|[order' [ts2' [Hp' [_ [_ Hdf]]]]]].
  rewrite Hp in Hp'. injection Hp' as <- <-.
  specialize (Hdf df eq_refl).
  assert (E3 : ts3 = table_after ts2 log).
  { refine (proj2 (sample_steps_inv env _ ts2 (fun _ _ => True) order
                     (loop_steps d a time_col) (fun _ _ _ _ _ _ _ _ => I)
                     (loop_steps d a time_col) ts2 [] _ _ (fun st H => H) Eloop eq_refl
                     _) ts3 eq_refl).
    intros l1 s l2 _. exact I. }
  subst ts3. exists order, ts2, time_col. auto.
Qed.

Lemma sample_steps_complete env r order : forall steps ts log ts' log',
  sample_steps env r order steps ts log = (Ok ts', log') ->
  exists new, log' = log ++ new /\ map key_of new = schedule order steps.
Proof.
  induction steps as [|[time t] steps IH]; intros ts log ts' log'; simpl.
  - unfold ret. intros [= <- <-]. exists []. rewrite app_nil_r. auto.
  - intros Hrun. apply bind_inv in Hrun as [[ts1 [log1 [Hn Hrun]]]|[e [_ [=]]]].
    apply sample_timestep_schedule in Hn as [new1 [rest1 [-> [Hmap Hok]]]].
    rewrite (Hok ts1 eq_refl), app_nil_r in Hmap.
    destruct (IH _ _ _ _ Hrun) as [new2 [-> Hs2]].
    exists (new1 ++ new2). rewrite <- app_assoc. split; [reflexivity|].
    rewrite map_app, <- Hmap, Hs2. reflexivity.
Qed.

Lemma schedule_cells order steps : schedule order steps = cells order (map snd steps).
Proof.
  unfold schedule, cells. induction steps as [|st steps IH]; simpl; [reflexivity|].
  rewrite IH. reflexivity.
Qed.

Lemma slice_bound_nonneg k len :
  0 <= k -> slice_bound k len = Nat.min (Z.to_nat k) len.
Proof.
  intros Hk. unfold slice_bound.
  destruct (k <? 0) eqn:E; [apply Z.ltb_lt in E; lia|]. lia.
Qed.

Lemma loop_steps_timesteps d a time_col :
  0 <= starting_timestep_for_evaluation d a ->
  (Z.to_nat (n_steps a) <= List.length time_col)%nat ->
  map snd (loop_steps d a time_col)
  = py_range (starting_timestep_for_evaluation d a) (n_steps a).
Proof.
  intros Hs Hlen. unfold loop_steps. rewrite map_snd_combine.
  apply firstn_all2. rewrite py_range_length. unfold py_slice_from.
  rewrite length_skipn, slice_bound_nonneg by exact Hs. lia.
Qed.


(** Storing a value keeps the columns and their lengths. *)
Lemma store_shape ts name t v ts' :
  store ts name t v = Ok ts' ->
  Dict.keys ts' = Dict.keys ts /\
  (forall k, k <> name -> Dict.get k ts' = Dict.get k ts) /\
  (forall k col, Dict.get k ts = Some col ->
     exists col', Dict.get k ts' = Some col' /\ List.length col' = List.length col).
Proof.
  unfold store, dict_getitem, py_setitem.
  destruct (Dict.get name ts) as [col|] eqn:Ecol; cbn [rbind]; [|discriminate].
  destruct (norm_index t (List.length col)) as [j|] eqn:Ej; cbn [rbind]; [|discriminate].
  intros [= <-].
  assert (Hj : (j < List.length col)%nat).
  { unfold norm_index in Ej.
    destruct ((0 <=? (if t <? 0 then t + Z.of_nat (List.length col) else t)) &&
              ((if t <? 0 then t + Z.of_nat (List.length col) else t)
               <? Z.of_nat (List.length col)))%bool eqn:E; [|discriminate].
    apply andb_true_iff in E as [E1 E2]. apply Z.leb_le in E1. apply Z.ltb_lt in E2.
    inversion Ej. lia. }
  split; [|split].
  - apply keys_set_present. apply get_Some_keys in Ecol. exact Ecol.
  - intros k N. apply get_set_other. exact N.
  - intros k col0 Hg. destruct (string_dec k name) as [->|N].
    + rewrite get_set_same. eexists. split; [reflexivity|].
      rewrite Ecol in Hg. inversion Hg; subst col0.
      rewrite length_app, length_firstn. cbn [List.length].
      change (match col with [] => [] | _ :: l => skipn j l end) with (skipn (S j) col).
      rewrite length_skipn. lia.
    + rewrite get_set_other by exact N. eauto.
Qed.

Lemma table_after_shape log : forall ts,
  Dict.keys (table_after ts log) = Dict.keys ts /\
  (forall k, (forall s, In s log -> at_node s <> k) ->
     Dict.get k (table_after ts log) = Dict.get k ts) /\
  (forall k col, Dict.get k ts = Some col ->
     exists col', Dict.get k (table_after ts log) = Some col' /\
                  List.length col' = List.length col).
Proof.
  induction log as [|s log IH]; intros ts.
  - split; [reflexivity|]. split; [reflexivity | eauto].
  - change (table_after ts (s :: log)) with (table_after (apply_sample ts s) log).
    destruct (IH (apply_sample ts s)) as [IHk [IHo IHl]].
    assert (Hs : Dict.keys (apply_sample ts s) = Dict.keys ts /\
                 (forall k, k <> at_node s ->
                    Dict.get k (apply_sample ts s) = Dict.get k ts) /\
                 (forall k col, Dict.get k ts = Some col ->
                    exists col', Dict.get k (apply_sample ts s) = Some col' /\
                                 List.length col' = List.length col)).
    { unfold apply_sample.
      destruct (store ts (at_node s) (at_timestep s) (output s)) as [ts'|e] eqn:E.
      - apply store_shape in E. exact E.
      - split; [reflexivity|]. split; [reflexivity | eauto]. }
    destruct Hs as [Hk [Ho Hl]]. split; [|split].
    + rewrite IHk. exact Hk.
    + intros k Hne. rewrite IHo by (intros s' Hs'; apply Hne; right; exact Hs').
      apply Ho. intros E. apply (Hne s (or_introl eq_refl)). symmetry. exact E.
    + intros k col Hg. destruct (Hl k col Hg) as [col1 [Hg1 Hl1]].
      destruct (IHl k col1 Hg1) as [col2 [Hg2 Hl2]]. exists col2. split; [exact Hg2|].
      congruence.
Qed.

Lemma prepare_Ok env d a order ts2 :
  prepare env d a = Ok (order, ts2) ->
  exists axis,
    time_axis env a = Ok axis /\ get_topological_order d = Ok order /\
    match initial_values a with
    | Some (item :: items) =>
        use_initial_values env d a (item :: items)
          (Dict.set (time_column_name a) axis (fresh_table d (n_steps a))) = Ok ts2
    | _ => ts2 = Dict.set (time_column_name a) axis (fresh_table d (n_steps a))
    end.
Proof.
  unfold prepare. destruct (time_axis env a) as [axis|e]; cbn [rbind]; [|discriminate].
  destruct (get_topological_order d) as [o|e]; cbn [rbind]; [|discriminate].
  intros H. exists axis. split; [reflexivity|].
  destruct (initial_values a) as [[|item items]|]; cbn [rbind] in H.
  - injection H as <- <-. auto.
  - destruct (use_initial_values env d a (item :: items) _) as [ts|e];
      cbn [rbind] in H; [|discriminate].
    injection H as <- <-. auto.
  - injection H as <- <-. auto.
Qed.

Lemma dedup_nodup l : NoDup (dedup l).
Proof.
  induction l as [|x l IH]; simpl; [constructor|].
  destruct (memb x l) eqn:E; [exact IH|].
  constructor; [|exact IH]. rewrite dedup_In. apply memb_not_In. exact E.
Qed.

Lemma insert_all_In rank r y :
  In y (fold_right (insert_by_rank rank) [] r) <-> In y r.
Proof.
  induction r as [|x r IH]; simpl; [tauto|].
  rewrite insert_by_rank_In, IH. intuition congruence.
Qed.

Lemma insert_by_rank_nodup rank x l :
  ~ In x l -> NoDup l -> NoDup (insert_by_rank rank x l).
Proof.
  induction l as [|y l IH]; simpl; intros Hx ND.
  - constructor; [tauto | constructor].
  - destruct (rank x <=? rank y)%nat.
    + constructor; [simpl; tauto | exact ND].
    + inversion ND as [|? ? Hy ND']; subst. constructor.
      * rewrite insert_by_rank_In. intros [->|Hin]; [apply Hx; left; reflexivity|].
        contradiction.
      * apply IH; [tauto | exact ND'].
Qed.

Lemma set_iter_nodup env l : NoDup (set_iter env l).
Proof.
  unfold set_iter. pose proof (dedup_nodup l) as ND.
  induction (dedup l) as [|x r IH]; simpl; [constructor|].
  inversion ND as [|? ? Hx ND']; subst.
  apply insert_by_rank_nodup; [|apply IH; exact ND'].
  rewrite insert_all_In. exact Hx.
Qed.

(** What the seeding loop leaves in the table. *)
Lemma seed_table_get lag iv names : forall ts ts',
  NoDup names ->
  seed_table lag iv names ts = Ok ts' ->
  Dict.keys ts' = Dict.keys ts /\
  (forall name, ~ In name names -> Dict.get name ts' = Dict.get name ts) /\
  (forall name, In name names ->
     exists entry col,
       Dict.get name iv = Some entry /\ Z.of_nat (List.length entry) = lag /\
       Dict.get name ts = Some col /\
       Dict.get name ts' = Some (py_slice_assign_to col lag entry)).
Proof.
  induction names as [|name0 rest IH]; intros ts ts' ND; simpl.
  - intros [= <-]. split; [reflexivity|]. split; [reflexivity | intros ? []].
  - inversion ND as [|? ? Hn0 ND']; subst.
    unfold dict_getitem at 1.
    destruct (Dict.get name0 iv) as [entry|] eqn:Eiv; cbn [rbind]; [|discriminate].
    destruct (Z.of_nat (List.length entry) =? lag) eqn:El; cbn [negb]; [|discriminate].
    apply Z.eqb_eq in El.
    unfold dict_getitem at 1.
    destruct (Dict.get name0 ts) as [col|] eqn:Ecol; cbn [rbind]; [|discriminate].
    intros Hseed. destruct (IH _ _ ND' Hseed) as [Hk [Ho Hi]].
    split; [|split].
    + rewrite Hk. apply keys_set_present. apply get_Some_keys in Ecol. exact Ecol.
    + intros name Hname. rewrite Ho by tauto.
      apply get_set_other. intros ->. apply Hname. left; reflexivity.
    + intros name [<-|Hin].
      * exists entry, col. rewrite (Ho name0 Hn0), get_set_same. auto.
      * destruct (Hi name Hin) as [e [c [H1 [H2 [H3 H4]]]]].
        exists e, c. split; [exact H1|]. split; [exact H2|]. split; [|exact H4].
        rewrite get_set_other in H3; [exact H3|]. intros ->. contradiction.
Qed.

Lemma backfill_temporal_Ok lag tc ts all : forall iv iv',
  NoDup (map node_name all) ->
  backfill_temporal lag tc ts all iv = Ok iv' ->
  (forall name tf, In (TemporalNode name tf) all ->
     exists col w, Dict.get tc ts = Some col /\
                   time_feature_window tf (py_slice_to col lag) = Ok w /\
                   Dict.get name iv' = Some w) /\
  (forall name, (forall tf, ~ In (TemporalNode name tf) all) ->
     Dict.get name iv' = Dict.get name iv).
Proof.
  induction all as [|n rest IH]; intros iv iv' ND; simpl.
  - intros [= <-]. split; [intros ? ? [] | reflexivity].
  - inversion ND as [|? ? Hn ND']; subst.
    destruct n as [name0 parents cpd|name0 tf0].
    + intros Hb. destruct (IH _ _ ND' Hb) as [Ht Ho]. split.
      * intros name tf [[=]|Hin]. apply Ht. exact Hin.
      * intros name Hname. apply Ho. intros tf Hin. apply (Hname tf). right; exact Hin.
    + unfold dict_getitem.
      destruct (Dict.get tc ts) as [col|] eqn:Ecol; cbn [rbind]; [|discriminate].
      destruct (time_feature_window tf0 (py_slice_to col lag)) as [w|e] eqn:Ew;
        cbn [rbind]; [|discriminate].
      intros Hb. destruct (IH _ _ ND' Hb) as [Ht Ho]. split.
      * intros name tf [[= <- <-]|Hin].
        -- exists col, w. split; [reflexivity|]. split; [exact Ew|].
           rewrite Ho; [apply get_set_same|].
           intros tf Hin. apply Hn. simpl.
           apply (in_map node_name) in Hin. exact Hin.
        -- destruct (Ht name tf Hin) as [col' [w' H]]. eauto.
      * intros name Hname. rewrite Ho.
        -- apply get_set_other. intros ->. apply (Hname tf0). left; reflexivity.
        -- intros tf Hin. apply (Hname tf). right; exact Hin.
Qed.

Lemma use_initial_values_Ok env d a iv ts1 ts2 :
  use_initial_values env d a iv ts1 = Ok ts2 ->
  exists iv',
    backfill_temporal (max_lag d) (time_column_name a) ts1
      (Dict.values (nodes d)) iv = Ok iv' /\
    Dict.keys ts2 = Dict.keys ts1 /\
    (forall name, ~ In name (Dict.keys (nodes d)) ->
       Dict.get name ts2 = Dict.get name ts1) /\
    (forall name, In name (Dict.keys (nodes d)) ->
       exists entry col,
         Dict.get name iv' = Some entry /\
         Z.of_nat (List.length entry) = max_lag d /\
         Dict.get name ts1 = Some col /\
         Dict.get name ts2 = Some (py_slice_assign_to col (max_lag d) entry)).
Proof.
  unfold use_initial_values.
  destruct (backfill_temporal _ _ _ _ _) as [iv'|e]; cbn [rbind]; [|discriminate].
  destruct (same_set _ _); cbn [negb]; [|discriminate].
  intros Hseed. exists iv'. split; [reflexivity|].
  destruct (seed_table_get _ _ _ _ _ (set_iter_nodup env _) Hseed) as [Hk [Ho Hi]].
  split; [exact Hk|]. split.
  - intros name Hname. apply Ho. rewrite set_iter_In. exact Hname.
  - intros name Hname. apply Hi. rewrite set_iter_In. exact Hname.
Qed.

Lemma slice_assign_length {A} (col entry : list A) :
  List.length (py_slice_assign_to col (Z.of_nat (List.length entry)) entry)
  = Nat.max (List.length entry) (List.length col).
Proof.
  unfold py_slice_assign_to. rewrite length_app, length_skipn.
  rewrite slice_bound_nonneg by lia. lia.
Qed.

Lemma slice_assign_tail {A} (col entry : list A) i :
  (List.length entry <= i)%nat ->
  nth_error (py_slice_assign_to col (Z.of_nat (List.length entry)) entry) i
  = nth_error col i.
Proof.
  intros Hi. unfold py_slice_assign_to. rewrite nth_error_app2 by exact Hi.
  rewrite slice_bound_nonneg by lia. rewrite nth_error_skipn.
  rewrite Nat2Z.id.
  destruct (Nat.le_gt_cases (List.length entry) (List.length col)) as [Hle|Hgt].
  - f_equal. lia.
  - rewrite (proj2 (nth_error_None col i)) by lia.
    apply nth_error_None. lia.
Qed.

Lemma slice_assign_head {A} (col entry : list A) :
  firstn (List.length entry)
    (py_slice_assign_to col (Z.of_nat (List.length entry)) entry) = entry.
Proof.
  unfold py_slice_assign_to. rewrite firstn_app, Nat.sub_diag, firstn_all. simpl.
  apply app_nil_r.
Qed.

Lemma fresh_table_column d n name col :
  Dict.get name (fresh_table d n) = Some col ->
  col = repeat zero_point_zero (Z.to_nat n).
Proof.
  intros Hg. pose proof (get_Some_keys _ _ _ Hg) as Hk.
  rewrite fresh_table_keys in Hk. rewrite (fresh_table_get d n name Hk) in Hg.
  inversion Hg; reflexivity.
Qed.

(** The table handed to the generation loop: its columns are the node
    names followed by the time column, the time column is the time axis
    when no node bears its name, and its rows from the starting timestep on
    are those of the axis in any case. *)
Lemma prepared_table env d a order ts2 axis :
  prepare env d a = Ok (order, ts2) ->
  time_axis env a = Ok axis ->
  Dict.keys ts2
  = Dict.keys (Dict.set (time_column_name a) axis (fresh_table d (n_steps a))) /\
  (~ In (time_column_name a) (Dict.keys (nodes d)) ->
   Dict.get (time_column_name a) ts2 = Some axis) /\
  (exists time_col,
      Dict.get (time_column_name a) ts2 = Some time_col /\
      (List.length axis <= List.length time_col)%nat /\
      forall i, starting_timestep_for_evaluation d a <= Z.of_nat i ->
                nth_error time_col i = nth_error axis i).
Proof.
  intros Hp Ha. apply prepare_Ok in Hp as [axis' [Ha' [_ Hts]]].
  rewrite Ha in Ha'. injection Ha' as <-.
  set (ts1 := Dict.set (time_column_name a) axis (fresh_table d (n_steps a))) in *.
  assert (Hplain : ts2 = ts1 ->
            Dict.keys ts2 = Dict.keys ts1 /\
            (~ In (time_column_name a) (Dict.keys (nodes d)) ->
             Dict.get (time_column_name a) ts2 = Some axis) /\
            (exists time_col,
                Dict.get (time_column_name a) ts2 = Some time_col /\
                (List.length axis <= List.length time_col)%nat /\
                forall i, starting_timestep_for_evaluation d a <= Z.of_nat i ->
                          nth_error time_col i = nth_error axis i)).
  { intros ->. split; [reflexivity|]. unfold ts1. rewrite get_set_same.
    split; [reflexivity|]. exists axis. auto. }
  destruct (initial_values a) as [[|item items]|] eqn:Eiv; [auto | | auto].
  apply use_initial_values_Ok in Hts as [iv' [_ [Hk [Ho Hi]]]].
  split; [exact Hk|]. split.
  - intros Hn. rewrite (Ho _ Hn). unfold ts1. apply get_set_same.
  - destruct (in_dec string_dec (time_column_name a) (Dict.keys (nodes d))) as [Hin|Hn].
    + destruct (Hi _ Hin) as [entry [col [_ [Hlen [Hcol Hg]]]]].
      unfold ts1 in Hcol. rewrite get_set_same in Hcol. injection Hcol as <-.
      rewrite <- Hlen in Hg. eexists. split; [exact Hg|]. split.
      * rewrite slice_assign_length. lia.
      * intros i Hstart. apply slice_assign_tail.
        unfold starting_timestep_for_evaluation in Hstart. rewrite Eiv in Hstart. lia.
    + rewrite (Ho _ Hn). unfold ts1. rewrite get_set_same. exists axis. auto.
Qed.

Lemma nodup_map_injective {A B} (f : A -> B) (l : list A) x y :
  NoDup (map f l) -> In x l -> In y l -> f x = f y -> x = y.
Proof.
  induction l as [|z l IH]; simpl; [tauto|].
  intros ND Hx Hy E. inversion ND as [|? ? Hz ND']; subst.
  destruct Hx as [->|Hx], Hy as [->|Hy]; [reflexivity | | |auto].
  - exfalso. apply Hz. rewrite E. apply in_map. exact Hy.
  - exfalso. apply Hz. rewrite <- E. apply in_map. exact Hx.
Qed.

(** Every sample of a run is the sample of a node of the network, computed
    as [yields] says from the table that holds the samples before it. *)
Lemma sample_of_node env d a r log l1 s l2 :
  dbn_wf d ->
  run_generate env d a = (r, log) ->
  log = l1 ++ s :: l2 ->
  exists order ts2 time_col n time,
    prepare env d a = Ok (order, ts2) /\
    Dict.get (time_column_name a) ts2 = Some time_col /\
    In n order /\ In (node_name n, n) (nodes d) /\
    In (time, at_timestep s) (loop_steps d a time_col) /\
    yields env (replacement_value_for_non_existing_parents a)
      (table_after ts2 l1) (List.length l1) time (at_timestep s) n s.
Proof.
  intros W Hrun Hlog.
  apply generate_samples in Hrun as [[-> _]|[order [ts2 [Hp [Hs [Hnone _]]]]]].
  { destruct l1; discriminate. }
  destruct (Dict.get (time_column_name a) ts2) as [time_col|] eqn:Etc.
  2:{ unfold dict_getitem in Hnone. rewrite Etc in Hnone.
      rewrite (Hnone eq_refl) in Hlog. destruct l1; discriminate. }
  assert (Htc : dict_getitem (time_column_name a) ts2 = Ok time_col)
    by (unfold dict_getitem; rewrite Etc; reflexivity).
  destruct (Hs time_col Htc l1 s l2 Hlog) as [n [time [Hn [Hstep Hy]]]].
  exists order, ts2, time_col, n, time. split; [exact Hp|]. split; [exact Etc|].
  split; [exact Hn|]. split; [|auto].
  destruct (get_topological_order_Ok d order W (prepare_order env d a order ts2 Hp))
    as [_ [Hstored _]].
  apply (wf_values_In d n W), Hstored, Hn.
Qed.

Lemma sample_node_known env d a r log s :
  dbn_wf d -> run_generate env d a = (r, log) -> In s log ->
  In (at_node s) (Dict.keys (nodes d)).
Proof.
  intros W Hrun Hin. apply in_split in Hin as [l1 [l2 Hlog]].
  destruct (sample_of_node env d a r log l1 s l2 W Hrun Hlog)
    as [order [ts2 [time_col [n [time [_ [_ [_ [Hn [_ [Hname _]]]]]]]]]]].
  rewrite Hname. apply (in_map fst) in Hn. exact Hn.
Qed.

Lemma log_keys_nodup env d a r log :
  dbn_wf d -> run_generate env d a = (r, log) -> NoDup (map key_of log).
Proof.
  intros W Hrun. pose proof Hrun as Hrun0.
  apply generate_samples in Hrun as [[-> _]|[order [ts2 [Hp [_ [Hnone _]]]]]];
    [constructor|].
  destruct (dict_getitem (time_column_name a) ts2) as [time_col|e] eqn:Etc.
  - destruct (generate_schedule env d a r log order ts2 time_col Hrun0 Hp Etc)
      as [rest Hs].
    destruct (get_topological_order_Ok d order W (prepare_order env d a order ts2 Hp))
      as [HND _].
    destruct (schedule_nodup order HND _ _ (loop_steps_from_start d a time_col))
      as [Hnd _].
    rewrite Hs in Hnd. apply NoDup_app_remove_r in Hnd. exact Hnd.
  - unfold dict_getitem in *. destruct (Dict.get (time_column_name a) ts2);
      [discriminate|].
    rewrite (Hnone (eq_sym Etc)). constructor.
Qed.


(** ** The table that [generate] returns *)

(** The time axis holds integers only or timestamps only, so its values
    are those of the column of the frame. *)
Lemma time_axis_values env a axis col :
  time_axis env a = Ok axis -> column_values axis = Ok col -> col = axis.
Proof.
  unfold time_axis, generate_datetime_series.
  destruct (start_time a) as [s|], (frequency a) as [f|]; try discriminate.
  - destruct (pd_date_range env s (start_time_format a) (n_steps a) f) as [stamps|e];
      simpl; [|discriminate].
    intros [= <-]. apply column_values_no_float.
    induction stamps; simpl; auto.
  - intros [= <-]. apply column_values_no_float.
    induction (py_range 0 (n_steps a)); simpl; auto.
Qed.

Lemma frame_columns_get_Some name (data cols : Table) col :
  frame_columns data = Ok cols ->
  Dict.get name cols = Some col ->
  exists raw, Dict.get name data = Some raw /\ column_values raw = Ok col.
Proof.
  intros Hcols Hget. pose proof (frame_columns_get name data cols Hcols) as H.
  destruct (Dict.get name data) as [raw|].
  - destruct H as [col' [Hcol' Hget']]. exists raw. split; [reflexivity|]. congruence.
  - congruence.
Qed.

(** X12: When no node bears the name of the time column, the table returned by
    [generate] has the nodes' columns in the order of their insertion,
    followed by the time column, which is the time axis; every column has
    as many rows as the axis has entries. *)
Theorem generate_frame_shape env d a df log :
  dbn_wf d ->
  ~ In (time_column_name a) (Dict.keys (nodes d)) ->
  run_generate env d a = (Ok df, log) ->
  exists axis,
    time_axis env a = Ok axis /\
    Dict.keys (df_columns df) = Dict.keys (nodes d) ++ [time_column_name a] /\
    Dict.get (time_column_name a) (df_columns df) = Some axis /\
    df_rows df = List.length axis /\
    (forall name col, Dict.get name (df_columns df) = Some col ->
                      List.length col = df_rows df).
Proof.
  intros W Htc Hrun.
  destruct (generate_Ok env d a df log Hrun) as [order [ts2 [time_col [Hp [_ [_ [Hdf _]]]]]]].
  destruct (prepare_Ok env d a order ts2 Hp) as [axis [Ha _]].
  destruct (prepared_table env d a order ts2 axis Hp Ha) as [Hk [Hcol _]].
  destruct (make_dataframe_Ok _ _ Hdf) as [Hcols Hlen].
  destruct (table_after_shape log ts2) as [Tk [To _]].
  assert (Hraw : Dict.get (time_column_name a) (table_after ts2 log) = Some axis).
  { rewrite To; [exact (Hcol Htc)|].
    intros s Hs E. apply Htc. rewrite <- E.
    exact (sample_node_known env d a _ log s W Hrun Hs). }
  assert (Hget : Dict.get (time_column_name a) (df_columns df) = Some axis).
  { pose proof (frame_columns_get (time_column_name a) _ _ Hcols) as Hg.
    rewrite Hraw in Hg. destruct Hg as [col [Hcv Hg]].
    rewrite Hg, (time_axis_values env a axis col Ha Hcv). reflexivity. }
  exists axis. split; [exact Ha|]. split; [|split; [exact Hget|split]].
  - rewrite (frame_columns_keys _ _ Hcols), Tk, Hk.
    rewrite keys_set_absent; rewrite fresh_table_keys; auto.
  - symmetry. apply (Hlen (time_column_name a)). apply get_In. exact Hraw.
  - intros name col Hg.
    destruct (frame_columns_get_Some name _ _ col Hcols Hg) as [raw [Hr Hc]].
    rewrite (column_values_length raw col Hc). apply (Hlen name). apply get_In. exact Hr.
Qed.

Lemma generate_frame_shape_witness :
  run_generate Ex.env Ex.chain (default_args 3) = (Ok ExMore.chain_frame, ExMore.chain_log)
  /\ exists axis,
       time_axis Ex.env (default_args 3) = Ok axis /\
       Dict.keys (df_columns ExMore.chain_frame)
       = Dict.keys (nodes Ex.chain) ++ [time_column_name (default_args 3)] /\
       Dict.get (time_column_name (default_args 3)) (df_columns ExMore.chain_frame)
       = Some axis /\
       df_rows ExMore.chain_frame = List.length axis /\
       (forall name col, Dict.get name (df_columns ExMore.chain_frame) = Some col ->
                         List.length col = df_rows ExMore.chain_frame).
Proof.
  assert (Hrun : run_generate Ex.env Ex.chain (default_args 3)
                 = (Ok ExMore.chain_frame, ExMore.chain_log))
    by (vm_compute; reflexivity).
  split; [exact Hrun|].
  apply (generate_frame_shape Ex.env Ex.chain (default_args 3)
           ExMore.chain_frame ExMore.chain_log (dbn_of_wf _)); [|exact Hrun].
  simpl. intros [H|[H|[]]]; discriminate.
Defined.

Lemma log_is_schedule env d a df log :
  0 <= starting_timestep_for_evaluation d a ->
  axis_has_n_steps env a ->
  run_generate env d a = (Ok df, log) ->
  exists order ts2,
    prepare env d a = Ok (order, ts2) /\
    get_topological_order d = Ok order /\
    map key_of log
    = cells order (py_range (starting_timestep_for_evaluation d a) (n_steps a)).
Proof.
  intros Hstart Haxis Hrun.
  destruct (generate_Ok env d a df log Hrun)
    as [order [ts2 [time_col [Hp [Htc [Hloop _]]]]]].
  destruct (prepare_Ok env d a order ts2 Hp) as [axis [Ha [Hord _]]].
  destruct (prepared_table env d a order ts2 axis Hp Ha) as [_ [_ [tcol [Hg [Hlen _]]]]].
  unfold dict_getitem in Htc. rewrite Hg in Htc. injection Htc as ->.
  apply sample_steps_complete in Hloop as [new [Hnew Hmap]]. simpl in Hnew. subst new.
  exists order, ts2. split; [exact Hp|]. split; [exact Hord|].
  rewrite Hmap, schedule_cells, loop_steps_timesteps; [reflexivity | exact Hstart|].
  rewrite <- (Haxis axis Ha). exact Hlen.
Qed.

(** X13: A call that returns has sampled every node at every timestep from the
    starting one to the last, once each, timestep by timestep and within a
    timestep in the zero-lag order. *)
Theorem generate_fills_every_cell_once env d a df log :
  dbn_wf d ->
  0 <= starting_timestep_for_evaluation d a ->
  axis_has_n_steps env a ->
  run_generate env d a = (Ok df, log) ->
  exists order,
    get_topological_order d = Ok order /\
    map key_of log
    = cells order (py_range (starting_timestep_for_evaluation d a) (n_steps a)) /\
    NoDup (map key_of log) /\
    List.length log
    = (List.length (nodes d)
       * Z.to_nat (n_steps a - starting_timestep_for_evaluation d a))%nat.
Proof.
  intros W Hstart Haxis Hrun.
  destruct (log_is_schedule env d a df log Hstart Haxis Hrun)
    as [order [ts2 [_ [Hord Hmap]]]].
  exists order. split; [exact Hord|]. split; [exact Hmap|]. split.
  - exact (log_keys_nodup env d a _ log W Hrun).
  - rewrite <- (length_map key_of log), Hmap.
    destruct (get_topological_order_Ok d order W Hord) as [HND [_ [Hnames _]]].
    assert (Hlen : List.length order = List.length (nodes d)).
    { rewrite <- (length_map node_name order).
      rewrite <- (length_map fst (nodes d)).
      apply Nat.le_antisymm; apply NoDup_incl_length.
      - exact HND.
      - intros x Hx. apply Hnames. exact Hx.
      - destruct W as [ND _]. exact ND.
      - intros x Hx. apply Hnames. exact Hx. }
    clear Hmap. unfold cells. rewrite <- py_range_length, <- Hlen.
    induction (py_range (starting_timestep_for_evaluation d a) (n_steps a))
      as [|t ts IH]; simpl; [lia|].
    rewrite length_app, length_map, IH. lia.
Qed.

Lemma generate_fills_every_cell_once_witness :
  exists order,
    get_topological_order Ex.chain = Ok order /\
    map key_of ExMore.chain_log
    = cells order (py_range (starting_timestep_for_evaluation Ex.chain (default_args 3))
                            (n_steps (default_args 3))) /\
    NoDup (map key_of ExMore.chain_log) /\
    List.length ExMore.chain_log
    = (List.length (nodes Ex.chain)
       * Z.to_nat (n_steps (default_args 3)
                   - starting_timestep_for_evaluation Ex.chain (default_args 3)))%nat.
Proof.
  apply (generate_fills_every_cell_once Ex.env Ex.chain (default_args 3)
           ExMore.chain_frame ExMore.chain_log (dbn_of_wf _)).
  - change (0 <= 0). lia.
  - apply default_axis_has_n_steps; reflexivity.
  - vm_compute. reflexivity.
Defined.





(** ** The initial values in the returned table *)


(** The initial window of a node in the prepared table, when initial
    values are given. *)
Lemma initial_window env d a iv order ts2 :
  dbn_wf d ->
  initial_values a = Some iv -> iv <> [] ->
  prepare env d a = Ok (order, ts2) ->
  forall name n, In (name, n) (nodes d) ->
    exists entry col,
      Dict.get name ts2 = Some col /\
      firstn (Z.to_nat (max_lag d)) col = entry /\
      Z.of_nat (List.length entry) = max_lag d /\
      match n with
      | RegularNode _ _ _ => Dict.get name iv = Some entry
      | TemporalNode _ tf =>
          exists axis, time_axis env a = Ok axis /\
                       time_feature_window tf (py_slice_to axis (max_lag d)) = Ok entry
      end.
Proof.
  intros W Hiv Hne Hp name n Hn.
  destruct (prepare_Ok env d a order ts2 Hp) as [axis [Ha [_ Hts]]].
  rewrite Hiv in Hts. destruct iv as [|item items]; [contradiction|].
  apply use_initial_values_Ok in Hts as [iv' [Hb [_ [_ Hi]]]].
  assert (Hkey : In name (Dict.keys (nodes d))) by (apply (in_map fst) in Hn; exact Hn).
  destruct (Hi name Hkey) as [entry [col1 [Hentry [Hlen [_ Hcol2]]]]].
  exists entry, (py_slice_assign_to col1 (max_lag d) entry).
  split; [exact Hcol2|]. split; [|split; [exact Hlen|]].
  - rewrite <- Hlen, Nat2Z.id. apply slice_assign_head.
  - destruct W as [ND Hnames].
    assert (ND' : NoDup (map node_name (Dict.values (nodes d))))
      by (rewrite (wf_names d (conj ND Hnames)); exact ND).
    destruct (backfill_temporal_Ok _ _ _ _ _ _ ND' Hb) as [Htemp Hother].
    destruct n as [name0 parents cpd|name0 tf].
    + rewrite <- Hentry. symmetry. apply Hother. intros tf Hin.
      apply (wf_values_In d _ (conj ND Hnames)) in Hin. simpl in Hin.
      pose proof (wf_unique_node d name _ _ (conj ND Hnames) Hn Hin). discriminate.
    + pose proof (Hnames _ _ Hn) as E. simpl in E. subst name0.
      assert (Hin : In (TemporalNode name tf) (Dict.values (nodes d))).
      { apply (wf_values_In d _ (conj ND Hnames)). exact Hn. }
      destruct (Htemp name tf Hin) as [col0 [w [Hc0 [Hw Hg]]]].
      rewrite get_set_same in Hc0. injection Hc0 as <-.
      exists axis. split; [exact Ha|]. rewrite Hw. congruence.
Qed.



(** ** Calls that sample nothing *)





(** X17: A network with a zero-lag cycle cannot be sampled: once the start time
    and the frequency are accepted, [generate] raises the cycle error before
    it looks at the initial values and before it samples anything. *)
Theorem cyclic_network_is_not_sampled env d a axis :
  dbn_wf d ->
  has_zero_lag_cycle d ->
  time_axis env a = Ok axis ->
  run_generate env d a = (Err (ValueError CycleDetected), []).
Proof.
  intros W Hcyc Ha. apply prepare_fails_before_sampling.
  unfold prepare. rewrite Ha. cbn [rbind]. rewrite (cycle_detected d W Hcyc).
  reflexivity.
Qed.

Lemma cyclic_network_is_not_sampled_witness :
  run_generate Ex.env Ex.broken (default_args 3) = (Err (ValueError CycleDetected), []).
Proof.
  apply (cyclic_network_is_not_sampled Ex.env Ex.broken (default_args 3)
           (map VInt (py_range 0 3)) (dbn_of_wf _) broken_cycle).
  reflexivity.
Defined.




(** ** Which sample stands where *)

Lemma combine_In_nth {A B} (l : list A) : forall (l' : list B) x y,
  In (x, y) (combine l l') ->
  exists i, nth_error l i = Some x /\ nth_error l' i = Some y.
Proof.
  induction l as [|a l IH]; intros l' x y; simpl; [tauto|].
  destruct l' as [|b l']; simpl; [tauto|].
  intros [[= <- <-]|Hin].
  - exists 0%nat. auto.
  - destruct (IH _ _ _ Hin) as [i Hi]. exists (S i). exact Hi.
Qed.

Lemma seq_nth_error m : forall a i x,
  nth_error (seq a m) i = Some x -> x = (a + i)%nat /\ (i < m)%nat.
Proof.
  induction m as [|m IH]; intros a i x; simpl.
  - destruct i; discriminate.
  - destruct i as [|i]; simpl.
    + intros [= <-]. lia.
    + intros H. apply IH in H. lia.
Qed.

Lemma py_range_In_iff a b t : In t (py_range a b) <-> a <= t < b.
Proof.
  split; [apply py_range_In|]. intros Ht. unfold py_range.
  apply in_map_iff. exists (Z.to_nat (t - a)). split; [lia|].
  apply in_seq. lia.
Qed.

Lemma loop_steps_In d a time_col time t :
  0 <= starting_timestep_for_evaluation d a ->
  In (time, t) (loop_steps d a time_col) ->
  starting_timestep_for_evaluation d a <= t < n_steps a /\
  nth_error time_col (Z.to_nat t) = Some time.
Proof.
  intros Hstart Hin. unfold loop_steps, py_slice_from, py_range in Hin.
  apply combine_In_nth in Hin as [i [Hcol Hrange]].
  rewrite nth_error_skipn, slice_bound_nonneg in Hcol by exact Hstart.
  rewrite nth_error_map in Hrange.
  destruct (nth_error (seq 0 _) i) as [j|] eqn:Ej; [|discriminate].
  apply seq_nth_error in Ej as [-> Hi]. simpl in Hrange. injection Hrange as <-.
  split; [lia|].
  assert (Hlt : (Nat.min (Z.to_nat (starting_timestep_for_evaluation d a))
                   (List.length time_col) + i < List.length time_col)%nat).
  { apply nth_error_Some. rewrite Hcol. discriminate. }
  rewrite <- Hcol. f_equal. lia.
Qed.

(** X20: Every sample of a temporal node is its time feature evaluated on the
    entry of the time axis at the row of the sample, also where a node
    bears the name of the time column. *)
Theorem temporal_samples_follow_the_axis env d a r log axis :
  dbn_wf d ->
  0 <= starting_timestep_for_evaluation d a ->
  time_axis env a = Ok axis ->
  run_generate env d a = (r, log) ->
  forall s tf,
    In s log -> In (at_node s, TemporalNode (at_node s) tf) (nodes d) ->
    exists time,
      nth_error axis (Z.to_nat (at_timestep s)) = Some time /\
      input s = FromTime time /\
      call_time_feature tf time = Ok (output s).
Proof.
  intros W Hstart Ha Hrun s tf Hs Hnode.
  apply in_split in Hs as [l1 [l2 Hlog]].
  destruct (sample_of_node env d a r log l1 s l2 W Hrun Hlog)
    as [order [ts2 [time_col [n [time [Hp [Hg [_ [Hn [Hstep Hy]]]]]]]]]].
  destruct Hy as [Hname [_ [_ Hkind]]].
  rewrite <- Hname in Hn.
  pose proof (wf_unique_node d _ _ _ W Hn Hnode) as ->. simpl in Hkind.
  destruct Hkind as [Hinput Hcall]. exists time. split; [|auto].
  destruct (loop_steps_In d a time_col time _ Hstart Hstep) as [Hrange Hnth].
  destruct (prepared_table env d a order ts2 axis Hp Ha) as [_ [_ [tcol [Hg' [_ Hrows]]]]].
  rewrite Hg in Hg'. injection Hg' as <-.
  rewrite <- Hrows; [exact Hnth | lia].
Qed.

Lemma temporal_samples_follow_the_axis_witness :
  exists time,
    nth_error (map VInt (py_range 0 3)) (Z.to_nat (at_timestep ExMore.t_at_0)) = Some time /\
    input ExMore.t_at_0 = FromTime time /\
    call_time_feature (Some (PointOfPeriodicCycle 7)) time = Ok (output ExMore.t_at_0).
Proof.
  apply (temporal_samples_follow_the_axis Ex.env Ex.seasonal (default_args 3)
           (fst (run_generate Ex.env Ex.seasonal (default_args 3)))
           ExMore.seasonal_log (map VInt (py_range 0 3)) (dbn_of_wf _)).
  - change (0 <= 0). lia.
  - reflexivity.
  - vm_compute. reflexivity.
  - vm_compute. tauto.
  - change (nodes Ex.seasonal) with [("Z", Ex.node_z); ("T", Ex.node_t)].
    right. left. reflexivity.
Defined.

(** In a call that returns, every node of the network has its sample at
    every timestep of the loop. *)
Lemma success_samples_every_node env d a df log name n t :
  dbn_wf d ->
  0 <= starting_timestep_for_evaluation d a ->
  axis_has_n_steps env a ->
  run_generate env d a = (Ok df, log) ->
  In (name, n) (nodes d) ->
  starting_timestep_for_evaluation d a <= t < n_steps a ->
  exists order ts2 axis l1 s l2 time,
    prepare env d a = Ok (order, ts2) /\
    time_axis env a = Ok axis /\
    log = l1 ++ s :: l2 /\
    nth_error axis (Z.to_nat t) = Some time /\
    yields env (replacement_value_for_non_existing_parents a)
      (table_after ts2 l1) (List.length l1) time t n s.
Proof.
  intros W Hstart Haxis Hrun Hn Ht.
  destruct (log_is_schedule env d a df log Hstart Haxis Hrun)
    as [order [ts2 [Hp [Hord Hmap]]]].
  destruct (get_topological_order_Ok d order W Hord) as [_ [_ [Hnames _]]].
  assert (Hcell : In (name, t) (map key_of log)).
  { rewrite Hmap. unfold cells. apply in_flat_map. exists t.
    split; [apply py_range_In_iff; exact Ht|].
    assert (Hk : In name (map node_name order)).
    { apply Hnames. apply (in_map fst) in Hn. exact Hn. }
    apply in_map_iff in Hk as [n' [E Hn']]. apply in_map_iff. exists n'.
    rewrite E. auto. }
  apply in_map_iff in Hcell as [s [Hkey Hs]].
  apply in_split in Hs as [l1 [l2 Hlog]].
  destruct (sample_of_node env d a _ log l1 s l2 W Hrun Hlog)
    as [order' [ts2' [time_col [n' [time [Hp' [Hg [_ [Hn' [Hstep Hy]]]]]]]]]].
  rewrite Hp in Hp'. injection Hp' as <- <-.
  injection Hkey as Hnode Htime.
  pose proof Hy as [Hname _]. rewrite Hnode in Hname. rewrite <- Hname in Hn'.
  pose proof (wf_unique_node d _ _ _ W Hn' Hn) as ->.
  destruct (prepare_Ok env d a order ts2 Hp) as [axis [Ha _]].
  exists order, ts2, axis, l1, s, l2, time.
  split; [exact Hp|]. split; [exact Ha|]. split; [exact Hlog|].
  rewrite Htime in Hstep, Hy. split; [|exact Hy].
  destruct (loop_steps_In d a time_col time t Hstart Hstep) as [_ Hnth].
  destruct (prepared_table env d a order ts2 axis Hp Ha) as [_ [_ [tcol [Hg' [_ Hrows]]]]].
  rewrite Hg in Hg'. injection Hg' as <-.
  rewrite <- Hrows; [exact Hnth | lia].
Qed.

(** ** Networks that cannot be sampled *)

(** X22: A node whose distribution was never set, or a temporal node whose time
    feature was never set, is accepted by [add_node] and by the ordering,
    and makes [generate] raise as soon as there is a step to sample: no
    table is returned. *)
Theorem unset_evaluable_stops_generate env d a name n :
  dbn_wf d ->
  0 <= starting_timestep_for_evaluation d a ->
  axis_has_n_steps env a ->
  In (name, n) (nodes d) ->
  (exists parents, n = RegularNode name parents None) \/ n = TemporalNode name None ->
  starting_timestep_for_evaluation d a < n_steps a ->
  exists e, fst (run_generate env d a) = Err e.
Proof.
  intros W Hstart Haxis Hn Hunset Hsteps.
  destruct (run_generate env d a) as [[df|e] log] eqn:Hrun; [exfalso | simpl; eauto].
  destruct (success_samples_every_node env d a df log name n
              (starting_timestep_for_evaluation d a) W Hstart Haxis Hrun Hn
              ltac:(lia))
    as [order [ts2 [axis [l1 [s [l2 [time [_ [_ [_ [_ Hy]]]]]]]]]]].
  destruct Hy as [_ [_ [_ Hkind]]].
  destruct Hunset as [[parents ->]| ->]; simpl in Hkind.
  - destruct Hkind as [pv [_ [_ Hcall]]]. discriminate.
  - destruct Hkind as [_ Hcall]. discriminate.
Qed.

Lemma unset_evaluable_stops_generate_witness :
  exists e, fst (run_generate Ex.env ExMore.unset (default_args 3)) = Err e.
Proof.
  apply (unset_evaluable_stops_generate Ex.env ExMore.unset (default_args 3)
           "A" (new_node "A") (dbn_of_wf _)).
  - change (0 <= 0). lia.
  - apply default_axis_has_n_steps; reflexivity.
  - simpl. tauto.
  - left. exists []. reflexivity.
  - change (0 < 3). lia.
Defined.

(** X23: [DayOfWeek], [DayOfMonth] and [MonthOfYear] read a field of a
    timestamp: on the integer time axis, which [generate] builds when no
    start time and frequency are given, a temporal node with one of them
    makes [generate] raise as soon as there is a step to sample. *)
Theorem calendar_feature_needs_timestamps env d a cal name tf :
  dbn_wf d ->
  0 <= starting_timestep_for_evaluation d a ->
  start_time a = None -> frequency a = None ->
  In (name, TemporalNode name (Some tf)) (nodes d) ->
  tf = DayOfWeek cal \/ tf = DayOfMonth cal \/ tf = MonthOfYear cal ->
  starting_timestep_for_evaluation d a < n_steps a ->
  exists e, fst (run_generate env d a) = Err e.
Proof.
  intros W Hstart Hs Hf Hn Htf Hsteps.
  destruct (run_generate env d a) as [[df|e] log] eqn:Hrun; [exfalso | simpl; eauto].
  destruct (success_samples_every_node env d a df log name _
              (starting_timestep_for_evaluation d a) W Hstart
              (default_axis_has_n_steps env a Hs Hf) Hrun Hn ltac:(lia))
    as [order [ts2 [axis [l1 [s [l2 [time [_ [Ha [_ [Hnth Hy]]]]]]]]]]].
  destruct Hy as [_ [_ [_ [_ Hcall]]]].
  unfold time_axis in Ha. rewrite Hs, Hf in Ha. injection Ha as <-.
  rewrite nth_error_map in Hnth.
  destruct (nth_error (py_range 0 (n_steps a)) _) as [i|]; [|discriminate].
  injection Hnth as <-.
  destruct Htf as [->|[->| ->]]; discriminate.
Qed.

Lemma calendar_feature_needs_timestamps_witness :
  exists e, fst (run_generate Ex.env ExMore.by_weekday (default_args 3)) = Err e.
Proof.
  apply (calendar_feature_needs_timestamps Ex.env ExMore.by_weekday (default_args 3)
           ExMore.weekdays "D" (DayOfWeek ExMore.weekdays) (dbn_of_wf _)).
  - change (0 <= 0). lia.
  - reflexivity.
  - reflexivity.
  - simpl. tauto.
  - left. reflexivity.
  - change (0 < 3). lia.
Defined.

Lemma prepared_lengths env d a order ts2 :
  prepare env d a = Ok (order, ts2) ->
  axis_has_n_steps env a ->
  starting_timestep_for_evaluation d a <= n_steps a ->
  forall k col, Dict.get k ts2 = Some col -> List.length col = Z.to_nat (n_steps a).
Proof.
  intros Hp Haxis Hle.
  destruct (prepare_Ok env d a order ts2 Hp) as [axis [Ha [_ Hts]]].
  set (ts1 := Dict.set (time_column_name a) axis (fresh_table d (n_steps a))) in *.
  assert (H1 : forall k col, Dict.get k ts1 = Some col ->
                             List.length col = Z.to_nat (n_steps a)).
  { intros k col Hg. unfold ts1 in Hg.
    destruct (string_dec k (time_column_name a)) as [->|N].
    - rewrite get_set_same in Hg. injection Hg as <-. apply Haxis. exact Ha.
    - rewrite get_set_other in Hg by exact N.
      apply fresh_table_column in Hg. subst col. apply repeat_length. }
  destruct (initial_values a) as [[|item items]|] eqn:Eiv;
    [subst ts2; exact H1 | | subst ts2; exact H1].
  apply use_initial_values_Ok in Hts as [iv' [_ [_ [Ho Hi]]]].
  intros k col Hg.
  destruct (in_dec string_dec k (Dict.keys (nodes d))) as [Hin|Hn].
  - destruct (Hi k Hin) as [entry [col1 [_ [Hlen [Hc1 Hc2]]]]].
    rewrite Hc2 in Hg. injection Hg as <-. rewrite <- Hlen, slice_assign_length.
    rewrite (H1 k col1 Hc1).
    unfold starting_timestep_for_evaluation in Hle. rewrite Eiv in Hle. lia.
  - rewrite (Ho k Hn) in Hg. exact (H1 k col Hg).
Qed.

(** X24: A parent with a negative lag is accepted by [add_parent], [add_node]
    and the ordering, and makes [generate] raise as soon as there is a step
    to sample: at the last timestep at the latest, the row that it reads
    lies beyond the end of the parent's column. *)
Theorem negative_lag_stops_generate env d a name parents cpd p lag :
  dbn_wf d ->
  0 <= starting_timestep_for_evaluation d a ->
  axis_has_n_steps env a ->
  In (name, RegularNode name parents cpd) (nodes d) ->
  In (p, lag) parents -> lag < 0 ->
  starting_timestep_for_evaluation d a < n_steps a ->
  exists e, fst (run_generate env d a) = Err e.
Proof.
  intros W Hstart Haxis Hn Hp Hlag Hsteps.
  destruct (run_generate env d a) as [[df|e] log] eqn:Hrun; [exfalso | simpl; eauto].
  destruct (success_samples_every_node env d a df log name _ (n_steps a - 1)
              W Hstart Haxis Hrun Hn ltac:(lia))
    as [order [ts2 [axis [l1 [s [l2 [time [Hprep [_ [_ [_ Hy]]]]]]]]]]].
  destruct Hy as [_ [_ [_ [pv [_ [Hpv _]]]]]].
  destruct (proj2 (parentwise_values_lagged _ _ _ _ _ Hpv p lag Hp) ltac:(lia))
    as [col [v [Hcol [Hv _]]]].
  apply py_getitem_nonneg in Hv; [|lia].
  assert (Hlt : (Z.to_nat (n_steps a - 1 - lag) < List.length col)%nat).
  { apply nth_error_Some. rewrite Hv. discriminate. }
  destruct (table_after_shape l1 ts2) as [Hk [_ Hl]].
  pose proof (get_Some_keys _ _ _ Hcol) as Hkey. rewrite Hk in Hkey.
  destruct (keys_get _ _ Hkey) as [col0 Hcol0].
  destruct (Hl p col0 Hcol0) as [col' [Hcol' Hlen]].
  rewrite Hcol in Hcol'. injection Hcol' as <-.
  rewrite Hlen in Hlt.
  rewrite (prepared_lengths env d a order ts2 Hprep Haxis ltac:(lia) p col0 Hcol0) in Hlt.
  lia.
Qed.

Lemma negative_lag_stops_generate_witness :
  exists e, fst (run_generate Ex.env ExMore.ahead (default_args 3)) = Err e.
Proof.
  apply (negative_lag_stops_generate Ex.env ExMore.ahead (default_args 3)
           "A" [("A", -1)] (Some (as_cpd Ex.intercept_only)) "A" (-1) (dbn_of_wf _)).
  - change (0 <= 0). lia.
  - apply default_axis_has_n_steps; reflexivity.
  - simpl. tauto.
  - simpl. tauto.
  - lia.
  - change (0 < 3). lia.
Defined.

Lemma parents_sampled_before_witness :
  exists name parents cpd,
    In (name, RegularNode name parents cpd) (nodes Ex.chain) /\
    at_node ExRuns.b_at_1 = name /\
    forall p lag,
      In (p, lag) parents -> 0 <= lag -> In p (Dict.keys (nodes Ex.chain)) ->
      starting_timestep_for_evaluation Ex.chain (default_args 3)
      <= at_timestep ExRuns.b_at_1 - lag ->
      exists s', In s' (firstn 3 ExMore.chain_log) /\ at_node s' = p /\
                 at_timestep s' = at_timestep ExRuns.b_at_1 - lag /\
                 Dict.get (p, lag) [(("A", 1), VFloat 5%float)] = Some (output s').
Proof.
  apply (parents_sampled_before Ex.env Ex.chain (default_args 3)
           (fst ExRuns.chain_run) (firstn 3 ExMore.chain_log) ExRuns.b_at_1
           (skipn 4 ExMore.chain_log) [(("A", 1), VFloat 5%float)] (dbn_of_wf _)).
  - change (0 <= 0). lia.
  - vm_compute. reflexivity.
  - reflexivity.
Defined.

(** ** A parent added after the node *)

Lemma set_values_In {V} (d : Dict.t string V) k v : In v (Dict.values (Dict.set k v d)).
Proof.
  pose proof (get_In (Dict.set k v d) k v (get_set_same d k v)) as Hin.
  apply (in_map snd) in Hin. exact Hin.
Qed.

(** X5: [max_lag] is read off the parents that a node has when [add_node]
    takes it: a parent given to the stored node afterwards, with a lag
    above [max_lag], is part of the network while [max_lag] stays below
    the largest lag present. *)
Theorem max_lag_misses_later_parents d name n parent_name lag :
  Dict.get name (nodes d) = Some n ->
  is_temporal n = false ->
  max_lag d < lag ->
  max_lag (add_parent_in_place name parent_name lag d) = max_lag d
  /\ (exists n', get_node name (add_parent_in_place name parent_name lag d) = Some n' /\
                 In (parent_name, lag) (node_parents n'))
  /\ max_lag (add_parent_in_place name parent_name lag d)
     < largest_lag_present (add_parent_in_place name parent_name lag d).
Proof.
  intros Hg Hreg Hlag. unfold add_parent_in_place. rewrite Hg. cbn [max_lag nodes].
  destruct n as [name0 parents cpd|name0 tf]; [|discriminate]. cbn [add_parent].
  split; [reflexivity|]. split.
  - eexists. unfold get_node. cbn [nodes]. split; [apply get_set_same|].
    simpl. apply in_app_iff. right. left. reflexivity.
  - apply Z.lt_le_trans with lag; [exact Hlag|].
    unfold largest_lag_present, lags_present. cbn [nodes]. apply fold_max_In.
    apply in_map_iff. exists (parent_name, lag). split; [reflexivity|].
    apply in_flat_map. eexists. split; [apply set_values_In|].
    simpl. apply in_app_iff. right. left. reflexivity.
Qed.

Lemma max_lag_misses_later_parents_witness :
  max_lag ExMore.late_parent = max_lag Ex.chain
  /\ (exists n', get_node "A" ExMore.late_parent = Some n' /\
                 In ("B", 4) (node_parents n'))
  /\ max_lag ExMore.late_parent < largest_lag_present ExMore.late_parent.
Proof.
  apply (max_lag_misses_later_parents Ex.chain "A" Ex.node_a "B" 4);
    [reflexivity | reflexivity | change (1 < 4); lia].
Defined.

(** ** Plotting what [generate] returns *)

Lemma variable_columns_of_frame (ks : list string) tc :
  ~ In tc ks ->
  filter (fun col => negb (String.eqb col tc)) (ks ++ [tc]) = ks.
Proof.
  intros Hn. rewrite filter_app. simpl. rewrite String.eqb_refl. simpl.
  rewrite app_nil_r. induction ks as [|k ks IH]; simpl; [reflexivity|].
  assert (E : String.eqb k tc = false).
  { apply String.eqb_neq. intros ->. apply Hn. left; reflexivity. }
  rewrite E. simpl. f_equal. apply IH. intros Hin. apply Hn. right; exact Hin.
Qed.

(** X27: On a table returned by [generate] for a network with at least one
    node, none of which bears the name of the time column,
    [plot_timeseries_stacked] called with the same time column draws one
    panel per node, in the order of insertion, each against the time
    axis; called with another name that is no node either, it raises
    its error on the missing time column. *)
Theorem plot_of_generated_table env d a df log :
  dbn_wf d ->
  nodes d <> [] ->
  ~ In (time_column_name a) (Dict.keys (nodes d)) ->
  run_generate env d a = (Ok df, log) ->
  (exists axis panels,
      time_axis env a = Ok axis /\
      plot_timeseries_stacked df (time_column_name a) = Ok panels /\
      map ylabel panels = Dict.keys (nodes d) /\
      forall p, In p panels ->
        xdata p = axis /\ List.length (ydata p) = List.length axis)
  /\ (forall other,
        other <> time_column_name a -> ~ In other (Dict.keys (nodes d)) ->
        plot_timeseries_stacked df other = Err (TimeColumnNotFound other)).
Proof.
  intros W Hne Htc Hrun.
  destruct (generate_Ok env d a df log Hrun) as [order [ts2 [time_col [Hp [_ [_ [Hdf _]]]]]]].
  destruct (prepare_Ok env d a order ts2 Hp) as [axis [Ha _]].
  destruct (prepared_table env d a order ts2 axis Hp Ha) as [Hk [Hcol _]].
  destruct (make_dataframe_Ok _ _ Hdf) as [Hcols Hlen].
  destruct (table_after_shape log ts2) as [Tk [To _]].
  assert (Hkeys : Dict.keys (df_columns df) = Dict.keys (nodes d) ++ [time_column_name a]).
  { rewrite (frame_columns_keys _ _ Hcols), Tk, Hk.
    rewrite keys_set_absent; rewrite fresh_table_keys; auto. }
  assert (Hraw : Dict.get (time_column_name a) (table_after ts2 log) = Some axis).
  { rewrite To; [exact (Hcol Htc)|].
    intros s Hs E. apply Htc. rewrite <- E.
    exact (sample_node_known env d a _ log s W Hrun Hs). }
  assert (Hget : Dict.get (time_column_name a) (df_columns df) = Some axis).
  { pose proof (frame_columns_get (time_column_name a) _ _ Hcols) as Hg.
    rewrite Hraw in Hg. destruct Hg as [col [Hcv Hg]].
    rewrite Hg, (time_axis_values env a axis col Ha Hcv). reflexivity. }
  assert (Hrows : df_rows df = List.length axis).
  { symmetry. apply (Hlen (time_column_name a)). apply get_In. exact Hraw. }
  split.
  - exists axis. unfold plot_timeseries_stacked, Dict.mem.
    assert (Em : memb (time_column_name a) (Dict.keys (df_columns df)) = true).
    { apply memb_In. rewrite Hkeys. apply in_app_iff. right. left. reflexivity. }
    rewrite Em. cbn [negb]. unfold variable_columns.
    rewrite Hkeys, (variable_columns_of_frame _ _ Htc).
    destruct (Dict.keys (nodes d)) as [|k ks] eqn:Ek.
    { destruct (nodes d); [contradiction | discriminate]. }
    eexists. split; [exact Ha|]. split; [reflexivity|]. split.
    + rewrite map_map. simpl. f_equal. apply map_id.
    + intros p Hin. apply in_map_iff in Hin as [v [<- Hv]]. simpl.
      unfold column. rewrite Hget. split; [reflexivity|].
      assert (Hvk : In v (Dict.keys (df_columns df))).
      { rewrite Hkeys. apply in_app_iff. left. exact Hv. }
      destruct (keys_get _ _ Hvk) as [col Hc]. rewrite Hc.
      destruct (frame_columns_get_Some v _ _ col Hcols Hc) as [raw [Hr Hcv]].
      rewrite (column_values_length raw col Hcv), <- Hrows.
      apply (Hlen v). apply get_In. exact Hr.
  - intros other Hne' Hno. unfold plot_timeseries_stacked, Dict.mem.
    assert (Em : memb other (Dict.keys (df_columns df)) = false).
    { apply memb_not_In. rewrite Hkeys. intros Hin.
      apply in_app_iff in Hin as [Hin|[E|[]]]; [contradiction | congruence]. }
    rewrite Em. reflexivity.
Qed.

Lemma plot_of_generated_table_witness :
  (exists axis panels,
      time_axis Ex.env (default_args 3) = Ok axis /\
      plot_timeseries_stacked ExMore.chain_frame (time_column_name (default_args 3))
      = Ok panels /\
      map ylabel panels = Dict.keys (nodes Ex.chain) /\
      forall p, In p panels ->
        xdata p = axis /\ List.length (ydata p) = List.length axis)
  /\ (forall other,
        other <> time_column_name (default_args 3) ->
        ~ In other (Dict.keys (nodes Ex.chain)) ->
        plot_timeseries_stacked ExMore.chain_frame other = Err (TimeColumnNotFound other)).
Proof.
  apply (plot_of_generated_table Ex.env Ex.chain (default_args 3)
           ExMore.chain_frame ExMore.chain_log (dbn_of_wf _)).
  - discriminate.
  - simpl. intros [H|[H|[]]]; discriminate.
  - vm_compute. reflexivity.
Defined.

(** ** The layout of the network plot *)

Lemma place_slice_keys time row : forall index pos label,
  In label (Dict.keys (place_slice time index row pos)) <->
  In label (Dict.keys pos) \/
  exists node, In node row /\ label = node_copy (node_name node) time.
Proof.
  induction row as [|node rest IH]; intros index pos label; simpl.
  - split; [auto | intros [H|[node [[] _]]]; exact H].
  - rewrite IH, keys_set_In. split.
    + intros [[->|H]|[n [Hn ->]]]; eauto.
    + intros [H|[n [[<-|Hn] ->]]]; eauto.
Qed.

Lemma node_positions_keys row times : forall pos label,
  In label (Dict.keys (fold_left (fun pos time => place_slice time 0 row pos) times pos))
  <->
  In label (Dict.keys pos) \/
  exists time node, In time times /\ In node row /\
                    label = node_copy (node_name node) time.
Proof.
  induction times as [|t times IH]; intros pos label; simpl.
  - split; [auto | intros [H|[time [node [[] _]]]]; exact H].
  - rewrite IH, place_slice_keys. split.
    + intros [[H|[n [Hn ->]]]|[time [n [Ht [Hn ->]]]]]; eauto 8.
    + intros [H|[time [n [[<-|Ht] [Hn ->]]]]]; eauto 8.
Qed.

Lemma edge_coordinates_Ok pos edges :
  (forall u v, In (u, v) edges -> In u (Dict.keys pos) /\ In v (Dict.keys pos)) ->
  exists coords, edge_coordinates pos edges = Ok coords /\
                 List.length coords = List.length edges.
Proof.
  induction edges as [|[u v] rest IH]; intros H; simpl; [exists []; auto|].
  destruct (H u v (or_introl eq_refl)) as [Hu Hv].
  destruct (keys_get _ _ Hu) as [pu Hpu]. destruct (keys_get _ _ Hv) as [pv Hpv].
  destruct IH as [coords [Hc Hl]]; [intros u' v' Hin; apply H; right; exact Hin|].
  unfold dict_getitem. rewrite Hpu, Hpv. cbn [rbind]. rewrite Hc. cbn [rbind].
  eexists. split; [reflexivity|]. simpl. rewrite Hl. reflexivity.
Qed.

(** X26: When every parent is a node of the network and no lag is negative,
    both endpoints of every edge that [plot_network] draws are copies with
    a position: none of the position lookups of the drawing loop fails. *)
Theorem plot_network_edges_have_positions d :
  dbn_wf d ->
  (forall n p lag, In n (Dict.values (nodes d)) -> In (p, lag) (node_parents n) ->
                   In p (Dict.keys (nodes d)) /\ 0 <= lag) ->
  (forall u v, In (u, v) (plot_edges d) ->
               In u (Dict.keys (node_positions d)) /\
               In v (Dict.keys (node_positions d)))
  /\ exists coords,
       edge_coordinates (node_positions d) (plot_edges d) = Ok coords /\
       List.length coords = List.length (plot_edges d).
Proof.
  intros W Hparents.
  assert (Hpos : forall u v, In (u, v) (plot_edges d) ->
                             In u (Dict.keys (node_positions d)) /\
                             In v (Dict.keys (node_positions d))).
  { intros u v Hin. unfold plot_edges in Hin.
    apply in_flat_map in Hin as [child [Hchild Hin]].
    apply in_flat_map in Hin as [[p lag] [Hpl Hin]].
    unfold edges_of_pair in Hin. apply in_flat_map in Hin as [time [Htime Hin]].
    simpl in Hin. destruct (0 <=? time - lag) eqn:E; [|destruct Hin].
    destruct Hin as [[= <- <-]|[]]. apply Z.leb_le in E.
    destruct (Hparents child p lag Hchild Hpl) as [Hp Hlag].
    apply py_range_In in Htime.
    unfold node_positions. rewrite !node_positions_keys. split; right.
    - rewrite <- (wf_names d W) in Hp. apply in_map_iff in Hp as [n [<- Hn]].
      exists (time - lag), n. split; [apply py_range_In_iff; lia | auto].
    - exists time, child. split; [apply py_range_In_iff; lia | auto]. }
  split; [exact Hpos|]. apply edge_coordinates_Ok. exact Hpos.
Qed.

Lemma plot_network_edges_have_positions_witness :
  (forall u v, In (u, v) (plot_edges Ex.chain) ->
               In u (Dict.keys (node_positions Ex.chain)) /\
               In v (Dict.keys (node_positions Ex.chain)))
  /\ exists coords,
       edge_coordinates (node_positions Ex.chain) (plot_edges Ex.chain) = Ok coords /\
       List.length coords = List.length (plot_edges Ex.chain).
Proof.
  apply (plot_network_edges_have_positions Ex.chain (dbn_of_wf _)).
  intros n p lag [<-|[<-|[]]]; simpl; [tauto|].
  intros [[= <- <-]|[]]. split; [tauto | lia].
Defined.

(** ** An initial window longer than the series *)

(** X19: With initial values and fewer steps than [max_lag], [generate] never
    returns a table and samples nothing: the seeded columns have [max_lag]
    rows, the time column has [n_steps], and the loop has no step. *)
Theorem initial_window_longer_than_series env d a iv :
  dbn_wf d ->
  initial_values a = Some iv -> iv <> [] ->
  nodes d <> [] ->
  ~ In (time_column_name a) (Dict.keys (nodes d)) ->
  axis_has_n_steps env a ->
  0 <= n_steps a < max_lag d ->
  exists e, run_generate env d a = (Err e, []).
Proof.
  intros W Hiv Hne Hnodes Htc Haxis Hn.
  destruct (run_generate env d a) as [r log] eqn:Hrun.
  assert (Hlog : log = []).
  { destruct log as [|s log]; [reflexivity|].
    pose proof (samples_from_start env d a r _ s Hrun (or_introl eq_refl)) as Hs.
    unfold starting_timestep_for_evaluation in Hs. rewrite Hiv in Hs. lia. }
  subst log. destruct r as [df|e]; [exfalso | eauto].
  destruct (generate_Ok env d a df [] Hrun) as [order [ts2 [time_col [Hp [_ [_ [Hdf _]]]]]]].
  destruct (make_dataframe_Ok _ _ Hdf) as [_ Hlen].
  change (table_after ts2 []) with ts2 in Hlen.
  destruct (prepare_Ok env d a order ts2 Hp) as [axis [Ha [_ Hts]]].
  destruct (prepared_table env d a order ts2 axis Hp Ha) as [_ [Hcol _]].
  rewrite Hiv in Hts. destruct iv as [|item items]; [contradiction|].
  apply use_initial_values_Ok in Hts as [iv' [_ [_ [_ Hi]]]].
  destruct (nodes d) as [|[name n] rest] eqn:En; [contradiction|].
  destruct (Hi name (or_introl eq_refl)) as [entry [col1 [_ [Hentry [_ Hc2]]]]].
  pose proof (Hlen _ _ (get_In _ _ _ Hc2)) as H1.
  pose proof (Hlen _ _ (get_In _ _ _ (Hcol Htc))) as H2.
  rewrite <- Hentry, slice_assign_length in H1.
  rewrite (Haxis axis Ha) in H2. lia.
Qed.

Lemma initial_window_longer_than_series_witness :
  exists e, run_generate Ex.env Ex.chain (ExMore.seeded_chain 0) = (Err e, []).
Proof.
  apply (initial_window_longer_than_series Ex.env Ex.chain (ExMore.seeded_chain 0)
           [("A", [VFloat 1%float]); ("B", [VFloat 2%float])] (dbn_of_wf _) eq_refl).
  - discriminate.
  - discriminate.
  - simpl. intros [H|[H|[]]]; discriminate.
  - apply default_axis_has_n_steps; reflexivity.
  - change (0 <= 0 < 1). lia.
Defined.

(** ** The mapping handed to a distribution *)

Lemma parentwise_values_keys ts t r parents : forall acc pv,
  NoDup (Dict.keys acc) ->
  parentwise_values ts t r parents acc = Ok pv ->
  NoDup (Dict.keys pv) /\
  forall pk, In pk (Dict.keys pv) <-> In pk (Dict.keys acc) \/ In pk parents.
Proof.
  induction parents as [|pk0 rest IH]; intros acc pv ND; simpl.
  - intros [= <-]. split; [exact ND | tauto].
  - destruct (lookup_parent ts t r pk0) as [v0|]; cbn [rbind]; [|discriminate].
    intros Hrest.
    destruct (IH _ _ (keys_set_nodup acc pk0 v0 ND) Hrest) as [ND' Hin].
    split; [exact ND'|]. intros pk. rewrite Hin, keys_set_In. intuition congruence.
Qed.

(** X28: The mapping built for a node holds one entry per distinct (parent,
    lag) pair of the node: a pair that [add_parent] was given twice is
    handed to the distribution, and weighted, once. *)
Theorem parent_mapping_has_distinct_keys ts t r parents pv :
  parentwise_values ts t r parents [] = Ok pv ->
  NoDup (Dict.keys pv)
  /\ (forall pk, In pk (Dict.keys pv) <-> In pk parents)
  /\ (List.length pv <= List.length parents)%nat.
Proof.
  intros Hpv.
  destruct (parentwise_values_keys ts t r parents [] pv (NoDup_nil _) Hpv) as [ND Hin].
  assert (Hiff : forall pk, In pk (Dict.keys pv) <-> In pk parents).
  { intros pk. rewrite Hin. simpl. tauto. }
  split; [exact ND|]. split; [exact Hiff|].
  rewrite <- (length_map fst pv). apply NoDup_incl_length; [exact ND|].
  intros pk Hpk. apply Hiff. exact Hpk.
Qed.

Lemma parent_mapping_has_distinct_keys_witness :
  parentwise_values ExMore.column_a 1 zero_point_zero ExMore.twice_a []
  = Ok [(("A", 1), VFloat 1%float)]
  /\ NoDup (Dict.keys [(("A", 1), VFloat 1%float)])
  /\ (forall pk, In pk (Dict.keys [(("A", 1), VFloat 1%float)]) <-> In pk ExMore.twice_a)
  /\ (List.length [(("A", 1), VFloat 1%float)] <= List.length ExMore.twice_a)%nat.
Proof.
  split; [reflexivity|].
  apply (parent_mapping_has_distinct_keys ExMore.column_a 1 zero_point_zero).
  reflexivity.
Defined.

(** ** The order in which a set of names is iterated *)

Lemma dict_ext {V} (t1 : Dict.t string V) : forall t2,
  Dict.keys t1 = Dict.keys t2 ->
  NoDup (Dict.keys t1) ->
  (forall k, Dict.get k t1 = Dict.get k t2) ->
  t1 = t2.
Proof.
  induction t1 as [|[k1 v1] t1 IH]; intros [|[k2 v2] t2]; simpl; try discriminate;
    [reflexivity|].
  intros [= <- Hk] ND Hget. inversion ND as [|? ? Hn ND']; subst.
  pose proof (Hget k1) as H1. rewrite String.eqb_refl in H1. injection H1 as <-.
  f_equal. apply IH; [exact Hk | exact ND'|].
  intros k. destruct (String.eqb k k1) eqn:E.
  - apply String.eqb_eq in E. subst k.
    rewrite (proj2 (get_None_keys t1 k1) Hn).
    symmetry. apply get_None_keys. rewrite <- Hk. exact Hn.
  - specialize (Hget k). rewrite E in Hget. exact Hget.
Qed.

Lemma seed_table_order lag iv names names' ts ts' :
  NoDup names -> NoDup names' -> (forall x, In x names <-> In x names') ->
  NoDup (Dict.keys ts) ->
  seed_table lag iv names ts = Ok ts' ->
  seed_table lag iv names' ts = Ok ts'.
Proof.
  intros ND ND' Hsame NDts Hseed.
  destruct (seed_table_get lag iv names ts ts' ND Hseed) as [Hk [Ho Hi]].
  destruct (seed_table_result lag iv names' ts) as [[ts'' [Hseed' _]]|[name [entry H]]].
  - intros name Hn. destruct (Hi name (proj2 (Hsame name) Hn)) as [e [c [He _]]].
    apply (get_Some_keys iv name e He).
  - intros name Hn. destruct (Hi name (proj2 (Hsame name) Hn)) as [e [c [_ [_ [Hc _]]]]].
    apply (get_Some_keys ts name c Hc).
  - rewrite Hseed'. f_equal.
    destruct (seed_table_get lag iv names' ts ts'' ND' Hseed') as [Hk' [Ho' Hi']].
    apply dict_ext; [congruence | rewrite Hk'; exact NDts|].
    intros k. destruct (in_dec string_dec k names) as [Hin|Hnot].
    + destruct (Hi k Hin) as [e [c [He [_ [Hc Hg]]]]].
      destruct (Hi' k (proj1 (Hsame k) Hin)) as [e' [c' [He' [_ [Hc' Hg']]]]].
      rewrite Hg, Hg'. congruence.
    + rewrite (Ho k Hnot). apply Ho'. intros Hin. apply Hnot, Hsame, Hin.
  - exfalso. destruct H as [Hn [He [Hlen _]]].
    destruct (Hi name (proj2 (Hsame name) Hn)) as [e [c [He' [Hlen' _]]]].
    rewrite He in He'. injection He' as <-. contradiction.
Qed.

Lemma sample_node_env env env' r time t ts n :
  omega env' = omega env ->
  sample_node env' r time t ts n = sample_node env r time t ts n.
Proof. intros H. unfold sample_node, draw. rewrite H. reflexivity. Qed.

Lemma sample_timestep_env env env' r time t :
  omega env' = omega env ->
  forall order ts log,
    sample_timestep env' r time t order ts log = sample_timestep env r time t order ts log.
Proof.
  intros H. induction order as [|n order IH]; intros ts log; simpl; [reflexivity|].
  unfold bind. rewrite (sample_node_env env env' r time t ts n H).
  destruct (sample_node env r time t ts n log) as [[ts1|e] log1]; [apply IH | reflexivity].
Qed.

Lemma sample_steps_env env env' r order :
  omega env' = omega env ->
  forall steps ts log,
    sample_steps env' r order steps ts log = sample_steps env r order steps ts log.
Proof.
  intros H. induction steps as [|[time t] steps IH]; intros ts log; simpl; [reflexivity|].
  unfold bind. rewrite (sample_timestep_env env env' r time t H).
  destruct (sample_timestep env r time t order ts log) as [[ts1|e] log1];
    [apply IH | reflexivity].
Qed.

(** X29: The loop that checks and seeds the initial values runs over a set of
    names, in an order that Python does not fix.  A call of [generate] that
    returns under one order returns the same table, from the same samples,
    under every other. *)
Theorem generate_ignores_set_order env env' d a df log :
  dbn_wf d ->
  omega env' = omega env ->
  pd_date_range env' = pd_date_range env ->
  run_generate env d a = (Ok df, log) ->
  run_generate env' d a = (Ok df, log).
Proof.
  intros W Homega Hpd Hrun.
  destruct (generate_Ok env d a df log Hrun) as [order [ts2 [_ [Hp _]]]].
  assert (Hp' : prepare env' d a = Ok (order, ts2)).
  { destruct (prepare_Ok env d a order ts2 Hp) as [axis [Ha [Hord Hts]]].
    assert (Ha' : time_axis env' a = Ok axis).
    { rewrite <- Ha. unfold time_axis, generate_datetime_series. rewrite Hpd.
      reflexivity. }
    unfold prepare. rewrite Ha', Hord. cbn [rbind].
    destruct (initial_values a) as [[|item items]|]; [rewrite Hts; reflexivity | |
                                                     rewrite Hts; reflexivity].
    assert (Hts' : use_initial_values env' d a (item :: items)
                     (Dict.set (time_column_name a) axis (fresh_table d (n_steps a)))
                   = Ok ts2).
    { revert Hts. unfold use_initial_values.
      destruct (backfill_temporal _ _ _ _ _) as [iv'|e]; cbn [rbind]; [|discriminate].
      destruct (same_set _ _); cbn [negb]; [|discriminate].
      apply seed_table_order; try apply set_iter_nodup.
      - intros x. rewrite !set_iter_In. reflexivity.
      - apply keys_set_nodup. rewrite fresh_table_keys. destruct W as [ND _]. exact ND. }
    rewrite Hts'. reflexivity. }
  rewrite <- Hrun. unfold run_generate, generate, bind, lift. rewrite Hp, Hp'.
  cbn [fst snd].
  destruct (dict_getitem (time_column_name a) ts2) as [time_col|e]; [|reflexivity].
  rewrite (sample_steps_env env env' _ order Homega). reflexivity.
Qed.

Lemma generate_ignores_set_order_witness :
  run_generate ExMore.other_set_order ExSpec.net ExSpec.seeded
  = (Ok ExMore.seeded_frame, ExMore.seeded_log).
Proof.
  apply (generate_ignores_set_order Ex.env ExMore.other_set_order ExSpec.net
           ExSpec.seeded ExMore.seeded_frame ExMore.seeded_log (dbn_of_wf _)
           eq_refl eq_refl).
  vm_compute. reflexivity.
Defined.

(** ** The values handed to a distribution, over a run *)

(** A lagged row below the starting timestep is read as the prepared table
    has it: the loop stores nothing there. *)
Lemma lagged_parent_initial env d a r l1 s l2 pv ts2 parents :
  run_generate env d a = (r, l1 ++ s :: l2) ->
  parentwise_values (table_after ts2 l1) (at_timestep s)
    (replacement_value_for_non_existing_parents a) parents [] = Ok pv ->
  forall p lag, In (p, lag) parents ->
    0 <= at_timestep s - lag < starting_timestep_for_evaluation d a ->
    exists col v,
      Dict.get p ts2 = Some col /\
      nth_error col (Z.to_nat (at_timestep s - lag)) = Some v /\
      Dict.get (p, lag) pv = Some v.
Proof.
  intros Hrun Hvals p lag Hpl [H0 Hlt].
  destruct (proj2 (parentwise_values_lagged _ _ _ _ _ Hvals p lag Hpl) H0)
    as [col' [v [Hcol' [Hv Hg]]]].
  apply py_getitem_nonneg in Hv; [|exact H0].
  destruct (table_after_shape l1 ts2) as [Tk _].
  assert (Hkey : In p (Dict.keys ts2)).
  { rewrite <- Tk. apply get_In in Hcol'. apply (in_map fst) in Hcol'. exact Hcol'. }
  destruct (keys_get _ _ Hkey) as [col Hcol].
  assert (Hkept : rows_kept (at_timestep s - lag + 1) ts2 (table_after ts2 l1)).
  { apply table_after_rows_kept; [lia|]. intros s' Hs'.
    assert (Hin : In s' (l1 ++ s :: l2)) by (apply in_app_iff; left; exact Hs').
    pose proof (samples_from_start env d a r _ s' Hrun Hin). lia. }
  destruct (Hkept p col Hcol) as [col'' [Hc'' Hrows]].
  rewrite Hcol' in Hc''. injection Hc'' as <-.
  exists col, v. split; [exact Hcol|]. split; [|exact Hg].
  rewrite <- Hrows; [exact Hv | lia].
Qed.

(** With the empty mapping as initial values, such a row of a node's
    column is the placeholder of the fresh table. *)
Lemma lagged_parent_placeholder env d a r l1 s l2 pv order ts2 parents :
  initial_values a = Some [] ->
  run_generate env d a = (r, l1 ++ s :: l2) ->
  prepare env d a = Ok (order, ts2) ->
  parentwise_values (table_after ts2 l1) (at_timestep s)
    (replacement_value_for_non_existing_parents a) parents [] = Ok pv ->
  forall p lag, In (p, lag) parents ->
    In p (Dict.keys (nodes d)) -> p <> time_column_name a ->
    0 <= at_timestep s - lag < starting_timestep_for_evaluation d a ->
    Dict.get (p, lag) pv = Some (VFloat 0%float).
Proof.
  intros Hiv Hrun Hp Hvals p lag Hpl Hkey Hneq Hrow.
  destruct (lagged_parent_initial env d a r l1 s l2 pv ts2 parents Hrun Hvals
              p lag Hpl Hrow) as [col [v [Hcol [Hv Hg]]]].
  destruct (prepare_Ok env d a order ts2 Hp) as [axis [_ [_ Hts]]].
  rewrite Hiv in Hts. subst ts2.
  rewrite get_set_other in Hcol by exact Hneq.
  rewrite (fresh_table_get d (n_steps a) p Hkey) in Hcol. injection Hcol as <-.
  apply nth_error_In, repeat_spec in Hv. rewrite Hg, Hv. reflexivity.
Qed.

(** With initial values, it is the entry of the parent's initial window. *)
Lemma lagged_parent_window env d a iv r l1 s l2 pv order ts2 parents :
  dbn_wf d ->
  initial_values a = Some iv -> iv <> [] ->
  run_generate env d a = (r, l1 ++ s :: l2) ->
  prepare env d a = Ok (order, ts2) ->
  parentwise_values (table_after ts2 l1) (at_timestep s)
    (replacement_value_for_non_existing_parents a) parents [] = Ok pv ->
  forall p lag n, In (p, lag) parents -> In (p, n) (nodes d) ->
    0 <= at_timestep s - lag < starting_timestep_for_evaluation d a ->
    exists entry v,
      nth_error entry (Z.to_nat (at_timestep s - lag)) = Some v /\
      Dict.get (p, lag) pv = Some v /\
      match n with
      | RegularNode _ _ _ => Dict.get p iv = Some entry
      | TemporalNode _ tf =>
          exists axis, time_axis env a = Ok axis /\
                       time_feature_window tf (py_slice_to axis (max_lag d)) = Ok entry
      end.
Proof.
  intros W Hiv Hne Hrun Hp Hvals p lag n Hpl Hn Hrow.
  destruct (lagged_parent_initial env d a r l1 s l2 pv ts2 parents Hrun Hvals
              p lag Hpl Hrow) as [col [v [Hcol [Hv Hg]]]].
  destruct (initial_window env d a iv order ts2 W Hiv Hne Hp p n Hn)
    as [entry [col0 [Hcol0 [Hfirst [_ Hn']]]]].
  rewrite Hcol in Hcol0. injection Hcol0 as <-.
  exists entry, v. split; [|split; [exact Hg | exact Hn']].
  rewrite <- Hfirst, nth_error_firstn.
  unfold starting_timestep_for_evaluation in Hrow. rewrite Hiv in Hrow.
  destruct (Nat.ltb_spec (Z.to_nat (at_timestep s - lag)) (Z.to_nat (max_lag d)));
    [exact Hv | lia].
Qed.

(** C3, as amended: the mapping that the sampler builds for a non-temporal
    node at timestep [t] holds, under every (parent, lag) pair of the node,
    the configured replacement when [t - lag < 0], the lookup raising
    nothing, and otherwise the entry found at row [t - lag] of the
    parent's column of the table; a parent without a column makes the
    lookup raise a key error.  In every run, the mapping handed to the
    distribution of a stored sample is the one built from the table that
    holds all the values stored before that sample, and for each of its
    pairs: when the network is well formed, the run starts at a
    non-negative timestep, the lag is not negative, the parent is a node
    and [t - lag] is not before the starting timestep, the value is the
    output of the sample that the parent has stored at timestep [t - lag]
    earlier in the run; when [0 <= t - lag] is before the starting timestep,
    the value is the row of the prepared table, which is the 0.0 placeholder
    when the initial values are the empty mapping (for a node not named
    like the time column), and the entry of the parent's initial window
    when initial values were given.  The replacement is 0.0 unless the
    caller overrides it. *)
Theorem lagged_parent_values env d a :
  (forall ts t parents pv,
      parentwise_values ts t (replacement_value_for_non_existing_parents a) parents []
      = Ok pv ->
      forall p lag, In (p, lag) parents ->
        (t - lag < 0 ->
         lookup_parent ts t (replacement_value_for_non_existing_parents a) (p, lag)
         = Ok (replacement_value_for_non_existing_parents a) /\
         Dict.get (p, lag) pv = Some (replacement_value_for_non_existing_parents a)) /\
        (0 <= t - lag ->
         exists col v,
           Dict.get p ts = Some col /\ nth_error col (Z.to_nat (t - lag)) = Some v /\
           Dict.get (p, lag) pv = Some v))
  /\ (forall ts t p lag,
        0 <= t - lag -> Dict.get p ts = None ->
        lookup_parent ts t (replacement_value_for_non_existing_parents a) (p, lag)
        = Err (KeyError p))
  /\ (forall r l1 s l2 pv,
        run_generate env d a = (r, l1 ++ s :: l2) ->
        input s = FromParents pv ->
        exists order ts2 name parents cpd,
          prepare env d a = Ok (order, ts2) /\
          In (RegularNode name parents cpd) order /\ at_node s = name /\
          parentwise_values (table_after ts2 l1) (at_timestep s)
            (replacement_value_for_non_existing_parents a) parents [] = Ok pv /\
          call_cpd cpd pv (omega env (List.length l1)) = Ok (output s) /\
          forall p lag, In (p, lag) parents ->
            (dbn_wf d -> 0 <= starting_timestep_for_evaluation d a ->
             0 <= lag -> In p (Dict.keys (nodes d)) ->
             starting_timestep_for_evaluation d a <= at_timestep s - lag ->
             exists s', In s' l1 /\ at_node s' = p /\
                        at_timestep s' = at_timestep s - lag /\
                        Dict.get (p, lag) pv = Some (output s'))
            /\ (0 <= at_timestep s - lag < starting_timestep_for_evaluation d a ->
                exists col v,
                  Dict.get p ts2 = Some col /\
                  nth_error col (Z.to_nat (at_timestep s - lag)) = Some v /\
                  Dict.get (p, lag) pv = Some v)
            /\ (initial_values a = Some [] ->
                In p (Dict.keys (nodes d)) -> p <> time_column_name a ->
                0 <= at_timestep s - lag < starting_timestep_for_evaluation d a ->
                Dict.get (p, lag) pv = Some (VFloat 0%float))
            /\ (dbn_wf d ->
                forall iv n, initial_values a = Some iv -> iv <> [] ->
                In (p, n) (nodes d) ->
                0 <= at_timestep s - lag < starting_timestep_for_evaluation d a ->
                exists entry v,
                  nth_error entry (Z.to_nat (at_timestep s - lag)) = Some v /\
                  Dict.get (p, lag) pv = Some v /\
                  match n with
                  | RegularNode _ _ _ => Dict.get p iv = Some entry
                  | TemporalNode _ tf =>
                      exists axis,
                        time_axis env a = Ok axis /\
                        time_feature_window tf (py_slice_to axis (max_lag d)) = Ok entry
                  end))
  /\ (forall n, replacement_value_for_non_existing_parents (default_args n) = VFloat 0%float).
Proof.
  split; [|split; [|split; [|reflexivity]]].
  - intros ts t parents pv Hvals p lag Hpl.
    destruct (parentwise_values_lagged ts t _ parents pv Hvals p lag Hpl) as [Hneg Hpos].
    split; [exact Hneg|]. intros H0.
    destruct (Hpos H0) as [col [v [Hcol [Hv Hg]]]].
    exists col, v. split; [exact Hcol|]. split; [|exact Hg].
    apply py_getitem_nonneg; assumption.
  - intros ts t p lag H0 Hnone. unfold lookup_parent, dict_getitem. simpl.
    destruct (Z.leb_spec 0 (t - lag)); [|lia]. rewrite Hnone. reflexivity.
  - intros r l1 s l2 pv Hrun Hin.
    destruct (regular_sample_inputs env d a r _ l1 s l2 pv Hrun eq_refl Hin)
      as [order [ts2 [name [parents [cpd [Hp [Hn [Hname [Hvals Hcall]]]]]]]]].
    exists order, ts2, name, parents, cpd.
    split; [exact Hp|]. split; [exact Hn|]. split; [exact Hname|].
    split; [exact Hvals|]. split; [exact Hcall|].
    intros p lag Hpl. split; [|split; [|split]].
    + intros W Hstart Hlag Hkey Hrow.
      exact (lagged_parent_sample env d a r l1 s l2 pv order ts2 name parents cpd
               W Hstart Hrun Hp Hn Hname Hvals p lag Hpl Hlag Hkey Hrow).
    + exact (lagged_parent_initial env d a r l1 s l2 pv ts2 parents Hrun Hvals p lag Hpl).
    + intros Hiv Hkey Hneq Hrow.
      exact (lagged_parent_placeholder env d a r l1 s l2 pv order ts2 parents
               Hiv Hrun Hp Hvals p lag Hpl Hkey Hneq Hrow).
    + intros W iv n Hiv Hne Hpn Hrow.
      exact (lagged_parent_window env d a iv r l1 s l2 pv order ts2 parents
               W Hiv Hne Hrun Hp Hvals p lag n Hpl Hpn Hrow).
Qed.

Lemma lagged_parent_values_witness :
  (exists s', In s' (firstn 3 ExMore.seeded_log) /\ at_node s' = "A" /\
              at_timestep s' = at_timestep ExMore.seeded_b_at_2 - 1 /\
              Dict.get ("A", 1) [(("A", 1), VFloat 5%float)] = Some (output s'))
  /\ (exists entry v,
        nth_error entry (Z.to_nat (at_timestep ExMore.seeded_b_at_1 - 1)) = Some v /\
        Dict.get ("A", 1) [(("A", 1), VFloat 10%float)] = Some v /\
        Dict.get "A" [("A", [VFloat 10%float]); ("B", [VFloat 5%float])] = Some entry).
Proof.
  assert (Hparents : forall order ts2 name parents cpd,
             prepare Ex.env ExSpec.net ExSpec.seeded = Ok (order, ts2) ->
             In (RegularNode name parents cpd) order -> "B" = name ->
             In ("A", 1) parents).
  { intros order ts2 name parents cpd Hp Hn Hname.
    pose proof (prepare_order _ _ _ _ _ Hp) as Hord.
    destruct (get_topological_order_Ok _ _ (dbn_of_wf _) Hord) as [_ [Hstored _]].
    apply Hstored in Hn.
    change (Dict.values (nodes ExSpec.net)) with [Ex.node_a; ExSpec.node_b] in Hn.
    destruct Hn as [E|[E|[]]].
    - injection E as E _ _. rewrite <- E in Hname. discriminate.
    - injection E as _ <- _. left. reflexivity. }
  split.
  - destruct (proj1 (proj2 (proj2 (lagged_parent_values Ex.env ExSpec.net ExSpec.seeded)))
                (Ok ExMore.seeded_frame) (firstn 3 ExMore.seeded_log)
                ExMore.seeded_b_at_2 [] [(("A", 1), VFloat 5%float)])
      as [order [ts2 [name [parents [cpd [Hp [Hn [Hname [_ [_ Hpairs]]]]]]]]]].
    + vm_compute. reflexivity.
    + reflexivity.
    + apply (proj1 (Hpairs "A" 1 (Hparents order ts2 name parents cpd Hp Hn Hname))).
      * apply dbn_of_wf.
      * change (0 <= 1). lia.
      * lia.
      * simpl. tauto.
      * change (1 <= 2 - 1). lia.
  - destruct (proj1 (proj2 (proj2 (lagged_parent_values Ex.env ExSpec.net ExSpec.seeded)))
                (Ok ExMore.seeded_frame) (firstn 1 ExMore.seeded_log)
                ExMore.seeded_b_at_1 (skipn 2 ExMore.seeded_log)
                [(("A", 1), VFloat 10%float)])
      as [order [ts2 [name [parents [cpd [Hp [Hn [Hname [_ [_ Hpairs]]]]]]]]]].
    + vm_compute. reflexivity.
    + reflexivity.
    + apply (proj2 (proj2 (proj2 (Hpairs "A" 1
                                    (Hparents order ts2 name parents cpd Hp Hn Hname))))
               (dbn_of_wf _)
               [("A", [VFloat 10%float]); ("B", [VFloat 5%float])] Ex.node_a).
      * reflexivity.
      * discriminate.
      * simpl. tauto.
      * change (0 <= 1 - 1 < 1). lia.
Defined.

(** C3 as stated fails when the initial values are the empty mapping: the
    loop starts at [max_lag], so that [B] at timestep 1 reads row 0 of its
    lag-1 parent [A], which no sample has filled: the value handed to the
    distribution of [B] is the 0.0 placeholder of the fresh table, neither
    a value of [A] computed at timestep 0 (the run has no such sample) nor
    the configured replacement -1.5. *)
Lemma lagged_parent_never_computed :
  initial_values ExMore.unseeded = Some []
  /\ replacement_value_for_non_existing_parents ExMore.unseeded = VFloat (-1.5)%float
  /\ (exists df, run_generate Ex.env Ex.chain ExMore.unseeded = (Ok df, ExMore.unseeded_log))
  /\ nth_error ExMore.unseeded_log 1 = Some ExMore.unseeded_b_at_1
  /\ Ex.node_b = RegularNode "B" [("A", 1)]
                   (Some (as_cpd {| parent_weights := [(("A", 1), 0.5%float)];
                                    intrinsic_mean := 1%float; noise_std := 0%float |}))
  /\ 0 <= at_timestep ExMore.unseeded_b_at_1 - 1
  /\ input ExMore.unseeded_b_at_1 = FromParents [(("A", 1), VFloat 0%float)]
  /\ (forall s', In s' ExMore.unseeded_log -> at_node s' = "A" ->
                 at_timestep s' <> at_timestep ExMore.unseeded_b_at_1 - 1).
Proof.
  split; [reflexivity|]. split; [reflexivity|].
  split; [eexists; vm_compute; reflexivity|].
  split; [reflexivity|]. split; [reflexivity|].
  split; [simpl; lia|]. split; [reflexivity|].
  intros s' Hin Hnode.
  simpl in Hin. destruct Hin as [<-|[<-|[<-|[<-|[]]]]]; simpl in *;
    first [discriminate | lia].
Qed.
